(** * Client-side product search engine (Trie + fuzzy search)

    A shallow embedding of the search engine of
    [backend/static/frontend/js/app.js] (classes [TrieNode], [Trie] and
    [SearchEngine]) together with the properties its specification states,
    and of the parts of the application class that compute without the page:
    the delivery rates, the test of an e-mail address, the escaping of a
    pattern and the cart.

    Modelling conventions.
    - A JavaScript string is the list of its code units.  The model covers
      the strings whose code units are below 256 (Latin-1), each code unit
      being an [ascii]; on these, code points and code units coincide,
      [toLowerCase] acts character by character and keeps the length.
    - A JavaScript number that counts something (a length, an index, an edit
      distance) is a [nat]; a score is a [Z].
    - Arrays are lists read with [!!!] and written with [<[ i := x ]>].
    - An exception is an explicit [Throw] result; state that a method
      mutates is passed in and returned.
    - [String.prototype.localeCompare] belongs to the host: [search] takes
      it as a parameter. *)

From Stdlib Require Import ZArith Ascii String Lia.
From stdpp Require Import base list gmap strings sorting.

Local Open Scope nat_scope.

(** ** JavaScript strings *)

Module Js.

Abbreviation jstring := (list ascii).

(** A literal, for examples. *)
Definition lit (s : string) : jstring := list_ascii_of_string s.

Definition code (c : ascii) : nat := nat_of_ascii c.

(** [String.prototype.toLowerCase] on one Latin-1 code unit: the letters
    A-Z and U+00C0-U+00DE (except the multiplication sign U+00D7) move up
    by 32. *)
Definition lowerChar (c : ascii) : ascii :=
  let n := code c in
  if ((65 <=? n) && (n <=? 90)) || ((192 <=? n) && (n <=? 222) && negb (n =? 215))
  then ascii_of_nat (n + 32) else c.

Definition toLowerCase (s : jstring) : jstring := map lowerChar s.

(** The class [\s] of a regular expression, which is also what [trim]
    strips: TAB, LF, VT, FF, CR, SPACE and NBSP (U+00A0). *)
Definition isSpace (c : ascii) : bool :=
  let n := code c in
  ((9 <=? n) && (n <=? 13)) || (n =? 32) || (n =? 160).

Fixpoint trimStart (s : jstring) : jstring :=
  match s with
  | c :: s' => if isSpace c then trimStart s' else s
  | [] => []
  end.

Definition trim (s : jstring) : jstring :=
  reverse (trimStart (reverse (trimStart s))).

(** [s.split(/\s+/)]: the pieces of [s] between the maximal runs of
    whitespace.  [cur] holds the piece being read, reversed; [inRun] says
    that the previous character was whitespace.  The piece before a
    leading run and the piece after a trailing run are empty strings, and
    they are part of the result. *)
Fixpoint splitGo (inRun : bool) (cur : jstring) (s : jstring) : list jstring :=
  match s with
  | [] => [reverse cur]
  | c :: s' =>
      if isSpace c then
        if inRun then splitGo true [] s' else reverse cur :: splitGo true [] s'
      else splitGo false (c :: cur) s'
  end.

Definition splitWs (s : jstring) : list jstring := splitGo false [] s.

(** [s === t] on strings. *)
Definition eqb (s t : jstring) : bool := bool_decide (s = t).

(** [s.startsWith(t)] *)
Fixpoint startsWith (s t : jstring) {struct t} : bool :=
  match t with
  | [] => true
  | d :: t' =>
      match s with
      | c :: s' => bool_decide (c = d) && startsWith s' t'
      | [] => false
      end
  end.

(** [s.includes(t)] *)
Fixpoint includes (s t : jstring) : bool :=
  startsWith s t ||
  match s with
  | [] => false
  | _ :: s' => includes s' t
  end.

End Js.

Import Js.

(** ** Levenshtein distance, as the engine computes it *)

Section Levenshtein.

Variables str1 str2 : jstring.

(** The body of the inner loop: the cell [curr[j]] of row [i]. *)
Definition levCell (i : nat) (prev curr : list nat) (j : nat) : list nat :=
  if bool_decide (str1 !! (i - 1) = str2 !! (j - 1)) then
    <[ j := prev !!! (j - 1) ]> curr
  else
    <[ j := 1 + Nat.min (Nat.min (prev !!! (j - 1)) (prev !!! j)) (curr !!! (j - 1)) ]> curr.

(** One turn of the outer loop: fill [curr], then swap the two rows. *)
Definition levRow (n : nat) (rows : list nat * list nat) (i : nat)
  : list nat * list nat :=
  let '(prev, curr) := rows in
  let curr := <[ 0 := i ]> curr in
  let curr := foldl (levCell i prev) curr (seq 1 n) in
  (curr, prev).

Definition levenshteinDistance : nat :=
  let m := length str1 in
  let n := length str2 in
  let prev := seq 0 (n + 1) in
  let curr := replicate (n + 1) 0 in
  let '(prev, _) := foldl (levRow n) (prev, curr) (seq 1 m) in
  prev !!! n.

End Levenshtein.


(** ** Exceptions, numbers, insertion-ordered maps *)

(** The only exception the engine can raise: reading a property of
    [undefined] ([product.name.toLowerCase()] on a record without name). *)
Inductive JsError : Type := TypeError.

Inductive JsResult (A : Type) : Type :=
  | Ok (a : A)
  | Throw (e : JsError).
Arguments Ok {A} a.
Arguments Throw {A} e.

Global Instance JsResult_ret : MRet JsResult := fun A a => Ok a.

Global Instance JsResult_bind : MBind JsResult := fun A B k r =>
  match r with
  | Ok a => k a
  | Throw e => Throw e
  end.

(** [l.map(f)] where [f] may throw: the first exception ends the loop. *)
Fixpoint mapR {A B} (f : A -> JsResult B) (l : list A) : JsResult (list B) :=
  match l with
  | [] => Ok []
  | x :: l' => y ← f x; ys ← mapR f l'; Ok (y :: ys)
  end.

(** [l.forEach(x => ...)] on a state that the body replaces, where the body
    may throw. *)
Fixpoint forEachR {S A} (f : S -> A -> JsResult S) (s : S) (l : list A) : JsResult S :=
  match l with
  | [] => Ok s
  | x :: l' => s' ← f s x; forEachR f s' l'
  end.

(** A [limit] argument: an integer, or one of the three numbers that are not
    finite.  (Fractional limits are outside the model.) *)
Inductive JsNumber : Type :=
  | Int (z : Z)
  | PosInf
  | NegInf
  | NaN.

(** [size < limit] *)
Definition sizeBelow (size : nat) (limit : JsNumber) : bool :=
  match limit with
  | Int z => (Z.of_nat size <? z)%Z
  | PosInf => true
  | NegInf | NaN => false
  end.

(** [Array.prototype.slice(0, limit)]: a negative end counts from the end of
    the array, [NaN] is 0. *)
Definition sliceEnd (len : nat) (limit : JsNumber) : nat :=
  match limit with
  | Int z =>
      if (z <? 0)%Z then Z.to_nat (Z.max (Z.of_nat len + z) 0)
      else Z.to_nat (Z.min z (Z.of_nat len))
  | PosInf => len
  | NegInf | NaN => 0
  end.

Definition slice0 {A} (l : list A) (limit : JsNumber) : list A :=
  take (sliceEnd (length l) limit) l.

(** [Array.prototype.sort(cmp)].  The sort is stable, and for a consistent
    comparator its result is determined by that: here it is computed by
    insertion from the right, an element going before the first one that it
    does not follow. *)
Fixpoint insertBy {A} (cmp : A -> A -> Z) (x : A) (l : list A) : list A :=
  match l with
  | [] => [x]
  | y :: l' => if (cmp x y <=? 0)%Z then x :: l else y :: insertBy cmp x l'
  end.

Definition arraySort {A} (cmp : A -> A -> Z) (l : list A) : list A :=
  foldr (insertBy cmp) [] l.

(** [Math.min(...l)]; [None] is [Infinity], the minimum of no numbers. *)
Definition mathMin (l : list nat) : option nat :=
  foldr (fun x acc => Some (match acc with Some y => Nat.min x y | None => x end)) None l.

(** A [Map]: keys in insertion order; [set] on a key that is present
    replaces the value where it is. *)
Module JsMap.
Section Ops.
Context {K V : Type} `{EqDecision K}.

Definition has (m : list (K * V)) (k : K) : bool :=
  existsb (fun kv => bool_decide (kv.1 = k)) m.

Fixpoint set (m : list (K * V)) (k : K) (v : V) : list (K * V) :=
  match m with
  | [] => [(k, v)]
  | kv :: m' => if bool_decide (kv.1 = k) then (k, v) :: m' else kv :: set m' k v
  end.

Definition size (m : list (K * V)) : nat := length m.

Definition values (m : list (K * V)) : list V := map snd m.
End Ops.
End JsMap.

(** ** Products *)

(** The fields of a product record that the engine reads.  [None] is a field
    that is missing ([undefined]). *)
Record Product : Type := mkProduct {
  id : option Z;
  name : option jstring;
  category : option jstring;
  sku : option jstring
}.

Global Instance Product_eq_dec : EqDecision Product.
Proof. solve_decision. Defined.

(** [if (field)]: a missing field and the empty string are both falsy. *)
Definition truthy (field : option jstring) : option jstring :=
  match field with
  | Some (c :: s) => Some (c :: s)
  | _ => None
  end.

(** [(field || '')] *)
Definition orEmpty (field : option jstring) : jstring := default [] field.

(** ** The Trie *)

Module Trie.

Local Unset Elimination Schemes.
Inductive TrieNode : Type := mkTrieNode {
  children : gmap ascii TrieNode;
  isEndOfWord : bool;
  products : list Product
}.
Local Set Elimination Schemes.

Definition newTrieNode : TrieNode := mkTrieNode ∅ false [].

Record Trie : Type := mkTrie { root : TrieNode }.

Definition newTrie : Trie := mkTrie newTrieNode.

(** [if (!node.products.find(p => p.id === product.id)) node.products.push(product)] *)
Definition pushProduct (product : Product) (l : list Product) : list Product :=
  match find (fun p => bool_decide (id p = id product)) l with
  | Some _ => l
  | None => l ++ [product]
  end.

(** The loop of [insert], from the node [node] on: the child for the next
    character is created when it is missing, receives the product, and
    the walk goes on from it. *)
Fixpoint insertFrom (chars : jstring) (product : Product) (node : TrieNode) : TrieNode :=
  match chars with
  | [] => mkTrieNode (children node) true (products node)
  | char :: rest =>
      let child := default newTrieNode (children node !! char) in
      let child := mkTrieNode (children child) (isEndOfWord child)
                              (pushProduct product (products child)) in
      mkTrieNode (<[ char := insertFrom rest product child ]> (children node))
                 (isEndOfWord node) (products node)
  end.

Definition insert (t : Trie) (word : jstring) (product : Product) : Trie :=
  mkTrie (insertFrom (toLowerCase word) product (root t)).

Fixpoint searchFrom (chars : jstring) (node : TrieNode) : list Product :=
  match chars with
  | [] => products node
  | char :: rest =>
      match children node !! char with
      | None => []
      | Some child => searchFrom rest child
      end
  end.

Definition search (t : Trie) (prefix : jstring) : list Product :=
  searchFrom (toLowerCase prefix) (root t).

End Trie.

(** ** The search engine *)

Module SearchEngine.

Record SearchEngine : Type := mkSearchEngine {
  trie : Trie.Trie;
  products : list Product;
  searchIndex : gmap jstring (gset (option Z))
}.

(** [constructor()] *)
Definition newSearchEngine : SearchEngine := mkSearchEngine Trie.newTrie [] ∅.

(** Methods that change the engine run in a state monad over it; a method
    that throws leaves the changes it has made so far. *)
Definition Eng (A : Type) : Type := SearchEngine -> SearchEngine * JsResult A.

Global Instance Eng_ret : MRet Eng := fun A a e => (e, Ok a).

Global Instance Eng_bind : MBind Eng := fun A B k m e =>
  match m e with
  | (e', Ok a) => k a e'
  | (e', Throw err) => (e', Throw err)
  end.

Definition modify (f : SearchEngine -> SearchEngine) : Eng unit :=
  fun e => (f e, Ok tt).

Definition throw {A} (err : JsError) : Eng A := fun e => (e, Throw err).

Fixpoint forEach {A} (f : A -> Eng unit) (l : list A) : Eng unit :=
  match l with
  | [] => mret tt
  | x :: l' => _ ← f x; forEach f l'
  end.

(** [this.trie.insert(word, product)] *)
Definition trieInsert (word : jstring) (product : Product) : Eng unit :=
  modify (fun e => mkSearchEngine (Trie.insert (trie e) word product)
                                  (products e) (searchIndex e)).

Definition addToIndex (term : jstring) (product : Product) : Eng unit :=
  modify (fun e =>
    let index := searchIndex e in
    let index :=
      if bool_decide (is_Some (index !! term)) then index
      else <[ term := ∅ ]> index in
    let index := alter (fun ids => ids ∪ {[ id product ]}) term index in
    mkSearchEngine (trie e) (products e) index).

(** [product.name.toLowerCase()] and the like: reading through a name that
    is missing throws. *)
Definition readName {A} (product : Product) (k : jstring -> A) (raise : A) : A :=
  match name product with
  | Some nm => k nm
  | None => raise
  end.

Definition indexProduct (product : Product) : Eng unit :=
  readName product (fun nm =>
    let nameWords := splitWs (toLowerCase nm) in
    _ ← forEach (fun word =>
           _ ← trieInsert word product;
           addToIndex word product) nameWords;
    _ ← trieInsert nm product;
    _ ← match truthy (category product) with
        | Some cat =>
            _ ← trieInsert cat product;
            addToIndex (toLowerCase cat) product
        | None => mret tt
        end;
    match truthy (sku product) with
    | Some code => trieInsert code product
    | None => mret tt
    end)
  (throw TypeError).

(** [this.products = products; this.trie = new Trie();
    this.searchIndex.clear();] and then the loop over the products. *)
Definition buildIndex (ps : list Product) : Eng unit :=
  _ ← modify (fun e => mkSearchEngine (trie e) ps (searchIndex e));
  _ ← modify (fun e => mkSearchEngine Trie.newTrie (products e) (searchIndex e));
  _ ← modify (fun e => mkSearchEngine (trie e) (products e) ∅);
  forEach indexProduct ps.

(** The inner [forEach] of the word match bonus. *)
Definition wordBonus (qWord : jstring) (score : Z) (nWord : jstring) : Z :=
  if eqb nWord qWord then (score + 20)%Z
  else if startsWith nWord qWord then (score + 10)%Z
  else score.

Definition calculateScore (product : Product) (query : jstring) : JsResult Z :=
  let lowerQuery := toLowerCase query in
  readName product (fun nm =>
    let lowerName := toLowerCase nm in
    let lowerCategory := toLowerCase (orEmpty (category product)) in
    let score := 0%Z in
    let score := if eqb lowerName lowerQuery then (score + 100)%Z else score in
    let score := if startsWith lowerName lowerQuery then (score + 50)%Z else score in
    let score := if includes lowerName lowerQuery then (score + 30)%Z else score in
    let queryWords := splitWs lowerQuery in
    let nameWords := splitWs lowerName in
    let score :=
      foldl (fun score qWord => foldl (wordBonus qWord) score nameWords)
            score queryWords in
    let score := if includes lowerCategory lowerQuery then (score + 15)%Z else score in
    let minDistance :=
      mathMin (map (fun word => levenshteinDistance lowerQuery word) nameWords) in
    let score :=
      match minDistance with
      | Some d => if d <=? 2 then (score + (3 - Z.of_nat d) * 5)%Z else score
      | None => score
      end in
    Ok score)
  (Throw TypeError).

(** An element of the array that [search] returns: the fields of the
    product and [searchScore]. *)
Record ScoredResult : Type := mkScoredResult {
  product : Product;
  searchScore : Z
}.

(** The body of the augmentation loop of [search]. *)
Definition augmentStep (queryLower : jstring)
    (results : list (option Z * Product)) (product : Product)
  : JsResult (list (option Z * Product)) :=
  if JsMap.has results (id product) then Ok results
  else
    readName product (fun nm =>
      let nameLower := toLowerCase nm in
      let categoryLower := toLowerCase (orEmpty (category product)) in
      let nameWords := splitWs nameLower in
      let isFuzzyMatch :=
        existsb (fun word =>
                   levenshteinDistance queryLower word
                     <=? Nat.max 1 (length queryLower / 3)) nameWords in
      let isPartialMatch :=
        includes nameLower queryLower || includes categoryLower queryLower in
      if isFuzzyMatch || isPartialMatch
      then Ok (JsMap.set results (id product) product)
      else Ok results)
    (Throw TypeError).

Section Host.

(** [a.localeCompare(b)]: the collation of the host, negative when [a]
    sorts before [b], positive when after. *)
Variable localeCompare : jstring -> jstring -> Z.

(** The comparator of [scoredResults.sort].  Every element has been
    scored, so its name is present. *)
Definition compareResults (a b : ScoredResult) : Z :=
  if negb (searchScore b =? searchScore a)%Z
  then (searchScore b - searchScore a)%Z
  else localeCompare (orEmpty (name (product a))) (orEmpty (name (product b))).

(** [search(query, limit = 10)] *)
Definition search (e : SearchEngine) (query : jstring)
    (limitArg : option JsNumber) : JsResult (list ScoredResult) :=
  let limit := default (Int 10) limitArg in
  if bool_decide (query = []) || (length (trim query) =? 0) then Ok []
  else
    let trimmedQuery := trim query in
    let results : list (option Z * Product) := [] in
    let trieResults := Trie.search (trie e) trimmedQuery in
    let results :=
      foldl (fun results product => JsMap.set results (id product) product)
            results trieResults in
    results ←
      (if sizeBelow (JsMap.size results) limit then
         let queryLower := toLowerCase trimmedQuery in
         forEachR (augmentStep queryLower) results (products e)
       else Ok results);
    scoredResults ←
      mapR (fun product =>
              score ← calculateScore product trimmedQuery;
              Ok (mkScoredResult product score))
           (JsMap.values results);
    let scoredResults := arraySort compareResults scoredResults in
    Ok (slice0 scoredResults limit).

End Host.

End SearchEngine.

(** ** Host collations

    Two instances of [localeCompare] for examples; both compare the keys of
    the two strings, lists of numbers, in lexicographic order. *)

Fixpoint lexCompare (a b : list nat) : comparison :=
  match a, b with
  | [], [] => Eq
  | [], _ :: _ => Lt
  | _ :: _, [] => Gt
  | x :: a', y :: b' =>
      match Nat.compare x y with
      | Eq => lexCompare a' b'
      | c => c
      end
  end.

(** The comparison of two strings by the keys that [key] gives them. *)
Definition compareBy (key : jstring -> list nat) (a b : jstring) : Z :=
  match lexCompare (key a) (key b) with
  | Lt => (-1)%Z
  | Eq => 0%Z
  | Gt => 1%Z
  end.

(** [rootCompare] compares alphabetically without regard to case first;
    strings that are equal up to case are then ordered at their first
    difference in case, lower case first.  On strings of unaccented letters
    this is the order of the root collation that browsers use ("a" before
    "A" before "b").  The key is the lowercased string, a separator, and the
    case of each character. *)
Definition collationKey (s : jstring) : list nat :=
  map (fun c => S (code (lowerChar c))) s
  ++ 0 :: map (fun c => if bool_decide (lowerChar c = c) then 0 else 1) s.

Definition rootCompare : jstring -> jstring -> Z := compareBy collationKey.

(** [codeUnitCompare] is the other order that hosts have: the strings
    compared code unit by code unit ("A" before "B" before "a"). *)
Definition codeUnitCompare : jstring -> jstring -> Z := compareBy (fmap code).

(** * The rest of the shop

    Beside the search engine, the application file holds the table of
    delivery rates with the functions that read it, the test of an e-mail
    address, the escaping of a string for use in a pattern, and the methods
    of the cart. *)

(** ** Delivery rates *)

(** An entry of the table of delivery rates: [{district, location, rate}]. *)
Record DeliveryRate := mkDeliveryRate {
  district : jstring;
  location : jstring;
  rate : Z
}.

(** [new Set(iterable)] spread into an array: the elements in the order in
    which they were first added. *)
Module JsSet.
Definition add (s : list jstring) (x : jstring) : list jstring :=
  if bool_decide (x ∈ s) then s else s ++ [x].

Definition from (l : list jstring) : list jstring := foldl add [] l.
End JsSet.

Definition NEPAL_DELIVERY_RATES : list DeliveryRate := [
  mkDeliveryRate (lit "Achham") (lit "Achhamsanfebagar") 285;
  mkDeliveryRate (lit "Achham") (lit "Kamalbazar") 290;
  mkDeliveryRate (lit "Achham") (lit "Mangalsen") 285;
  mkDeliveryRate (lit "Arghakhanchi") (lit "Sandhikarka") 215;
  mkDeliveryRate (lit "Baglung") (lit "Baglung") 180;
  mkDeliveryRate (lit "Baglung") (lit "Burtibang") 240;
  mkDeliveryRate (lit "Baglung") (lit "Galkot") 205;
  mkDeliveryRate (lit "Baitadi") (lit "Gothalapani") 290;
  mkDeliveryRate (lit "Baitadi") (lit "Patan") 290;
  mkDeliveryRate (lit "Bajhang") (lit "Chainpur") 290;
  mkDeliveryRate (lit "Bajura") (lit "Kolti") 290;
  mkDeliveryRate (lit "Bajura") (lit "Martadi") 290;
  mkDeliveryRate (lit "Banke") (lit "Khajura") 200;
  mkDeliveryRate (lit "Banke") (lit "Kohalpur") 170;
  mkDeliveryRate (lit "Banke") (lit "Nepalgunj") 170;
  mkDeliveryRate (lit "Banke") (lit "Samshergunj") 220;
  mkDeliveryRate (lit "Bara") (lit "Amlekhgunj") 190;
  mkDeliveryRate (lit "Bara") (lit "Jeetpur") 190;
  mkDeliveryRate (lit "Bara") (lit "Kalaiya") 190;
  mkDeliveryRate (lit "Bara") (lit "Kolhabibazar") 200;
  mkDeliveryRate (lit "Bara") (lit "Nijgadh") 190;
  mkDeliveryRate (lit "Bara") (lit "Pathlaiya") 190;
  mkDeliveryRate (lit "Bara") (lit "Simara") 190;
  mkDeliveryRate (lit "Bardiya") (lit "Bansagadhi") 240;
  mkDeliveryRate (lit "Bardiya") (lit "Bhurigaun") 215;
  mkDeliveryRate (lit "Bardiya") (lit "Gulariya") 215;
  mkDeliveryRate (lit "Bardiya") (lit "Jayanagar") 240;
  mkDeliveryRate (lit "Bardiya") (lit "Mainapokhari") 240;
  mkDeliveryRate (lit "Bardiya") (lit "Rajapur") 215;
  mkDeliveryRate (lit "Bardiya") (lit "Taratal") 240;
  mkDeliveryRate (lit "Bhaktapur") (lit "Bhaktapur") 100;
  mkDeliveryRate (lit "Bhaktapur") (lit "Nagarkot") 190;
  mkDeliveryRate (lit "Bhojpur") (lit "Bhojpur") 265;
  mkDeliveryRate (lit "Bhojpur") (lit "Dingla") 290;
  mkDeliveryRate (lit "Chitwan") (lit "Bhandara") 225;
  mkDeliveryRate (lit "Chitwan") (lit "Bharatpur") 145;
  mkDeliveryRate (lit "Chitwan") (lit "Chanauli") 200;
  mkDeliveryRate (lit "Chitwan") (lit "Dasdhunga") 240;
  mkDeliveryRate (lit "Chitwan") (lit "Gaidakot") 165;
  mkDeliveryRate (lit "Chitwan") (lit "Jagatpur") 200;
  mkDeliveryRate (lit "Chitwan") (lit "Jugedi") 190;
  mkDeliveryRate (lit "Chitwan") (lit "Lothar") 200;
  mkDeliveryRate (lit "Chitwan") (lit "Madi") 200;
  mkDeliveryRate (lit "Chitwan") (lit "Meghauli") 240;
  mkDeliveryRate (lit "Chitwan") (lit "Narayangarh") 135;
  mkDeliveryRate (lit "Chitwan") (lit "Padampur") 195;
  mkDeliveryRate (lit "Chitwan") (lit "Parsa") 190;
  mkDeliveryRate (lit "Chitwan") (lit "Sauraha") 215;
  mkDeliveryRate (lit "Chitwan") (lit "Tandi") 160;
  mkDeliveryRate (lit "Dadeldhura") (lit "Amargadhi") 265;
  mkDeliveryRate (lit "Dailekh") (lit "Dailekhbazar") 240;
  mkDeliveryRate (lit "Dailekh") (lit "Dullu") 290;
  mkDeliveryRate (lit "Dang") (lit "Bhalubang") 190;
  mkDeliveryRate (lit "Dang") (lit "Ghorahi") 180;
  mkDeliveryRate (lit "Dang") (lit "Gogali") 200;
  mkDeliveryRate (lit "Dang") (lit "Lamahi") 190;
  mkDeliveryRate (lit "Dang") (lit "Mourighat") 190;
  mkDeliveryRate (lit "Dang") (lit "Narayanpur") 200;
  mkDeliveryRate (lit "Dang") (lit "Tulsipur") 180;
  mkDeliveryRate (lit "Darchula") (lit "Darchulakhalanga") 290;
  mkDeliveryRate (lit "Darchula") (lit "Gokuleshwor") 290;
  mkDeliveryRate (lit "Dhading") (lit "Dhadingbesi") 190;
  mkDeliveryRate (lit "Dhading") (lit "Gajuri") 235;
  mkDeliveryRate (lit "Dhading") (lit "Galchi") 240;
  mkDeliveryRate (lit "Dhading") (lit "Malekhu") 215;
  mkDeliveryRate (lit "Dhading") (lit "Naubise") 240;
  mkDeliveryRate (lit "Dhankuta") (lit "Dhankuta") 200;
  mkDeliveryRate (lit "Dhankuta") (lit "Hile") 230;
  mkDeliveryRate (lit "Dhankuta") (lit "Pakhribas") 210;
  mkDeliveryRate (lit "Dhankuta") (lit "Rajarani") 200;
  mkDeliveryRate (lit "Dhankuta") (lit "Sidhuwa") 290;
  mkDeliveryRate (lit "Dhanusa") (lit "Birendrabazar") 195;
  mkDeliveryRate (lit "Dhanusa") (lit "Dhanusadham") 195;
  mkDeliveryRate (lit "Dhanusa") (lit "Jaleshwor") 195;
  mkDeliveryRate (lit "Dhanusa") (lit "Janakpur") 180;
  mkDeliveryRate (lit "Dhanusa") (lit "Mahendranagar") 200;
  mkDeliveryRate (lit "Dhanusa") (lit "Nagarain") 195;
  mkDeliveryRate (lit "Dhanusa") (lit "Sabaila") 195;
  mkDeliveryRate (lit "Dhanusa") (lit "Tinkoriya") 195;
  mkDeliveryRate (lit "Dhanusa") (lit "Yadukuha") 195;
  mkDeliveryRate (lit "Dolakha") (lit "Dolakhacharikot") 195;
  mkDeliveryRate (lit "Dolakha") (lit "Jiri") 230;
  mkDeliveryRate (lit "Dolpa") (lit "Dunai") 290;
  mkDeliveryRate (lit "Doti") (lit "Budor") 290;
  mkDeliveryRate (lit "Doti") (lit "Dipayalbazar") 265;
  mkDeliveryRate (lit "Doti") (lit "Silgadhi") 265;
  mkDeliveryRate (lit "Gorkha") (lit "Gorkha") 190;
  mkDeliveryRate (lit "Gorkha") (lit "Palungtar") 225;
  mkDeliveryRate (lit "Gulmi") (lit "Baletaxar") 200;
  mkDeliveryRate (lit "Gulmi") (lit "Gulmi") 200;
  mkDeliveryRate (lit "Gulmi") (lit "Ridi") 210;
  mkDeliveryRate (lit "Gulmi") (lit "Shantipur") 210;
  mkDeliveryRate (lit "Gulmi") (lit "Tamghas") 200;
  mkDeliveryRate (lit "Humla") (lit "Simikot") 290;
  mkDeliveryRate (lit "Ilam") (lit "Chulachuli") 200;
  mkDeliveryRate (lit "Ilam") (lit "Fikkal") 210;
  mkDeliveryRate (lit "Ilam") (lit "Ilam") 190;
  mkDeliveryRate (lit "Ilam") (lit "Nepaltar") 195;
  mkDeliveryRate (lit "Ilam") (lit "Mangalbare") 200;
  mkDeliveryRate (lit "Ilam") (lit "Pashupatinagar") 240;
  mkDeliveryRate (lit "Ilam") (lit "Ranke") 200;
  mkDeliveryRate (lit "Ilam") (lit "Shreeantu") 200;
  mkDeliveryRate (lit "Jajarkot") (lit "Jajarkot") 290;
  mkDeliveryRate (lit "Jhapa") (lit "Bahundangi") 240;
  mkDeliveryRate (lit "Jhapa") (lit "Baniyani") 190;
  mkDeliveryRate (lit "Jhapa") (lit "Beldangi") 190;
  mkDeliveryRate (lit "Jhapa") (lit "Bhadrapur") 170;
  mkDeliveryRate (lit "Jhapa") (lit "Birtamod") 170;
  mkDeliveryRate (lit "Jhapa") (lit "Budhabare") 180;
  mkDeliveryRate (lit "Jhapa") (lit "Chandragadhi") 180;
  mkDeliveryRate (lit "Jhapa") (lit "Charali") 180;
  mkDeliveryRate (lit "Jhapa") (lit "Damak") 170;
  mkDeliveryRate (lit "Jhapa") (lit "Dhulabari") 180;
  mkDeliveryRate (lit "Jhapa") (lit "Garamani") 200;
  mkDeliveryRate (lit "Jhapa") (lit "Gauradaha") 190;
  mkDeliveryRate (lit "Jhapa") (lit "Gaurigunj") 180;
  mkDeliveryRate (lit "Jhapa") (lit "Goldhap") 195;
  mkDeliveryRate (lit "Jhapa") (lit "Haldibari") 180;
  mkDeliveryRate (lit "Jhapa") (lit "Jhiljhile") 190;
  mkDeliveryRate (lit "Jhapa") (lit "Kakarvitta") 180;
  mkDeliveryRate (lit "Jhapa") (lit "Kechana") 190;
  mkDeliveryRate (lit "Jhapa") (lit "Kerkha") 200;
  mkDeliveryRate (lit "Jhapa") (lit "Khudunabari") 215;
  mkDeliveryRate (lit "Jhapa") (lit "Laxmipur") 190;
  mkDeliveryRate (lit "Jhapa") (lit "Madhumalla") 190;
  mkDeliveryRate (lit "Jhapa") (lit "Pathari") 190;
  mkDeliveryRate (lit "Jhapa") (lit "Rajgadh") 215;
  mkDeliveryRate (lit "Jhapa") (lit "Ratuwamaisombare") 190;
  mkDeliveryRate (lit "Jhapa") (lit "Sanischare") 190;
  mkDeliveryRate (lit "Jhapa") (lit "Sharanmati") 200;
  mkDeliveryRate (lit "Jhapa") (lit "Shivagunj") 200;
  mkDeliveryRate (lit "Jhapa") (lit "Surunga") 190;
  mkDeliveryRate (lit "Jhapa") (lit "Urlabari") 175;
  mkDeliveryRate (lit "Jumla") (lit "Jumla") 290;
  mkDeliveryRate (lit "Jumla") (lit "Jumlakhalanga") 290;
  mkDeliveryRate (lit "Kailali") (lit "Attariya") 190;
  mkDeliveryRate (lit "Kailali") (lit "Bauniya") 215;
  mkDeliveryRate (lit "Kailali") (lit "Bhajani") 215;
  mkDeliveryRate (lit "Kailali") (lit "Chaumala") 240;
  mkDeliveryRate (lit "Kailali") (lit "Chisapani") 215;
  mkDeliveryRate (lit "Kailali") (lit "Dhangadhi") 180;
  mkDeliveryRate (lit "Kailali") (lit "Geta") 240;
  mkDeliveryRate (lit "Kailali") (lit "Godawari") 215;
  mkDeliveryRate (lit "Kailali") (lit "Hasuliya") 215;
  mkDeliveryRate (lit "Kailali") (lit "Joshipur") 240;
  mkDeliveryRate (lit "Kailali") (lit "Jugeda") 240;
  mkDeliveryRate (lit "Kailali") (lit "Lamki") 210;
  mkDeliveryRate (lit "Kailali") (lit "Masuriya") 240;
  mkDeliveryRate (lit "Kailali") (lit "Musikot") 265;
  mkDeliveryRate (lit "Kailali") (lit "Pahalbanpur") 215;
  mkDeliveryRate (lit "Kailali") (lit "Phulbari") 240;
  mkDeliveryRate (lit "Kailali") (lit "Sattibazar") 240;
  mkDeliveryRate (lit "Kailali") (lit "Sukkhad") 215;
  mkDeliveryRate (lit "Kailali") (lit "Tikapur") 215;
  mkDeliveryRate (lit "Kalikot") (lit "Manma") 290;
  mkDeliveryRate (lit "Kanchanpur") (lit "Belauri") 250;
  mkDeliveryRate (lit "Kanchanpur") (lit "Beldandi") 200;
  mkDeliveryRate (lit "Kanchanpur") (lit "Brahmadevbazar") 190;
  mkDeliveryRate (lit "Kanchanpur") (lit "Dodhara") 200;
  mkDeliveryRate (lit "Kanchanpur") (lit "Gulariya") 190;
  mkDeliveryRate (lit "Kanchanpur") (lit "Jhalari") 200;
  mkDeliveryRate (lit "Kanchanpur") (lit "Mahendranagar") 200;
  mkDeliveryRate (lit "Kanchanpur") (lit "Punarbas") 190;
  mkDeliveryRate (lit "Kapilvastu") (lit "Chandrauta") 200;
  mkDeliveryRate (lit "Kapilvastu") (lit "Gorusinge") 190;
  mkDeliveryRate (lit "Kapilvastu") (lit "Imiliya") 200;
  mkDeliveryRate (lit "Kapilvastu") (lit "Jeetpur") 200;
  mkDeliveryRate (lit "Kapilvastu") (lit "Kapilbastu") 200;
  mkDeliveryRate (lit "Kapilvastu") (lit "Krishnanagar") 210;
  mkDeliveryRate (lit "Kapilvastu") (lit "Maharajganj") 200;
  mkDeliveryRate (lit "Kapilvastu") (lit "Odari") 200;
  mkDeliveryRate (lit "Kapilvastu") (lit "Rudrapurharaiya") 200;
  mkDeliveryRate (lit "Kapilvastu") (lit "Taulihawa") 190;
  mkDeliveryRate (lit "Kaski") (lit "Hemja") 190;
  mkDeliveryRate (lit "Kaski") (lit "Naudanda") 190;
  mkDeliveryRate (lit "Kaski") (lit "Lekhnath") 145;
  mkDeliveryRate (lit "Kaski") (lit "Pokhara") 135;
  mkDeliveryRate (lit "Kathmandu") (lit "Dakshinkali") 150;
  mkDeliveryRate (lit "Kathmandu") (lit "Dolalghat") 240;
  mkDeliveryRate (lit "Kathmandu") (lit "Godawari") 100;
  mkDeliveryRate (lit "Kathmandu") (lit "Kathmandu") 100;
  mkDeliveryRate (lit "Kathmandu") (lit "Kirtipur") 100;
  mkDeliveryRate (lit "Kathmandu") (lit "Lele") 100;
  mkDeliveryRate (lit "Kathmandu") (lit "Lubhu/Lamatar") 100;
  mkDeliveryRate (lit "Kathmandu") (lit "Pharphing") 100;
  mkDeliveryRate (lit "Kathmandu") (lit "Sankhu") 150;
  mkDeliveryRate (lit "Kathmandu") (lit "Sundarijal") 150;
  mkDeliveryRate (lit "Kathmandu") (lit "Thankot") 150;
  mkDeliveryRate (lit "Kavrepalanchok") (lit "Banepa") 150;
  mkDeliveryRate (lit "Kavrepalanchok") (lit "Bhakundebesi") 215;
  mkDeliveryRate (lit "Kavrepalanchok") (lit "Dhulikhel") 150;
  mkDeliveryRate (lit "Kavrepalanchok") (lit "Kavre") 150;
  mkDeliveryRate (lit "Kavrepalanchok") (lit "Panauti") 150;
  mkDeliveryRate (lit "Kavrepalanchok") (lit "Panchkhal") 215;
  mkDeliveryRate (lit "Khotang") (lit "Diktel") 290;
  mkDeliveryRate (lit "Khotang") (lit "Khotang") 290;
  mkDeliveryRate (lit "Lalitpur") (lit "Lalitpur") 100;
  mkDeliveryRate (lit "Lamjung") (lit "Besisahar") 190;
  mkDeliveryRate (lit "Lamjung") (lit "Sundarbazar") 190;
  mkDeliveryRate (lit "Mahottari") (lit "Aurahi") 195;
  mkDeliveryRate (lit "Mahottari") (lit "Bardibas") 180;
  mkDeliveryRate (lit "Mahottari") (lit "Dhalkebar") 180;
  mkDeliveryRate (lit "Mahottari") (lit "Gaushala") 195;
  mkDeliveryRate (lit "Mahottari") (lit "Ramgopalpur") 195;
  mkDeliveryRate (lit "Mahottari") (lit "Samsi") 195;
  mkDeliveryRate (lit "Mahottari") (lit "Tuteshwar") 200;
  mkDeliveryRate (lit "Makwanpur") (lit "Daman") 240;
  mkDeliveryRate (lit "Makwanpur") (lit "Hetauda") 150;
  mkDeliveryRate (lit "Makwanpur") (lit "Manahari") 240;
  mkDeliveryRate (lit "Makwanpur") (lit "Padampokhari") 190;
  mkDeliveryRate (lit "Manang") (lit "Chame") 290;
  mkDeliveryRate (lit "Morang") (lit "Belbari") 180;
  mkDeliveryRate (lit "Morang") (lit "Biratchowk") 170;
  mkDeliveryRate (lit "Morang") (lit "Biratnagar") 140;
  mkDeliveryRate (lit "Morang") (lit "Kanepokhari") 190;
  mkDeliveryRate (lit "Morang") (lit "Kerabari") 200;
  mkDeliveryRate (lit "Morang") (lit "Letang") 190;
  mkDeliveryRate (lit "Morang") (lit "Ramailo") 190;
  mkDeliveryRate (lit "Morang") (lit "Rangeli") 190;
  mkDeliveryRate (lit "Mugu") (lit "Gamgadhi") 290;
  mkDeliveryRate (lit "Mustang") (lit "Jomsom") 290;
  mkDeliveryRate (lit "Myagdi") (lit "Beni") 180;
  mkDeliveryRate (lit "Myagdi") (lit "Darwang") 290;
  mkDeliveryRate (lit "Nawalparasi") (lit "Arunkhola") 190;
  mkDeliveryRate (lit "Nawalparasi") (lit "Bardaghat") 180;
  mkDeliveryRate (lit "Nawalparasi") (lit "Chormara") 180;
  mkDeliveryRate (lit "Nawalparasi") (lit "Daldale") 180;
  mkDeliveryRate (lit "Nawalparasi") (lit "Dumkibas") 180;
  mkDeliveryRate (lit "Nawalparasi") (lit "Gopigunj") 190;
  mkDeliveryRate (lit "Nawalparasi") (lit "Harkapur") 200;
  mkDeliveryRate (lit "Nawalparasi") (lit "Kawasoti") 180;
  mkDeliveryRate (lit "Nawalparasi") (lit "Khaireni") 190;
  mkDeliveryRate (lit "Nawalparasi") (lit "Parasiramgram") 200;
  mkDeliveryRate (lit "Nawalparasi") (lit "Rajahar") 190;
  mkDeliveryRate (lit "Nawalparasi") (lit "Sunwal") 175;
  mkDeliveryRate (lit "Nuwakot") (lit "Battar") 190;
  mkDeliveryRate (lit "Nuwakot") (lit "Bidur") 190;
  mkDeliveryRate (lit "Nuwakot") (lit "Trishuli") 200;
  mkDeliveryRate (lit "Okhaldhunga") (lit "Okhaldhunga") 290;
  mkDeliveryRate (lit "Palpa") (lit "Palpa") 195;
  mkDeliveryRate (lit "Palpa") (lit "Rampur") 190;
  mkDeliveryRate (lit "Palpa") (lit "Tansen") 180;
  mkDeliveryRate (lit "Panchthar") (lit "Jorpokhari") 200;
  mkDeliveryRate (lit "Panchthar") (lit "Phidim") 210;
  mkDeliveryRate (lit "Parbat") (lit "Kushma") 190;
  mkDeliveryRate (lit "Parbat") (lit "Nayapul") 230;
  mkDeliveryRate (lit "Parsa") (lit "Birgunj") 160;
  mkDeliveryRate (lit "Parsa") (lit "Pokhariya") 200;
  mkDeliveryRate (lit "Pyuthan") (lit "Bhingri") 265;
  mkDeliveryRate (lit "Pyuthan") (lit "Pyuthan") 240;
  mkDeliveryRate (lit "Pyuthan") (lit "Pyuthankhalanga") 265;
  mkDeliveryRate (lit "Ramechhap") (lit "Manthali") 195;
  mkDeliveryRate (lit "Rasuwa") (lit "Dhunche") 265;
  mkDeliveryRate (lit "Rautahat") (lit "Chandranigapur") 215;
  mkDeliveryRate (lit "Rautahat") (lit "Damarchowk") 215;
  mkDeliveryRate (lit "Rautahat") (lit "Garuda") 265;
  mkDeliveryRate (lit "Rautahat") (lit "Gaur") 190;
  mkDeliveryRate (lit "Rautahat") (lit "Rajdevi") 215;
  mkDeliveryRate (lit "Rolpa") (lit "Liwang") 240;
  mkDeliveryRate (lit "Rolpa") (lit "Sulichaur") 240;
  mkDeliveryRate (lit "Rukum") (lit "Chaurjahari") 290;
  mkDeliveryRate (lit "Rukum") (lit "Rukumkot") 290;
  mkDeliveryRate (lit "Rupandehi") (lit "Amuwa") 240;
  mkDeliveryRate (lit "Rupandehi") (lit "Bhairahawa") 140;
  mkDeliveryRate (lit "Rupandehi") (lit "Bhalwari") 190;
  mkDeliveryRate (lit "Rupandehi") (lit "Butwal") 140;
  mkDeliveryRate (lit "Rupandehi") (lit "Dhakdai") 200;
  mkDeliveryRate (lit "Rupandehi") (lit "Jogikuti") 160;
  mkDeliveryRate (lit "Rupandehi") (lit "KanchiBazar") 200;
  mkDeliveryRate (lit "Rupandehi") (lit "Kotihawa") 195;
  mkDeliveryRate (lit "Rupandehi") (lit "Lumbinibazar") 195;
  mkDeliveryRate (lit "Rupandehi") (lit "Manigram") 175;
  mkDeliveryRate (lit "Rupandehi") (lit "Motipur") 190;
  mkDeliveryRate (lit "Rupandehi") (lit "Murgiya") 190;
  mkDeliveryRate (lit "Rupandehi") (lit "Pharsatikar") 200;
  mkDeliveryRate (lit "Rupandehi") (lit "Tamnagar") 175;
  mkDeliveryRate (lit "Rupandehi") (lit "Thutipipal") 175;
  mkDeliveryRate (lit "Salyan") (lit "Salyankhalanga") 215;
  mkDeliveryRate (lit "Salyan") (lit "Shreenagar") 240;
  mkDeliveryRate (lit "Sankhuwasabha") (lit "Chainpur") 290;
  mkDeliveryRate (lit "Sankhuwasabha") (lit "Khandbari") 290;
  mkDeliveryRate (lit "Sankhuwasabha") (lit "Tumlingtar") 290;
  mkDeliveryRate (lit "Saptari") (lit "Bariyapatti") 200;
  mkDeliveryRate (lit "Saptari") (lit "Bodebarsain") 200;
  mkDeliveryRate (lit "Saptari") (lit "Hanumannagar") 190;
  mkDeliveryRate (lit "Saptari") (lit "Kadmaha") 190;
  mkDeliveryRate (lit "Saptari") (lit "Kalyanpur") 200;
  mkDeliveryRate (lit "Saptari") (lit "Kanchanpur") 190;
  mkDeliveryRate (lit "Saptari") (lit "Mahadeva") 190;
  mkDeliveryRate (lit "Saptari") (lit "Phattepur") 200;
  mkDeliveryRate (lit "Saptari") (lit "Rajbiraj") 180;
  mkDeliveryRate (lit "Sarlahi") (lit "Barathawa") 200;
  mkDeliveryRate (lit "Sarlahi") (lit "Gair") 190;
  mkDeliveryRate (lit "Sarlahi") (lit "Godaita") 190;
  mkDeliveryRate (lit "Sarlahi") (lit "Haripur") 190;
  mkDeliveryRate (lit "Sarlahi") (lit "Hariwan") 195;
  mkDeliveryRate (lit "Sarlahi") (lit "Lalbandi") 190;
  mkDeliveryRate (lit "Sarlahi") (lit "Malangwa") 190;
  mkDeliveryRate (lit "Sarlahi") (lit "Putalichowk") 190;
  mkDeliveryRate (lit "Sindhuli") (lit "Bhiman") 240;
  mkDeliveryRate (lit "Sindhuli") (lit "Dudhauli") 215;
  mkDeliveryRate (lit "Sindhuli") (lit "Khurkot") 240;
  mkDeliveryRate (lit "Sindhuli") (lit "Sindhuli") 180;
  mkDeliveryRate (lit "Sindhupalchok") (lit "Bahrabise") 240;
  mkDeliveryRate (lit "Sindhupalchok") (lit "Chautara") 240;
  mkDeliveryRate (lit "Sindhupalchok") (lit "Melamchi") 240;
  mkDeliveryRate (lit "Siraha") (lit "Bhagwanpur") 200;
  mkDeliveryRate (lit "Siraha") (lit "Bishnupur") 190;
  mkDeliveryRate (lit "Siraha") (lit "Dhangadhimai") 190;
  mkDeliveryRate (lit "Siraha") (lit "Ganeshpur") 190;
  mkDeliveryRate (lit "Siraha") (lit "Kalyanpur") 200;
  mkDeliveryRate (lit "Siraha") (lit "Lahan") 180;
  mkDeliveryRate (lit "Siraha") (lit "Mirchaiya") 190;
  mkDeliveryRate (lit "Siraha") (lit "Siraha") 190;
  mkDeliveryRate (lit "Siraha") (lit "Sukhipur") 190;
  mkDeliveryRate (lit "Solukhumbu") (lit "Salleri") 290;
  mkDeliveryRate (lit "Solukhumbu") (lit "Tingla") 290;
  mkDeliveryRate (lit "Sunsari") (lit "Bhantabari") 240;
  mkDeliveryRate (lit "Sunsari") (lit "Bhedetar") 190;
  mkDeliveryRate (lit "Sunsari") (lit "Dharan") 170;
  mkDeliveryRate (lit "Sunsari") (lit "Duhabi") 175;
  mkDeliveryRate (lit "Sunsari") (lit "Inaruwa") 175;
  mkDeliveryRate (lit "Sunsari") (lit "Itahari") 140;
  mkDeliveryRate (lit "Sunsari") (lit "Jhumka") 175;
  mkDeliveryRate (lit "Sunsari") (lit "Kalabanjar") 190;
  mkDeliveryRate (lit "Sunsari") (lit "Laukahi") 195;
  mkDeliveryRate (lit "Sunsari") (lit "NetaChowk") 200;
  mkDeliveryRate (lit "Surkhet") (lit "Chinchu") 200;
  mkDeliveryRate (lit "Surkhet") (lit "Mehelkuna") 265;
  mkDeliveryRate (lit "Surkhet") (lit "Surkhet") 190;
  mkDeliveryRate (lit "Syangja") (lit "Galyang") 215;
  mkDeliveryRate (lit "Syangja") (lit "Putalibazar") 190;
  mkDeliveryRate (lit "Syangja") (lit "Syangja") 190;
  mkDeliveryRate (lit "Syangja") (lit "Bayarghari") 200;
  mkDeliveryRate (lit "Syangja") (lit "Chapakot") 190;
  mkDeliveryRate (lit "Syangja") (lit "Waling") 190;
  mkDeliveryRate (lit "Tanahu") (lit "Abukhaireni") 190;
  mkDeliveryRate (lit "Tanahu") (lit "Bandipur") 215;
  mkDeliveryRate (lit "Tanahu") (lit "Bhimad") 210;
  mkDeliveryRate (lit "Tanahu") (lit "Damauli") 180;
  mkDeliveryRate (lit "Tanahu") (lit "Duipiple") 290;
  mkDeliveryRate (lit "Tanahu") (lit "Dulegauda") 200;
  mkDeliveryRate (lit "Tanahu") (lit "Dumre") 180;
  mkDeliveryRate (lit "Tanahu") (lit "Mugling") 200;
  mkDeliveryRate (lit "Taplejung") (lit "Taplejung") 275;
  mkDeliveryRate (lit "Terhathum") (lit "Basantapur") 290;
  mkDeliveryRate (lit "Terhathum") (lit "Jirikhimti") 290;
  mkDeliveryRate (lit "Terhathum") (lit "Myanglung") 290;
  mkDeliveryRate (lit "Udayapur") (lit "Beltar") 240;
  mkDeliveryRate (lit "Udayapur") (lit "Gaighat") 190;
  mkDeliveryRate (lit "Udayapur") (lit "Golbazar") 190;
  mkDeliveryRate (lit "Udayapur") (lit "Katari") 200;
  mkDeliveryRate (lit "Udayapur") (lit "Rampur") 240
]%Z.

(** [[...new Set(NEPAL_DELIVERY_RATES.map(item => item.district))].sort()]:
    [sort] without a comparator orders strings by their code units. *)
Definition getNepalDistricts : list jstring :=
  let districts := JsSet.from (map district NEPAL_DELIVERY_RATES) in
  arraySort codeUnitCompare districts.

(** The locations of the district [d], as the objects [{location, rate}],
    here pairs. *)
Definition getLocationsForDistrict (d : jstring) : list (jstring * Z) :=
  map (fun item => (location item, rate item))
      (filter (fun item => district item = d) NEPAL_DELIVERY_RATES).

(** The charge for the selected location [loc].  [if (!location) return 0]:
    of the strings only the empty one is falsy. *)
Definition calculateShipping (loc : jstring) : Z :=
  if bool_decide (loc = []) then 0%Z
  else
    let rateEntry := find (fun item => eqb (location item) loc) NEPAL_DELIVERY_RATES in
    match rateEntry with
    | Some entry => rate entry
    | None => 150%Z
    end.

(** ** Patterns *)

(** The regular expressions that the program tests strings against, and
    [RegExp.prototype.test] for a pattern anchored at both ends, by
    derivatives. *)
Inductive Regex :=
  | Never
  | Eps
  | Chars (f : ascii -> bool)
  | Seq (r s : Regex)
  | Alt (r s : Regex)
  | Star (r : Regex).

(** [r+] *)
Definition Plus (r : Regex) : Regex := Seq r (Star r).

Fixpoint nullable (r : Regex) : bool :=
  match r with
  | Never => false
  | Eps => true
  | Chars _ => false
  | Seq r s => nullable r && nullable s
  | Alt r s => nullable r || nullable s
  | Star _ => true
  end.

Fixpoint deriv (c : ascii) (r : Regex) : Regex :=
  match r with
  | Never | Eps => Never
  | Chars f => if f c then Eps else Never
  | Seq r s =>
      if nullable r then Alt (Seq (deriv c r) s) (deriv c s) else Seq (deriv c r) s
  | Alt r s => Alt (deriv c r) (deriv c s)
  | Star r => Seq (deriv c r) (Star r)
  end.

Fixpoint regexTest (r : Regex) (s : jstring) : bool :=
  match s with
  | [] => nullable r
  | c :: s' => regexTest (deriv c r) s'
  end.

(** [[^\s@]]: on code units below 256, [\s] is the whitespace of [isSpace]. *)
Definition notSpaceOrAt (c : ascii) : bool :=
  negb (isSpace c) && negb (bool_decide (c = "@"%char)).

(** [/^[^\s@]+@[^\s@]+\.[^\s@]+$/] *)
Definition emailPattern : Regex :=
  Seq (Plus (Chars notSpaceOrAt))
      (Seq (Chars (fun c => bool_decide (c = "@"%char)))
           (Seq (Plus (Chars notSpaceOrAt))
                (Seq (Chars (fun c => bool_decide (c = "."%char)))
                     (Plus (Chars notSpaceOrAt))))).

Definition isValidEmail (email : jstring) : bool := regexTest emailPattern email.

(** The backslash, U+005C. *)
Definition backslash : ascii := ascii_of_nat 92.

(** [[.*+?^${}()|[\]\\]]: the characters with a meaning in a pattern. *)
Definition syntaxChar (c : ascii) : bool :=
  bool_decide (c ∈ lit ".*+?^${}()|[]" ++ [backslash]).

(** [str.replace(/[.*+?^${}()|[\]\\]/g, '\\$&')]: a backslash goes before
    each of these characters. *)
Definition escapeRegex (str : jstring) : jstring :=
  str ≫= fun c => if syntaxChar c then [backslash; c] else [c].

(** ** The cart *)

(** The fields of a product that the cart reads.  Prices and images are
    copied from the product into the cart item and never inspected: they
    are of any type.  An identifier is a number, or missing, as for the
    search engine. *)
Module Catalog.
Record CatalogProduct {Price Image : Type} := mkCatalogProduct {
  id : option Z;
  name : option jstring;
  price : Price;
  image : Image
}.
Global Arguments CatalogProduct : clear implicits.
Global Arguments mkCatalogProduct {Price Image}.
End Catalog.

Module Cart.
Section Model.
Context {Price Image : Type}.

(** [{id, name, price, image, quantity}] *)
Record CartItem := mkCartItem {
  id : option Z;
  name : option jstring;
  price : Price;
  image : Image;
  quantity : Z
}.

(** What the methods do besides changing the cart. *)
Inductive Effect :=
  | ShowNotification (message kind : jstring)
  | RenderApp
  | Navigate (route : jstring).

(** The application: its products, its cart, the entry [cart] of
    [localStorage] (the cart that [JSON.stringify] wrote there; absent until
    the first write), and the effects so far. *)
Record App := mkApp {
  products : list (Catalog.CatalogProduct Price Image);
  cart : list CartItem;
  storedCart : option (list CartItem);
  effects : list Effect
}.

(** The index of the element that [Array.prototype.find] returns: an object
    found this way is the element itself, an assignment to its field changes
    the array. *)
Fixpoint findIndex {A} (f : A -> bool) (l : list A) : option nat :=
  match l with
  | [] => None
  | x :: l' => if f x then Some 0 else S <$> findIndex f l'
  end.

Definition setQuantity (q : Z) (item : CartItem) : CartItem :=
  mkCartItem (id item) (name item) (price item) (image item) q.

Definition itemOf (product : Catalog.CatalogProduct Price Image) (q : Z) : CartItem :=
  mkCartItem (Catalog.id product) (Catalog.name product) (Catalog.price product)
             (Catalog.image product) q.

(** [localStorage.setItem('cart', JSON.stringify(this.cart))] *)
Definition saveCart (app : App) : App :=
  mkApp (products app) (cart app) (Some (cart app)) (effects app).

Definition setCart (c : list CartItem) (app : App) : App :=
  mkApp (products app) c (storedCart app) (effects app).

Definition perform (e : Effect) (app : App) : App :=
  mkApp (products app) (cart app) (storedCart app) (effects app ++ [e]).

(** The cart methods compare identifiers with [==] and [!=]: the argument is
    an identifier as the page wrote it into a handler or a data attribute, a
    number or a string that denotes one, which [==] compares as that number;
    [productId] is this number, or [None] for [undefined]. *)
Definition addToCart (productId : option Z) (app : App) : App :=
  match find (fun p => bool_decide (Catalog.id p = productId)) (products app) with
  | None => app
  | Some product =>
      let existingItem := findIndex (fun item => bool_decide (id item = productId)) (cart app) in
      let app :=
        match existingItem with
        | Some i => setCart (alter (fun item => setQuantity (quantity item + 1) item) i
                                   (cart app)) app
        | None => setCart (cart app ++ [itemOf product 1]) app
        end in
      let app := saveCart app in
      let app := perform (ShowNotification (lit "Product added to cart!") (lit "success")) app in
      perform RenderApp app
  end.

(** The class defines [buyNow] twice; the later definition is the method. *)
Definition buyNow (productId : option Z) (app : App) : App :=
  match find (fun p => bool_decide (Catalog.id p = productId)) (products app) with
  | None => app
  | Some product =>
      let app := setCart [itemOf product 1] app in
      let app := saveCart app in
      perform (Navigate (lit "/checkout")) app
  end.

Definition removeFromCart (productId : option Z) (app : App) : App :=
  let app := setCart (filter (fun item => id item <> productId) (cart app)) app in
  let app := saveCart app in
  let app := perform (ShowNotification (lit "Product removed from cart") (lit "info")) app in
  perform RenderApp app.

Definition updateCartQuantity (productId : option Z) (newQuantity : Z) (app : App) : App :=
  if (newQuantity <=? 0)%Z then removeFromCart productId app
  else
    match findIndex (fun item => bool_decide (id item = productId)) (cart app) with
    | Some i =>
        let app := setCart (alter (setQuantity newQuantity) i (cart app)) app in
        let app := saveCart app in
        perform RenderApp app
    | None => app
    end.

(** [this.cart.reduce((sum, item) => sum + item.quantity, 0)], the number on
    the cart badge. *)
Definition cartItemCount (app : App) : Z :=
  foldl (fun sum item => (sum + quantity item)%Z) 0%Z (cart app).

(** Spec side: the quantity that a cart holds of a product. *)
Definition quantityOf (productId : option Z) (c : list CartItem) : Z :=
  foldr (fun item sum => if decide (id item = productId) then (quantity item + sum)%Z else sum)
        0%Z c.

(** Spec side: a cart with one item for each product in it, each with a
    positive quantity. *)
Definition wellFormed (c : list CartItem) : Prop :=
  NoDup (id <$> c) /\ Forall (fun item => (0 < quantity item)%Z) c.

End Model.
End Cart.


(** * Specification-side definitions *)

(** ** Edit distance

    One edit is the insertion, the deletion or the substitution of a single
    character anywhere in the string; [edits n a b] is a sequence of [n]
    edits that turns [a] into [b]; the edit distance is the least such [n]. *)

Section EditDistance.
Context {A : Type}.

Inductive edit1 : list A -> list A -> Prop :=
  | edit_ins l c r : edit1 (l ++ r) (l ++ c :: r)
  | edit_del l c r : edit1 (l ++ c :: r) (l ++ r)
  | edit_sub l c d r : edit1 (l ++ c :: r) (l ++ d :: r).

Inductive edits : nat -> list A -> list A -> Prop :=
  | edits_O a : edits 0 a a
  | edits_S n a b c : edit1 a b -> edits n b c -> edits (S n) a c.

Definition isEditDistance (a b : list A) (d : nat) : Prop :=
  edits d a b /\ forall n, edits n a b -> d <= n.

(** An alignment of [a] with [b], read from the left, and its cost. *)
Inductive script : nat -> list A -> list A -> Prop :=
  | script_nil : script 0 [] []
  | script_keep n x a b : script n a b -> script n (x :: a) (x :: b)
  | script_sub n x y a b : script n a b -> script (S n) (x :: a) (y :: b)
  | script_del n x a b : script n a b -> script (S n) (x :: a) b
  | script_ins n y a b : script n a b -> script (S n) a (y :: b).

Context `{EqDecision A}.

(** The recurrence that the two rows of [levenshteinDistance] tabulate. *)
Fixpoint levR (a : list A) : list A -> nat :=
  match a with
  | [] => fun b => length b
  | x :: a' =>
      fix row (b : list A) : nat :=
        match b with
        | [] => length a
        | y :: b' =>
            if decide (x = y) then levR a' b'
            else 1 + Nat.min (Nat.min (levR a' b') (levR a' b)) (row b')
        end
  end.

End EditDistance.

(** The table of the dynamic program: entry [(i, j)] is for the first [i]
    characters of [a] and the first [j] characters of [b]; [isRow i row]
    says that the array [row] holds line [i] of it. *)
Definition levTable (a b : jstring) (i j : nat) : nat :=
  levR (reverse (take i a)) (reverse (take j b)).

Definition isRow (a b : jstring) (i : nat) (row : list nat) : Prop :=
  length row = length b + 1 /\
  forall j, j <= length b -> row !! j = Some (levTable a b i j).

(** ** Sequences of trie insertions *)

(** The trie after a sequence of [insert] calls on a new trie. *)
Definition insertAll (ops : list (jstring * Product)) : Trie.Trie :=
  foldl (fun t op => Trie.insert t op.1 op.2) Trie.newTrie ops.

(** ** Tokens

    [wordsOf s ts]: [ts] are the maximal runs of characters of [s] that are
    not whitespace, in order.  Each run is preceded by whitespace or the
    start of the string, and followed by whitespace or its end. *)

Inductive wordsOf : jstring -> list jstring -> Prop :=
  | words_end ws :
      Forall (fun c => isSpace c = true) ws -> wordsOf ws []
  | words_run ws t rest ts :
      Forall (fun c => isSpace c = true) ws ->
      t <> [] ->
      Forall (fun c => isSpace c = false) t ->
      match rest with [] => True | c :: _ => isSpace c = true end ->
      wordsOf rest ts ->
      wordsOf (ws ++ t ++ rest) (t :: ts).

(** The empty pieces that [split] adds at the two ends. *)
Definition leadPiece (s : jstring) : list jstring :=
  match s with
  | [] => [[]]
  | c :: _ => if isSpace c then [[]] else []
  end.

Definition trailPiece (s : jstring) : list jstring :=
  match last s with
  | Some c => if isSpace c then [[]] else []
  | None => []
  end.

(** In a run of whitespace: the empty piece that ends the result when the
    run reaches the end of the string. *)
Definition afterSpace (s : jstring) : list jstring :=
  match last s with
  | Some c => if isSpace c then [[]] else []
  | None => [[]]
  end.

(** The whitespace-tokens of a string, read from its end: a character that
    is not whitespace is a token of its own when whitespace or the end of the
    string follows it, and otherwise joins the token that starts after it. *)
Fixpoint tokensOf (s : jstring) : list jstring :=
  match s with
  | [] => []
  | c :: s' =>
      if isSpace c then tokensOf s'
      else
        let rest := tokensOf s' in
        match s' with
        | [] => [[c]]
        | c' :: _ =>
            if isSpace c' then [c] :: rest
            else match rest with
                 | t :: ts => (c :: t) :: ts
                 | [] => [[c]]
                 end
        end
  end.

(** The pieces of a string between its runs of whitespace: its tokens, and
    the empty pieces of the two ends. *)
Definition piecesOf (s : jstring) : list jstring :=
  leadPiece s ++ tokensOf s ++ trailPiece s.


(** ** Lower case

    The lower case of a string, character by character and by the codes:
    the capital letters A-Z (65-90) and U+00C0-U+00DE (192-222) other than
    the multiplication sign (215) lie 32 below their lower case; every other
    character is its own lower case. *)

Definition upperCase (c : ascii) : Prop :=
  65 <= code c <= 90 \/ (192 <= code c <= 222 /\ code c <> 215).

Definition lowerOf (c l : ascii) : Prop :=
  (upperCase c /\ code l = code c + 32) \/ (~ upperCase c /\ l = c).

Definition lowercased (s l : jstring) : Prop := Forall2 lowerOf s l.


(** ** The score as a sum *)

Fixpoint tails (s : jstring) : list jstring :=
  s :: match s with
       | [] => []
       | _ :: s' => tails s'
       end.

Definition substringOf (t s : jstring) : Prop :=
  Exists (fun u => t `prefix_of` u) (tails s).

Global Instance substringOf_dec t s : Decision (substringOf t s).
Proof. unfold substringOf. apply _. Defined.

Definition weight (w : Z) (P : Prop) `{Decision P} : Z :=
  if decide P then w else 0%Z.

Definition pairBonus (qWord nWord : jstring) : Z :=
  if decide (nWord = qWord) then 20%Z else weight 10 (qWord `prefix_of` nWord).

Definition fuzzyBonus (d : nat) : Z :=
  if decide (d <= 2) then ((3 - Z.of_nat d) * 5)%Z else 0%Z.

Definition sumZ (l : list Z) : Z := foldr Z.add 0%Z l.

Definition isMinimumOf (d : nat) (l : list nat) : Prop :=
  d ∈ l /\ forall x, x ∈ l -> d <= x.

(** The sum of the contributions, for a lowercased query [q], name [n] and
    category [c], the words [queryWords] and [nameWords] that the pairs are
    made of, and the fuzzy bonus [bonus]. *)
Definition scoreSum (q n c : jstring) (queryWords nameWords : list jstring)
    (bonus : Z) : Z :=
  (weight 100 (n = q)
   + weight 50 (q `prefix_of` n)
   + weight 30 (substringOf q n)
   + sumZ (qWord ← queryWords; nWord ← nameWords; [pairBonus qWord nWord])
   + weight 15 (substringOf q c)
   + bonus)%Z.

(** The score in the words of the specification: the words of the pairs are
    the whitespace-tokens of the lowercased query and name, and the distance
    of the fuzzy bonus is the least one to a whitespace-token of the
    lowercased name (no bonus when the name has no token). *)
Definition claimedScore (product : Product) (query : jstring) : Z :=
  let q := toLowerCase query in
  let n := toLowerCase (orEmpty (name product)) in
  let c := toLowerCase (orEmpty (category product)) in
  scoreSum q n c (tokensOf q) (tokensOf n)
           (match mathMin (levenshteinDistance q <$> tokensOf n) with
            | Some d => fuzzyBonus d
            | None => 0%Z
            end).


(** ** What [buildIndex] builds *)

Import SearchEngine.

Definition insertOp (t : Trie.Trie) (op : jstring * Product) : Trie.Trie :=
  Trie.insert t op.1 op.2.

(** A product with a name. *)
Definition named (p : Product) : Prop := is_Some (name p).

(** The insertions into the trie that [buildIndex] makes for one product. *)
Definition productOps (p : Product) : list (jstring * Product) :=
  match name p with
  | None => []
  | Some nm =>
      ((fun word => (word, p)) <$> splitWs (toLowerCase nm))
      ++ [(nm, p)]
      ++ match truthy (category p) with Some cat => [(cat, p)] | None => [] end
      ++ match truthy (sku p) with Some code => [(code, p)] | None => [] end
  end.

(** The products that [buildIndex] reaches: those before the first one
    without a name. *)
Fixpoint namedPrefix (ps : list Product) : list Product :=
  match ps with
  | [] => []
  | p :: ps' => if name p is Some _ then p :: namedPrefix ps' else []
  end.


(** ** The stages of [search] *)

(** Step 1: the products that the trie gives for the query, keyed by
    identifier. *)
Definition primaryCandidates (e : SearchEngine) (tq : jstring)
  : list (option Z * Product) :=
  foldl (fun results product => JsMap.set results (id product) product)
        [] (Trie.search (trie e) tq).

(** The test of the augmentation pass as [search] makes it (the loop over
    [nameWords] and the two [includes]): (a) a piece of the split of the
    lowercased name, the empty pieces included, is within the distance
    threshold of the lowercased query, or (b) the lowercased name or the
    lowercased category contains it. *)
Definition admissible (ql : jstring) (p : Product) : Prop :=
  match name p with
  | None => False
  | Some nm =>
      Exists (fun word => levenshteinDistance ql word <= Nat.max 1 (length ql / 3))
             (splitWs (toLowerCase nm))
      \/ substringOf ql (toLowerCase nm)
      \/ substringOf ql (toLowerCase (orEmpty (category p)))
  end.

Global Instance admissible_dec ql p : Decision (admissible ql p).
Proof. unfold admissible. destruct (name p); apply _. Defined.

(** The test in words, for the words [words] of a lowercased name: (a) one
    of the words of the name is within [max(1, floor(length / 3))] edits of
    the lowercased query [ql], or (b) the lowercased name or the lowercased
    category contains [ql]. *)
Definition admittedOver (words : jstring -> list jstring) (ql : jstring)
    (p : Product) : Prop :=
  match name p with
  | None => False
  | Some nm =>
      Exists (fun word => levenshteinDistance ql word <= Nat.max 1 (length ql / 3))
             (words (toLowerCase nm))
      \/ substringOf ql (toLowerCase nm)
      \/ substringOf ql (toLowerCase (orEmpty (category p)))
  end.

Global Instance admittedOver_dec words ql p : Decision (admittedOver words ql p).
Proof. unfold admittedOver. destruct (name p); apply _. Defined.

(** The test of the specification: the words are the whitespace-tokens. *)
Definition claimedAdmitted : jstring -> Product -> Prop := admittedOver tokensOf.

(** The test as amended: the words are the pieces between the runs of
    whitespace, the empty pieces of the two ends included. *)
Definition admitted : jstring -> Product -> Prop := admittedOver piecesOf.

(** A count is strictly below a limit, as numbers: nothing is below [NaN]
    or [-Infinity], everything is below [+Infinity]. *)
Definition belowLimit (count : nat) (limit : JsNumber) : Prop :=
  match limit with
  | Int z => (Z.of_nat count < z)%Z
  | PosInf => True
  | NegInf | NaN => False
  end.

(** The products of [l] whose identifier is not in [seen] and is not the
    identifier of an earlier product of [l]. *)
Fixpoint firstById (seen : list (option Z)) (l : list Product) : list Product :=
  match l with
  | [] => []
  | p :: l' =>
      if decide (id p ∈ seen) then firstById seen l'
      else p :: firstById (seen ++ [id p]) l'
  end.

(** Step 2: the candidates after the augmentation pass. *)
Definition augmented (e : SearchEngine) (tq : jstring) : list (option Z * Product) :=
  let primary := primaryCandidates e tq in
  primary ++ ((fun p => (id p, p)) <$>
              firstById primary.*1 (filter (admissible (toLowerCase tq)) (products e))).

Definition candidateMap (e : SearchEngine) (tq : jstring) (limit : JsNumber)
  : list (option Z * Product) :=
  if sizeBelow (length (primaryCandidates e tq)) limit
  then augmented e tq
  else primaryCandidates e tq.

(** Step 3: the score of a candidate that has a name. *)
Definition scoreOf (p : Product) (q : jstring) : Z :=
  match calculateScore p q with
  | Ok z => z
  | Throw _ => 0%Z
  end.

Definition scored (tq : jstring) (ps : list Product) : list ScoredResult :=
  (fun p => mkScoredResult p (scoreOf p tq)) <$> ps.

(** Step 4: all candidates, ranked. *)
Definition ranking (localeCompare : jstring -> jstring -> Z)
    (e : SearchEngine) (tq : jstring) (limit : JsNumber) : list ScoredResult :=
  arraySort (compareResults localeCompare) (scored tq (candidateMap e tq limit).*2).

(** An engine in which every product of the trie has a name. *)
Definition trieNamed (e : SearchEngine) : Prop :=
  forall prefix q, q ∈ Trie.search (trie e) prefix -> named q.


(** ** The order of the results *)

(** What [sort] needs of the host's [localeCompare]: exchanging the
    arguments exchanges the sign, and "not after" is transitive. *)
Definition consistentComparator (lc : jstring -> jstring -> Z) : Prop :=
  (forall a b, (lc a b < 0 <-> 0 < lc b a)%Z)
  /\ (forall a b c, (lc a b <= 0 -> lc b c <= 0 -> lc a c <= 0)%Z).

(** [a] is ranked no later than [b]: a higher score, or the same score and a
    name that the host does not sort after the name of [b]. *)
Definition ranksBefore (lc : jstring -> jstring -> Z) (a b : ScoredResult) : Prop :=
  (searchScore b < searchScore a)%Z
  \/ (searchScore a = searchScore b
      /\ (lc (orEmpty (name (product a))) (orEmpty (name (product b))) <= 0)%Z).

(** The engine built from a catalog. *)
Definition indexed (ps : list Product) (e0 : SearchEngine) : SearchEngine :=
  (buildIndex ps e0).1.


(** ** Example catalogs *)

Definition headphones : Product :=
  mkProduct (Some 1%Z) (Some (lit "Wireless Headphones Pro"))
            (Some (lit "Electronics")) None.

Definition smartWatch : Product :=
  mkProduct (Some 1%Z) (Some (lit "Smart Watch")) None None.

Definition smartPhone : Product :=
  mkProduct (Some 2%Z) (Some (lit "Smart Phone")) None None.

Definition upperA : Product := mkProduct (Some 1%Z) (Some (lit "A")) None None.

Definition lowerA : Product := mkProduct (Some 2%Z) (Some (lit "a")) None None.

(** A product named by one letter, in the category "x". *)
Definition letterProduct (i : Z) (letter : string) : Product :=
  mkProduct (Some i) (Some (lit letter)) (Some (lit "x")) None.

Definition nameless : Product :=
  mkProduct (Some 1%Z) None (Some (lit "Electronics")) None.

(** A name that ends with a space, and a name of two words. *)
Definition phoneSpace : Product := mkProduct (Some 1%Z) (Some (lit "Phone ")) None None.

Definition twoWords : Product := mkProduct (Some 1%Z) (Some (lit "ab cd")) None None.

(** A product that a query "ab" finds by its code only, and one that holds
    "ab" inside its name. *)
Definition byCode : Product :=
  mkProduct (Some 1%Z) (Some (lit "Zed")) None (Some (lit "abX")).

Definition byContent : Product := mkProduct (Some 2%Z) (Some (lit "xab")) None None.

Definition coffeeMaker : Product :=
  mkProduct (Some 1%Z) (Some (lit "Coffee Maker Deluxe")) None None.

(** The order that the specification words give for ties: the lowercased
    names compared code unit by code unit. *)
Definition caseInsensitiveCompare : jstring -> jstring -> Z :=
  compareBy (fun s => code <$> toLowerCase s).


(** ** Strings and queries *)

(** A string that does not start with whitespace. *)
Definition headNotSpace (s : jstring) : Prop :=
  match s with
  | [] => True
  | c :: _ => isSpace c = false
  end.

(** ** More on the trie and on the candidates of [search] *)

(** [covered w i node]: the walk along [w] from [node] finds every node, each
    with a product of identifier [i], and ends at the end of a word. *)
Fixpoint covered (w : jstring) (i : option Z) (node : Trie.TrieNode) : Prop :=
  match w with
  | [] => Trie.isEndOfWord node = true
  | c :: rest =>
      exists child,
        Trie.children node !! c = Some child
        /\ i ∈ id <$> Trie.products child
        /\ covered rest i child
  end.

(** The query is a prefix of one of the strings under which [buildIndex]
    inserts the product: a token of the name, the name, the category or the
    stock-keeping code. *)
Definition prefixMatch (tq : jstring) (p : Product) : Prop :=
  Exists (fun op => toLowerCase tq `prefix_of` toLowerCase op.1) (productOps p).

Global Instance prefixMatch_dec tq p : Decision (prefixMatch tq p).
Proof. unfold prefixMatch. apply _. Defined.

(** A product under its identifier, as an entry of the map of candidates. *)
Definition keyed (p : Product) : option Z * Product := (id p, p).

(** The candidates of [search] on an indexed catalog: the products that
    match the query by prefix, the first for each identifier. *)
Definition prefixCandidates (tq : jstring) (ps : list Product) : list Product :=
  firstById [] (filter (prefixMatch tq) ps).

(** The products that the augmentation pass adds to them. *)
Definition fuzzyCandidates (tq : jstring) (ps : list Product) : list Product :=
  firstById (id <$> prefixCandidates tq ps) (filter (admissible (toLowerCase tq)) ps).

(** ** The inverted index *)

(** The terms under which [indexProduct] files a product in the inverted
    index: the tokens of its lowercased name and its lowercased category. *)
Definition indexTerms (p : Product) : list jstring :=
  match name p with
  | Some nm =>
      splitWs (toLowerCase nm)
      ++ match truthy (category p) with
         | Some cat => [toLowerCase cat]
         | None => []
         end
  | None => []
  end.

(** The index after [addToIndex] of a term for the identifier [i]. *)
Definition addTerm (i : option Z) (index : gmap jstring (gset (option Z)))
    (term : jstring) : gmap jstring (gset (option Z)) :=
  <[ term := default ∅ (index !! term) ∪ {[ i ]} ]> index.

(** ** Delivery rates, patterns and carts *)

(** The locations whose name is listed under an earlier district too, at
    another rate. *)
Definition shadowedLocations : list (jstring * jstring) :=
  [ (lit "Kapilvastu", lit "Jeetpur");
    (lit "Kanchanpur", lit "Gulariya");
    (lit "Kathmandu", lit "Godawari");
    (lit "Udayapur", lit "Rampur") ].

(** Spec side: the strings that a regular expression denotes. *)
Inductive matches : Regex -> jstring -> Prop :=
  | matches_eps : matches Eps []
  | matches_chars f c : f c = true -> matches (Chars f) [c]
  | matches_seq r s u v : matches r u -> matches s v -> matches (Seq r s) (u ++ v)
  | matches_alt_l r s u : matches r u -> matches (Alt r s) u
  | matches_alt_r r s u : matches s u -> matches (Alt r s) u
  | matches_star_nil r : matches (Star r) []
  | matches_star_app r u v :
      matches r u -> matches (Star r) v -> matches (Star r) (u ++ v).

(** A character that an address may hold apart from its one at sign. *)
Definition addressChar (c : ascii) : Prop := isSpace c = false /\ c <> "@"%char.

(** Spec side: the string that a pattern made of literal characters spells,
    a literal being a character without a meaning of its own or a backslash
    and a character that has one; other patterns spell none. *)
Fixpoint literalOf (pattern : jstring) : option jstring :=
  match pattern with
  | [] => Some []
  | c :: rest =>
      if bool_decide (c = backslash) then
        match rest with
        | d :: rest' => if syntaxChar d then cons d <$> literalOf rest' else None
        | [] => None
        end
      else if syntaxChar c then None
      else cons c <$> literalOf rest
  end.

(** A shop with one product, and a cart that holds two of it. *)
Definition mouse : Catalog.CatalogProduct Z jstring :=
  Catalog.mkCatalogProduct (Some 7%Z) (Some (lit "Mouse")) 500%Z (lit "mouse.png").

Definition shop : @Cart.App Z jstring :=
  Cart.mkApp [mouse] [Cart.itemOf mouse 2] None [].


(** * Proofs *)

(** ** The Levenshtein distance of the engine is the edit distance *)

Section EditDistanceFacts.
Context {A : Type} `{EqDecision A}.
Implicit Types a b c l : list A.

Lemma levR_nil_r a : levR a [] = length a.
Proof. by destruct a. Qed.

Lemma levR_cons x y a b :
  levR (x :: a) (y :: b) =
    if decide (x = y) then levR a b
    else 1 + Nat.min (Nat.min (levR a b) (levR a (y :: b))) (levR (x :: a) b).
Proof. reflexivity. Qed.

Lemma script_refl a : script 0 a a.
Proof. induction a; by constructor. Qed.

Lemma script_levR a b : script (levR a b) a b.
Proof.
  revert b. induction a as [|x a IHa]; intros b.
  - simpl. induction b; simpl; by constructor.
  - induction b as [|y b IHb].
    + rewrite levR_nil_r. clear IHa. generalize (x :: a). intros l.
      induction l; simpl; by constructor.
    + rewrite levR_cons. case_decide as Hxy.
      * subst. by constructor.
      * destruct (Nat.min_spec (Nat.min (levR a b) (levR a (y :: b))) (levR (x :: a) b))
          as [[_ ->]|[_ ->]].
        -- destruct (Nat.min_spec (levR a b) (levR a (y :: b))) as [[_ ->]|[_ ->]];
             by constructor.
        -- by constructor.
Qed.

Lemma script_drop_r n a y b :
  script n a (y :: b) -> exists m, m <= S n /\ script m a b.
Proof.
  remember (y :: b) as yb eqn:E. intros H. revert y b E.
  induction H as [|n x a b' H IH|n x z a b' H IH|n x a b' H IH|n z a b' H IH];
    intros y b E; simplify_eq.
  - exists (S n). split; [lia|]. by constructor.
  - exists (S n). split; [lia|]. by constructor.
  - destruct (IH _ _ eq_refl) as (m & Hm & Hs).
    exists (S m). split; [lia|]. by constructor.
  - exists n. split; [lia|]. done.
Qed.

Lemma script_drop_l n x a b :
  script n (x :: a) b -> exists m, m <= S n /\ script m a b.
Proof.
  remember (x :: a) as xa eqn:E. intros H. revert x a E.
  induction H as [|n x' a' b H IH|n x' z a' b H IH|n x' a' b H IH|n z a' b H IH];
    intros x a E; simplify_eq.
  - exists (S n). split; [lia|]. by constructor.
  - exists (S n). split; [lia|]. by constructor.
  - exists n. split; [lia|]. done.
  - destruct (IH _ _ eq_refl) as (m & Hm & Hs).
    exists (S m). split; [lia|]. by constructor.
Qed.

Lemma levR_le_script n a b : script n a b -> levR a b <= n.
Proof.
  revert n b. induction a as [|x a IHa]; intros n b.
  - simpl. revert n. induction b as [|y b IHb]; intros n H; simpl; [lia|].
    inversion H as [| | | |n' z a' b' H']; simplify_eq.
    specialize (IHb _ H'). lia.
  - revert n. induction b as [|y b IHb]; intros n H.
    + rewrite levR_nil_r.
      inversion H as [| | |n' z a' b' H'|]; simplify_eq.
      specialize (IHa _ _ H'). rewrite levR_nil_r in IHa. simpl. lia.
    + rewrite levR_cons.
      inversion H as [|n' z a' b' H'|n' z w a' b' H'|n' z a' b' H'|n' z a' b' H'];
        simplify_eq.
      * rewrite decide_True by done. by apply IHa.
      * specialize (IHa _ _ H'). case_decide; lia.
      * pose proof (IHa _ _ H') as Hd. case_decide; [|lia].
        subst. destruct (script_drop_r _ _ _ _ H') as (m & Hm & Hs).
        specialize (IHa _ _ Hs). lia.
      * pose proof (IHb _ H') as Hd. case_decide; [|lia].
        subst. destruct (script_drop_l _ _ _ _ H') as (m & Hm & Hs).
        specialize (IHa _ _ Hs). lia.
Qed.

(** Scripts compose. *)
Lemma script_trans n a b :
  script n a b -> forall m c, script m b c -> exists k, k <= n + m /\ script k a c.
Proof.
  induction 1 as [|n x a b H IH|n x y a b H IH|n x a b H IH|n y a b H IH];
    intros m c H2.
  - exists m. split; [lia|done].
  - remember (x :: b) as xb eqn:E. revert E.
    induction H2 as [|m z b1 c H2 IH2|m z w b1 c H2 IH2|m z b1 c H2 IH2|m w b1 c H2 IH2];
      intros E; simplify_eq.
    + destruct (IH _ _ H2) as (k & Hk & Hs). exists k. split; [lia|by constructor].
    + destruct (IH _ _ H2) as (k & Hk & Hs). exists (S k). split; [lia|by constructor].
    + destruct (IH _ _ H2) as (k & Hk & Hs). exists (S k). split; [lia|by constructor].
    + destruct (IH2 eq_refl) as (k & Hk & Hs). exists (S k). split; [lia|by constructor].
  - remember (y :: b) as yb eqn:E. revert E.
    induction H2 as [|m z b1 c H2 IH2|m z w b1 c H2 IH2|m z b1 c H2 IH2|m w b1 c H2 IH2];
      intros E; simplify_eq.
    + destruct (IH _ _ H2) as (k & Hk & Hs). exists (S k). split; [lia|by constructor].
    + destruct (IH _ _ H2) as (k & Hk & Hs). exists (S k). split; [lia|by constructor].
    + destruct (IH _ _ H2) as (k & Hk & Hs). exists (S k). split; [lia|by constructor].
    + destruct (IH2 eq_refl) as (k & Hk & Hs). exists (S k). split; [lia|by constructor].
  - destruct (IH _ _ H2) as (k & Hk & Hs). exists (S k). split; [lia|by constructor].
  - remember (y :: b) as yb eqn:E. revert E.
    induction H2 as [|m z b1 c H2 IH2|m z w b1 c H2 IH2|m z b1 c H2 IH2|m w b1 c H2 IH2];
      intros E; simplify_eq.
    + destruct (IH _ _ H2) as (k & Hk & Hs). exists (S k). split; [lia|by constructor].
    + destruct (IH _ _ H2) as (k & Hk & Hs). exists (S k). split; [lia|by constructor].
    + destruct (IH _ _ H2) as (k & Hk & Hs). exists k. split; [lia|done].
    + destruct (IH2 eq_refl) as (k & Hk & Hs). exists (S k). split; [lia|by constructor].
Qed.

Lemma script_app_l l n a b : script n a b -> script n (l ++ a) (l ++ b).
Proof. intros H. induction l; simpl; [done|by constructor]. Qed.

Lemma edit1_script a b : edit1 a b -> script 1 a b.
Proof.
  destruct 1; apply script_app_l; constructor; apply script_refl.
Qed.

Lemma edits_script n a b : edits n a b -> exists k, k <= n /\ script k a b.
Proof.
  induction 1 as [a|n a b c H1 H IH].
  - exists 0. split; [lia|apply script_refl].
  - destruct IH as (k & Hk & Hs).
    destruct (script_trans _ _ _ (edit1_script _ _ H1) _ _ Hs) as (k' & Hk' & Hs').
    exists k'. split; [lia|done].
Qed.

Lemma edit1_cons x a b : edit1 a b -> edit1 (x :: a) (x :: b).
Proof.
  destruct 1 as [l c r|l c r|l c d r].
  - apply (edit_ins (x :: l)).
  - apply (edit_del (x :: l)).
  - apply (edit_sub (x :: l)).
Qed.

Lemma edits_cons x n a b : edits n a b -> edits n (x :: a) (x :: b).
Proof.
  induction 1; [constructor|]. econstructor; [by apply edit1_cons|done].
Qed.

Lemma script_edits n a b : script n a b -> edits n a b.
Proof.
  induction 1 as [|n x a b H IH|n x y a b H IH|n x a b H IH|n y a b H IH].
  - constructor.
  - by apply edits_cons.
  - apply edits_S with (y :: a); [apply (edit_sub [])|by apply edits_cons].
  - apply edits_S with a; [apply (edit_del [])|done].
  - apply edits_S with (y :: a); [apply (edit_ins [])|by apply edits_cons].
Qed.

Lemma edit1_reverse a b : edit1 a b -> edit1 (reverse a) (reverse b).
Proof.
  destruct 1 as [l c r|l c r|l c d r];
    rewrite ?reverse_app, ?reverse_cons, <-?(assoc_L (++)); simpl; constructor.
Qed.

Lemma edits_reverse n a b : edits n a b -> edits n (reverse a) (reverse b).
Proof.
  induction 1; [constructor|]. econstructor; [by apply edit1_reverse|done].
Qed.

(** The recurrence on reversed strings computes the edit distance. *)
Lemma levR_reverse_distance a b : isEditDistance a b (levR (reverse a) (reverse b)).
Proof.
  split.
  - rewrite <-(reverse_involutive a), <-(reverse_involutive b) at 2.
    apply edits_reverse, script_edits, script_levR.
  - intros n H. apply edits_reverse, edits_script in H as (k & Hk & Hs).
    apply levR_le_script in Hs. lia.
Qed.

End EditDistanceFacts.

Section Rows.
Variables a b : jstring.

Local Abbreviation T := (levTable a b).
Local Abbreviation isRow := (isRow a b).

Lemma T_0_l j : j <= length b -> T 0 j = j.
Proof.
  intros Hj. unfold levTable. rewrite take_0. simpl.
  rewrite length_reverse, length_take. lia.
Qed.

Lemma T_0_r i : i <= length a -> T i 0 = i.
Proof.
  intros Hi. unfold levTable. rewrite (take_0 b), reverse_nil, levR_nil_r.
  rewrite length_reverse, length_take. lia.
Qed.

Lemma T_S_S i j :
  i < length a -> j < length b ->
  T (S i) (S j) =
    if bool_decide (a !! i = b !! j) then T i j
    else 1 + Nat.min (Nat.min (T i j) (T i (S j))) (T (S i) j).
Proof.
  intros Hi Hj.
  destruct (lookup_lt_is_Some_2 a i Hi) as [x Hx].
  destruct (lookup_lt_is_Some_2 b j Hj) as [y Hy].
  unfold levTable. rewrite (take_S_r a i x Hx), (take_S_r b j y Hy), !reverse_snoc, levR_cons.
  rewrite Hx, Hy. case_decide as Hxy; case_bool_decide as Hb; simplify_eq; done.
Qed.

Lemma levCell_S i prev curr k :
  levCell a b (S i) prev curr (S k) =
    if bool_decide (a !! i = b !! k) then <[ S k := prev !!! k ]> curr
    else <[ S k := 1 + Nat.min (Nat.min (prev !!! k) (prev !!! S k)) (curr !!! k) ]> curr.
Proof. unfold levCell. simpl. by rewrite !Nat.sub_0_r. Qed.

Lemma levCells_row i prev curr k :
  i < length a -> k <= length b ->
  isRow i prev ->
  length curr = length b + 1 -> curr !! 0 = Some (S i) ->
  let c := foldl (levCell a b (S i) prev) curr (seq 1 k) in
  length c = length b + 1 /\ forall j, j <= k -> c !! j = Some (T (S i) j).
Proof.
  intros Hi Hk [Hplen Hprev] Hlen H0. induction k as [|k IH]; cbv zeta.
  - simpl. split; [done|]. intros j Hj. replace j with 0 by lia.
    rewrite T_0_r by lia. done.
  - destruct IH as [IHlen IHc]; [lia|].
    rewrite seq_S, foldl_snoc. change (1 + k) with (S k). simpl in IHlen, IHc.
    rewrite levCell_S.
    set (c := foldl (levCell a b (S i) prev) curr (seq 1 k)) in *.
    assert (prev !!! k = T i k) as Ek
      by (apply list_lookup_total_correct, Hprev; lia).
    assert (prev !!! S k = T i (S k)) as ESk
      by (apply list_lookup_total_correct, Hprev; lia).
    assert (c !!! k = T (S i) k) as Eck
      by (apply list_lookup_total_correct, IHc; lia).
    rewrite Ek, ESk, Eck.
    split.
    + case_bool_decide; by rewrite length_insert.
    + intros j Hj. destruct (decide (j = S k)) as [->|Hne].
      * rewrite T_S_S by lia.
        case_bool_decide; rewrite list_lookup_insert_eq by lia; done.
      * case_bool_decide; rewrite list_lookup_insert_ne by lia; apply IHc; lia.
Qed.

Lemma levRows_row i :
  i <= length a ->
  let rows := foldl (levRow a b (length b))
                    (seq 0 (length b + 1), replicate (length b + 1) 0) (seq 1 i) in
  isRow i rows.1 /\ length rows.2 = length b + 1.
Proof.
  induction i as [|i IH]; intros Hi; cbv zeta.
  - simpl. split; [split|].
    + by rewrite length_seq.
    + intros j Hj. rewrite T_0_l by done. apply lookup_seq. lia.
    + by rewrite length_replicate.
  - destruct IH as [IHrow IHlen]; [lia|].
    rewrite seq_S, foldl_snoc. change (1 + i) with (S i).
    destruct (foldl (levRow a b (length b)) _ (seq 1 i)) as [prev curr]; simpl in *.
    destruct (levCells_row i prev (<[0:=S i]> curr) (length b)) as [Hl Hc];
      [lia|lia|done|by rewrite length_insert|apply list_lookup_insert_eq; lia|].
    split; [split|]; [done|done|apply IHrow].
Qed.

Lemma levenshteinDistance_levR :
  levenshteinDistance a b = levR (reverse a) (reverse b).
Proof.
  unfold levenshteinDistance.
  pose proof (levRows_row (length a) (le_n _)) as [[_ Hrow] _]. simpl in Hrow.
  destruct (foldl _ _ _) as [prev curr]; simpl in *.
  rewrite (list_lookup_total_correct _ _ _ (Hrow _ (le_n _))).
  unfold levTable. by rewrite !firstn_all.
Qed.

End Rows.

Lemma levenshteinDistance_correct (a b : jstring) :
  isEditDistance a b (levenshteinDistance a b).
Proof. rewrite levenshteinDistance_levR. apply levR_reverse_distance. Qed.

(** ** The trie *)

Module TrieFacts.
Import Trie.

Lemma searchFrom_newTrieNode path : searchFrom path newTrieNode = [].
Proof. by destruct path. Qed.

Lemma searchFrom_cons c path node :
  searchFrom (c :: path) node =
    searchFrom path (default newTrieNode (children node !! c)).
Proof.
  simpl. destruct (children node !! c); simpl; [done|].
  by rewrite searchFrom_newTrieNode.
Qed.

(** What [insert] changes: the product lists of the nodes on the path of
    the word, and nothing else. *)
Lemma searchFrom_insertFrom w product : forall path node,
  searchFrom path (insertFrom w product node) =
    if bool_decide (path <> [] /\ path `prefix_of` w)
    then pushProduct product (searchFrom path node)
    else searchFrom path node.
Proof.
  induction w as [|c rest IH]; intros path node.
  - rewrite bool_decide_eq_false_2.
    + by destruct path.
    + intros [Hne Hp]. by apply prefix_nil_inv in Hp.
  - destruct path as [|d path].
    { rewrite bool_decide_eq_false_2 by (by intros [? _]). done. }
    rewrite (searchFrom_cons d path node).
    cbn [insertFrom searchFrom children].
    destruct (decide (c = d)) as [->|Hcd].
    + rewrite lookup_insert_eq, IH.
      set (child := default newTrieNode (children node !! d)).
      destruct path as [|e path].
      * rewrite bool_decide_eq_false_2 by (by intros [? _]).
        rewrite bool_decide_eq_true_2; [done|].
        split; [done|]. apply prefix_cons, prefix_nil.
      * assert (forall x, searchFrom (e :: path)
                  (mkTrieNode (children child) (isEndOfWord child) x)
                = searchFrom (e :: path) child) as -> by done.
        apply (f_equal (fun (b : bool) => if b then _ else _)).
        apply bool_decide_ext. split; intros [_ Hp]; (split; [done|]).
        -- by apply prefix_cons.
        -- by apply prefix_cons_inv_2 in Hp.
    + rewrite lookup_insert_ne by done.
      rewrite bool_decide_eq_false_2.
      * destruct (children node !! d); simpl; [done|].
        by rewrite searchFrom_newTrieNode.
      * intros [_ Hp]. by apply prefix_cons_inv_1 in Hp.
Qed.

Lemma pushProduct_incl product l q : q ∈ l -> q ∈ pushProduct product l.
Proof.
  unfold pushProduct. destruct (find _ l); [done|]. intros. apply elem_of_app. by left.
Qed.

Lemma pushProduct_inv product l q :
  q ∈ pushProduct product l -> q ∈ l \/ q = product.
Proof.
  unfold pushProduct. destruct (find _ l); [by left|].
  intros [H|H%list_elem_of_singleton]%elem_of_app; [by left|by right].
Qed.

Lemma pushProduct_has_id product l :
  exists q, q ∈ pushProduct product l /\ id q = id product.
Proof.
  unfold pushProduct. destruct (find _ l) as [q|] eqn:E.
  - apply find_some in E as [Hin Hid%bool_decide_eq_true].
    exists q. by rewrite list_elem_of_In.
  - exists product. split; [|done]. apply elem_of_app. right. by left.
Qed.

Lemma pushProduct_has product l :
  (forall q, q ∈ l -> id q = id product -> q = product) ->
  product ∈ pushProduct product l.
Proof.
  intros Huniq. destruct (pushProduct_has_id product l) as (q & Hq & Hid).
  destruct (pushProduct_inv _ _ _ Hq) as [Hl| ->]; [|done].
  by rewrite (Huniq q Hl Hid) in Hq.
Qed.

Lemma pushProduct_NoDup product l :
  NoDup (id <$> l) -> NoDup (id <$> pushProduct product l).
Proof.
  unfold pushProduct. destruct (find _ l) eqn:E; [done|]. intros Hnd.
  rewrite fmap_app. simpl. apply NoDup_app. split; [done|]. split.
  - intros i (q & -> & Hq)%list_elem_of_fmap [Hid|[]%elem_of_nil]%elem_of_cons.
    apply list_elem_of_In in Hq.
    apply (find_none _ _ E) in Hq. by apply bool_decide_eq_false in Hq.
  - apply NoDup_singleton.
Qed.

Lemma search_insert t w product p :
  search (insert t w product) p =
    if bool_decide (toLowerCase p <> [] /\ toLowerCase p `prefix_of` toLowerCase w)
    then pushProduct product (search t p)
    else search t p.
Proof. unfold search, insert. simpl. apply searchFrom_insertFrom. Qed.

Lemma search_insert_incl t w product p q :
  q ∈ search t p -> q ∈ search (insert t w product) p.
Proof.
  rewrite search_insert. case_bool_decide; [apply pushProduct_incl|done].
Qed.

Lemma search_insert_inv t w product p q :
  q ∈ search (insert t w product) p -> q ∈ search t p \/ q = product.
Proof.
  rewrite search_insert. case_bool_decide; [apply pushProduct_inv|by left].
Qed.

Lemma search_insertAll_inv ops p q :
  q ∈ search (insertAll ops) p -> exists w, (w, q) ∈ ops.
Proof.
  unfold insertAll. induction ops as [|[w product] ops IH] using rev_ind.
  - unfold search. simpl. rewrite searchFrom_newTrieNode. by intros ?%elem_of_nil.
  - rewrite foldl_snoc. simpl. intros [H| ->]%search_insert_inv.
    + destruct (IH H) as [w' Hw']. exists w'. apply elem_of_app. by left.
    + exists w. apply elem_of_app. right. by left.
Qed.

Lemma search_insertAll_NoDup ops p : NoDup (id <$> search (insertAll ops) p).
Proof.
  unfold insertAll. induction ops as [|[w product] ops IH] using rev_ind.
  - unfold search. simpl. rewrite searchFrom_newTrieNode. constructor.
  - rewrite foldl_snoc. simpl. rewrite search_insert.
    case_bool_decide; [by apply pushProduct_NoDup|done].
Qed.

Lemma toLowerCase_nil p : toLowerCase p = [] <-> p = [].
Proof. by destruct p. Qed.

End TrieFacts.

(** ** Tokens *)

Section Tokens.

Lemma wordsOf_space c s ts : isSpace c = true -> wordsOf s ts -> wordsOf (c :: s) ts.
Proof.
  intros Hc [ws Hws|ws t rest ts' Hws Ht Hns Hrest Hts].
  - constructor. by constructor.
  - apply (words_run (c :: ws)); try done. by constructor.
Qed.

Lemma trailPiece_app_cons l c s : trailPiece (l ++ c :: s) = trailPiece (c :: s).
Proof. unfold trailPiece. by rewrite last_app_cons. Qed.

Lemma trailPiece_space c s : isSpace c = true -> trailPiece (c :: s) = afterSpace s.
Proof.
  intros Hc. unfold trailPiece, afterSpace. rewrite last_cons.
  destruct (last s); [done|]. by rewrite Hc.
Qed.

Lemma afterSpace_cons c s : afterSpace (c :: s) = trailPiece (c :: s).
Proof.
  unfold trailPiece, afterSpace. rewrite last_cons. by destruct (last s).
Qed.

Lemma trailPiece_word t :
  Forall (fun c => isSpace c = false) t -> trailPiece t = [].
Proof.
  intros Ht. unfold trailPiece. destruct (last t) as [c|] eqn:E; [|done].
  apply last_Some_elem_of in E. rewrite Forall_forall in Ht.
  by rewrite (Ht c E).
Qed.

Lemma splitGo_pieces s :
  (exists ts, wordsOf s ts /\ splitGo true [] s = ts ++ afterSpace s)
  /\ (forall cur, cur <> [] -> Forall (fun c => isSpace c = false) cur ->
      exists ts, wordsOf (reverse cur ++ s) ts
                 /\ splitGo false cur s = ts ++ trailPiece (reverse cur ++ s)).
Proof.
  induction s as [|c s [IH1 IH2]].
  - split.
    + exists []. split; [by constructor|done].
    + intros cur Hne Hcur. exists [reverse cur]. rewrite app_nil_r.
      apply Forall_reverse in Hcur. split.
      * rewrite <-(app_nil_r (reverse cur)) at 1.
        apply (words_run [] (reverse cur) [] []); try done.
        -- intros Hr. apply Hne. by rewrite <-(reverse_involutive cur), Hr.
        -- by constructor.
      * by rewrite trailPiece_word.
  - split.
    + simpl. destruct (isSpace c) eqn:Hc.
      * destruct IH1 as (ts & Hts & ->). exists ts. split.
        -- by apply wordsOf_space.
        -- by rewrite afterSpace_cons, trailPiece_space.
      * destruct (IH2 [c]) as (ts & Hts & ->); [done|by repeat constructor|].
        exists ts. split; [done|]. by rewrite afterSpace_cons.
    + intros cur Hne Hcur. simpl. destruct (isSpace c) eqn:Hc.
      * destruct IH1 as (ts & Hts & ->). exists (reverse cur :: ts). split.
        -- apply (words_run [] (reverse cur) (c :: s) ts); try done.
           ++ intros Hr. apply Hne. by rewrite <-(reverse_involutive cur), Hr.
           ++ by apply Forall_reverse.
           ++ by apply wordsOf_space.
        -- by rewrite trailPiece_app_cons, trailPiece_space.
      * destruct (IH2 (c :: cur)) as (ts & Hts & E); [done|by constructor|].
        rewrite reverse_cons, <-(assoc_L (++)) in Hts, E. by exists ts.
Qed.

(** A string has one sequence of maximal runs. *)
Lemma spaces_word_inj (ws ws' t t' r r' : jstring) :
  Forall (fun c => isSpace c = true) ws -> Forall (fun c => isSpace c = true) ws' ->
  t <> [] -> t' <> [] ->
  Forall (fun c => isSpace c = false) t -> Forall (fun c => isSpace c = false) t' ->
  match r with [] => True | c :: _ => isSpace c = true end ->
  match r' with [] => True | c :: _ => isSpace c = true end ->
  ws ++ t ++ r = ws' ++ t' ++ r' ->
  t = t' /\ r = r'.
Proof.
  intros Hws Hws' Ht Ht' Hn Hn' Hr Hr'. revert ws' Hws'.
  induction Hws as [|c ws Hc Hws IH]; intros ws' Hws' E.
  - destruct Hws' as [|c' ws' Hc' Hws']; simpl in E.
    + clear Ht Ht'. revert t' Hn' E.
      induction Hn as [|c t Hc Hn IH]; intros t' Hn' E.
      * destruct Hn' as [|c' t' Hc' Hn']; [done|].
        simpl in E. destruct r; simplify_eq. congruence.
      * destruct Hn' as [|c' t' Hc' Hn'].
        -- simpl in E. destruct r'; simplify_eq. congruence.
        -- simpl in E. injection E as -> E. destruct (IH _ Hn' E) as [-> ->]. done.
    + destruct Hn; [done|]. simpl in E. simplify_eq. congruence.
  - destruct Hws' as [|c' ws' Hc' Hws']; simpl in E.
    + destruct Hn'; [done|]. simpl in E. simplify_eq. congruence.
    + simplify_eq. by apply (IH ws').
Qed.

Lemma wordsOf_nil_spaces s : wordsOf s [] -> Forall (fun c => isSpace c = true) s.
Proof. by inversion 1. Qed.

Lemma wordsOf_unique s ts ts' : wordsOf s ts -> wordsOf s ts' -> ts = ts'.
Proof.
  intros H. revert ts'.
  induction H as [ws Hws|ws t rest ts Hws Ht Hns Hrest Hts IH]; intros ts' H'.
  - inversion H' as [|ws' t' rest' ts'' Hws' Ht' Hns' Hrest' Hts' E]; [done|].
    subst. apply Forall_app in Hws as [_ [Hw _]%Forall_app].
    destruct Hns' as [|c t' Hc _]; [done|].
    apply Forall_cons in Hw as [Hw _]. congruence.
  - inversion H' as [ws' Hws' E|ws' t' rest' ts'' Hws' Ht' Hns' Hrest' Hts' E].
    + subst. apply Forall_app in Hws' as [_ [Hw _]%Forall_app].
      destruct Hns as [|c t Hc _]; [done|].
      apply Forall_cons in Hw as [Hw _]. congruence.
    + destruct (spaces_word_inj ws' ws t' t rest' rest) as [-> ->]; try done.
      f_equal. by apply IH.
Qed.

End Tokens.

(** ** The relevance score *)

Section Score.

Lemma startsWith_prefix s t : startsWith s t = true <-> t `prefix_of` s.
Proof.
  revert s. induction t as [|d t IH]; intros s; simpl.
  - split; [intros _; apply prefix_nil|done].
  - destruct s as [|c s].
    + split; [done|]. by intros ?%prefix_nil_inv.
    + rewrite andb_true_iff, bool_decide_eq_true, IH. split.
      * intros [-> H]. by apply prefix_cons.
      * intros H. split; [by apply prefix_cons_inv_1 in H|by apply prefix_cons_inv_2 in H].
Qed.

Lemma includes_substringOf s t : includes s t = true <-> substringOf t s.
Proof.
  unfold substringOf. induction s as [|c s IH]; simpl.
  - rewrite orb_false_r, startsWith_prefix, Exists_cons, Exists_nil.
    split; [by left|by intros [?|[]]].
  - rewrite orb_true_iff, startsWith_prefix, IH, Exists_cons. done.
Qed.

Lemma substringOf_spec t s : substringOf t s <-> exists l r, s = l ++ t ++ r.
Proof.
  unfold substringOf. induction s as [|c s IH]; simpl.
  - rewrite Exists_cons, Exists_nil. split.
    + intros [[r ->]|[]]. by exists [], r.
    + intros (l & r & E). left. destruct l; [by exists r|done].
  - rewrite Exists_cons, IH. split.
    + intros [[r ->]|(l & r & ->)]; [by exists [], r|by exists (c :: l), r].
    + intros (l & r & E). destruct l as [|c' l]; simpl in E.
      * left. by exists r.
      * right. simplify_eq. by exists l, r.
Qed.

Lemma foldl_wordBonus qWord score nameWords :
  foldl (wordBonus qWord) score nameWords
  = (score + sumZ (pairBonus qWord <$> nameWords))%Z.
Proof.
  revert score. induction nameWords as [|nWord nameWords IH]; intros score.
  - simpl. lia.
  - cbn [foldl]. rewrite IH, fmap_cons. cbn [sumZ foldr]. fold (sumZ (pairBonus qWord <$> nameWords)).
    generalize (sumZ (pairBonus qWord <$> nameWords)). intros rest.
    unfold wordBonus, pairBonus, eqb, weight.
    case_bool_decide; [rewrite decide_True by done; lia|].
    rewrite decide_False by done.
    destruct (startsWith nWord qWord) eqn:E.
    + apply startsWith_prefix in E. rewrite decide_True by done. lia.
    + rewrite decide_False; [lia|]. intros Hp%startsWith_prefix. congruence.
Qed.

Lemma sumZ_app l k : sumZ (l ++ k) = (sumZ l + sumZ k)%Z.
Proof. induction l; simpl; lia. Qed.

Lemma foldl_queryWords score queryWords nameWords :
  foldl (fun score qWord => foldl (wordBonus qWord) score nameWords) score queryWords
  = (score + sumZ (qWord ← queryWords; nWord ← nameWords; [pairBonus qWord nWord]))%Z.
Proof.
  revert score. induction queryWords as [|qWord queryWords IH]; intros score.
  - simpl. lia.
  - cbn [foldl]. rewrite IH, foldl_wordBonus, bind_cons, sumZ_app.
    replace (nWord ← nameWords; [pairBonus qWord nWord])
      with (pairBonus qWord <$> nameWords); [lia|].
    clear IH. induction nameWords as [|nWord nameWords IH]; [done|].
    by rewrite fmap_cons, bind_cons, IH.
Qed.

Lemma sumZ_nonneg l : Forall (fun z => 0 <= z)%Z l -> (0 <= sumZ l)%Z.
Proof. induction 1; simpl; lia. Qed.

Lemma pairBonus_nonneg qWord nWord : (0 <= pairBonus qWord nWord)%Z.
Proof. unfold pairBonus, weight. repeat case_decide; lia. Qed.

Lemma mathMin_minimum l :
  l <> [] -> exists d, mathMin l = Some d /\ isMinimumOf d l.
Proof.
  induction l as [|x l IH]; [done|]. intros _. destruct l as [|y l].
  - exists x. split; [done|]. split; [by left|].
    intros z [->|[]%elem_of_nil]%elem_of_cons. done.
  - destruct IH as (d & Hd & Hin & Hmin); [done|].
    change (mathMin (x :: y :: l)) with
      (Some (match mathMin (y :: l) with Some z => Nat.min x z | None => x end)).
    rewrite Hd. exists (Nat.min x d). split; [done|]. split.
    + destruct (Nat.min_spec x d) as [[_ ->]|[_ ->]]; [by left|by right].
    + intros z [->|Hz]%elem_of_cons; [lia|]. specialize (Hmin z Hz). lia.
Qed.

Lemma splitGo_nonempty inRun cur s : splitGo inRun cur s <> [].
Proof.
  revert inRun cur. induction s as [|c s IH]; intros inRun cur; simpl; [done|].
  destruct (isSpace c); [destruct inRun|]; [apply IH|done|apply IH].
Qed.

Lemma splitWs_nonempty s : splitWs s <> [].
Proof. apply splitGo_nonempty. Qed.

Lemma bool_decide_of (b : bool) (P : Prop) `{Decision P} :
  (b = true <-> P) -> b = bool_decide P.
Proof.
  intros Hb. destruct b.
  - symmetry. apply bool_decide_eq_true. by apply Hb.
  - symmetry. apply bool_decide_eq_false. intros HP%Hb. done.
Qed.

(** The accumulation of [calculateScore], as a sum. *)
Lemma calculateScore_scoreSum (product : Product) (query nm : jstring) :
  name product = Some nm ->
  let q := toLowerCase query in
  let n := toLowerCase nm in
  let c := toLowerCase (orEmpty (category product)) in
  exists d : nat,
    mathMin (levenshteinDistance q <$> splitWs n) = Some d
    /\ calculateScore product query
       = Ok (scoreSum q n c (splitWs q) (splitWs n) (fuzzyBonus d)).
Proof.
  intros Hname q n c.
  destruct (mathMin_minimum (levenshteinDistance q <$> splitWs n)) as (d & Hd & _).
  { intros H%fmap_nil_inv. by apply splitWs_nonempty in H. }
  exists d. split; [done|].
  unfold calculateScore, readName. rewrite Hname. fold q n c.
  cbv zeta. rewrite foldl_queryWords.
  change (map (fun word => levenshteinDistance q word) (splitWs n))
    with (levenshteinDistance q <$> splitWs n).
  rewrite Hd. f_equal. unfold scoreSum, weight, fuzzyBonus, eqb.
  rewrite (bool_decide_of _ _ (includes_substringOf n q)).
  rewrite (bool_decide_of _ _ (includes_substringOf c q)).
  rewrite (bool_decide_of _ _ (startsWith_prefix n q)).
  rewrite !bool_decide_decide.
  destruct (d <=? 2) eqn:E;
    [apply Nat.leb_le in E|apply Nat.leb_gt in E];
    repeat case_decide; lia.
Qed.

Lemma mathMin_Some_minimum l d : mathMin l = Some d -> isMinimumOf d l.
Proof.
  intros Hd. destruct l as [|x l]; [done|].
  destruct (mathMin_minimum (x :: l)) as (d' & Hd' & Hmin); [done|]. congruence.
Qed.

End Score.

(** ** Building the index *)

Section Build.

Lemma run_bind {A B} (m : Eng A) (k : A -> Eng B) e :
  (m ≫= k) e =
    match m e with
    | (e', Ok a) => k a e'
    | (e', Throw err) => (e', Throw err)
    end.
Proof. reflexivity. Qed.

Lemma forEach_words p (words : list jstring) e :
  exists index,
    forEach (fun word => _ ← trieInsert word p; addToIndex word p) words e
    = (mkSearchEngine (foldl insertOp (trie e) ((fun word => (word, p)) <$> words))
                      (products e) index, Ok tt).
Proof.
  revert e. induction words as [|w words IH]; intros e.
  - exists (searchIndex e). by destruct e.
  - cbn [forEach]. rewrite !run_bind. cbn [trieInsert addToIndex modify].
    edestruct IH as [index ->]. by exists index.
Qed.

Lemma indexProduct_named p nm e :
  name p = Some nm ->
  exists index,
    indexProduct p e
    = (mkSearchEngine (foldl insertOp (trie e) (productOps p)) (products e) index,
       Ok tt).
Proof.
  intros Hn. unfold indexProduct, readName, productOps. rewrite Hn.
  rewrite run_bind.
  destruct (forEach_words p (splitWs (toLowerCase nm)) e) as [index ->].
  rewrite !foldl_app.
  set (t := foldl insertOp (trie e) _).
  rewrite !run_bind. cbn [trieInsert modify trie products searchIndex].
  destruct (truthy (category p)), (truthy (sku p));
    rewrite ?run_bind; cbn; eauto.
Qed.

Lemma indexProduct_unnamed p e :
  name p = None -> indexProduct p e = (e, Throw TypeError).
Proof. intros Hn. unfold indexProduct, readName. by rewrite Hn. Qed.

Lemma forEach_indexProduct ps e :
  exists index,
    forEach indexProduct ps e
    = (mkSearchEngine (foldl insertOp (trie e) (namedPrefix ps ≫= productOps))
                      (products e) index,
       if bool_decide (Forall named ps) then Ok tt else Throw TypeError).
Proof.
  revert e. induction ps as [|p ps IH]; intros e.
  - exists (searchIndex e). destruct e. by rewrite bool_decide_eq_true_2.
  - cbn [forEach namedPrefix]. rewrite run_bind.
    destruct (name p) as [nm|] eqn:Hn.
    + destruct (indexProduct_named p nm e Hn) as [index ->].
      edestruct IH as [index' ->]. exists index'.
      rewrite bind_cons, foldl_app. cbn [trie products]. f_equal.
      apply (f_equal (fun (b : bool) => if b then _ else _)).
      apply bool_decide_ext. rewrite Forall_cons. unfold named at 2.
      rewrite Hn. split; [intros ?; split; [by eexists|done]|by intros [_ ?]].
    + rewrite indexProduct_unnamed by done. exists (searchIndex e).
      destruct e. cbn. rewrite bool_decide_eq_false_2; [done|].
      intros [[? Hs] _]%Forall_cons. congruence.
Qed.

Lemma buildIndex_spec ps e0 :
  exists index,
    buildIndex ps e0
    = (mkSearchEngine (insertAll (namedPrefix ps ≫= productOps)) ps index,
       if bool_decide (Forall named ps) then Ok tt else Throw TypeError).
Proof.
  unfold buildIndex. rewrite !run_bind. cbn [modify].
  apply (forEach_indexProduct ps (mkSearchEngine Trie.newTrie ps ∅)).
Qed.

Lemma buildIndex_fresh ps e0 e1 : buildIndex ps e0 = buildIndex ps e1.
Proof. reflexivity. Qed.

End Build.


(** ** The stages of search *)

Section SearchStages.

Lemma JsMap_has_spec (m : list (option Z * Product)) k :
  JsMap.has m k = true <-> k ∈ m.*1.
Proof.
  unfold JsMap.has. rewrite existsb_exists. split.
  - intros ([k' v] & Hin%list_elem_of_In & <-%bool_decide_eq_true).
    apply list_elem_of_fmap. by exists (k', v).
  - intros ([k' v] & -> & Hin)%list_elem_of_fmap. exists (k', v).
    split; [by apply list_elem_of_In|by apply bool_decide_eq_true].
Qed.

Lemma JsMap_set_absent (m : list (option Z * Product)) k v :
  k ∉ m.*1 -> JsMap.set m k v = m ++ [(k, v)].
Proof.
  induction m as [|[k' v'] m IH]; intros Hk; simpl; [done|].
  rewrite fmap_cons, not_elem_of_cons in Hk. destruct Hk as [Hne Hk].
  simpl in Hne. rewrite bool_decide_eq_false_2 by (simpl; congruence). by rewrite IH.
Qed.

Lemma augmentStep_named ql results p :
  named p ->
  augmentStep ql results p =
    Ok (if decide (id p ∈ results.*1) then results
        else if decide (admissible ql p) then results ++ [(id p, p)]
        else results).
Proof.
  intros [nm Hn]. unfold augmentStep, readName. rewrite Hn.
  destruct (JsMap.has results (id p)) eqn:Hhas.
  - apply JsMap_has_spec in Hhas. by rewrite decide_True.
  - assert (id p ∉ results.*1) as Hk.
    { intros Hk%JsMap_has_spec. congruence. }
    rewrite decide_False by done.
    match goal with |- context [if ?b then _ else _] =>
      assert (b = bool_decide (admissible ql p)) as -> end.
    { apply bool_decide_of. unfold admissible. rewrite Hn.
      rewrite !orb_true_iff, existsb_exists, !includes_substringOf, Exists_exists.
      setoid_rewrite Nat.leb_le. setoid_rewrite list_elem_of_In. done. }
    rewrite bool_decide_decide. case_decide; [|done].
    by rewrite JsMap_set_absent.
Qed.

Lemma forEachR_augmentStep ql ps : forall results,
  Forall named ps ->
  forEachR (augmentStep ql) results ps =
    Ok (results ++ ((fun p => (id p, p)) <$>
                    firstById results.*1 (filter (admissible ql) ps))).
Proof.
  induction ps as [|p ps IH]; intros results Hps.
  - simpl. by rewrite app_nil_r.
  - apply Forall_cons in Hps as [Hp Hps]. cbn [forEachR].
    rewrite augmentStep_named by done. cbn [mbind JsResult_bind].
    rewrite IH by done. rewrite filter_cons. f_equal.
    destruct (decide (id p ∈ results.*1)) as [Hin|Hin].
    + case_decide; [|done]. cbn [firstById]. by rewrite decide_True.
    + case_decide; [|done]. cbn [firstById]. rewrite decide_False by done.
      by rewrite fmap_app, fmap_cons, <-(assoc_L (++)).
Qed.

Lemma calculateScore_named p q :
  named p -> calculateScore p q = Ok (scoreOf p q).
Proof.
  intros [nm Hn]. unfold scoreOf.
  destruct (calculateScore_scoreSum p q nm Hn) as (d & _ & ->). done.
Qed.

Lemma mapR_scored tq ps :
  Forall named ps ->
  mapR (fun product =>
          score ← calculateScore product tq; Ok (mkScoredResult product score)) ps
  = Ok (scored tq ps).
Proof.
  induction 1 as [|p ps Hp Hps IH]; [done|].
  cbn [mapR]. rewrite calculateScore_named by done. cbn [mbind JsResult_bind].
  by rewrite IH.
Qed.

Lemma firstById_subseteq seen l p : p ∈ firstById seen l -> p ∈ l.
Proof.
  revert seen. induction l as [|q l IH]; intros seen; simpl; [done|].
  case_decide.
  - intros ?%IH. by right.
  - intros [->|?%IH]%elem_of_cons; [by left|by right].
Qed.

Lemma primaryCandidates_values e tq p :
  p ∈ (primaryCandidates e tq).*2 -> p ∈ Trie.search (trie e) tq.
Proof.
  unfold primaryCandidates.
  assert (forall l (m : list (option Z * Product)),
    p ∈ (foldl (fun results product => JsMap.set results (id product) product) m l).*2 ->
    p ∈ m.*2 \/ p ∈ l) as Hgen.
  { induction l as [|q l IH]; intros m; simpl; [by left|].
    intros [Hm|Hl]%IH; [|right; by right].
    assert (forall (m : list (option Z * Product)) k v,
      p ∈ (JsMap.set m k v).*2 -> p ∈ m.*2 \/ p = v) as Hset.
    { clear. induction m as [|[k' v'] m IH]; intros k v; simpl.
      - intros [->|[]%elem_of_nil]%elem_of_cons. by right.
      - case_bool_decide; simpl.
        + intros [->|?]%elem_of_cons; [by right|left; by right].
        + intros [->|[?| ->]%IH]%elem_of_cons;
            [left; by left|left; by right|by right]. }
    destruct (Hset _ _ _ Hm) as [?| ->]; [by left|right; by left]. }
  intros [[]%elem_of_nil|?]%Hgen. done.
Qed.

Lemma candidateMap_named e tq limit :
  trieNamed e ->
  (sizeBelow (length (primaryCandidates e tq)) limit = true -> Forall named (products e)) ->
  Forall named (candidateMap e tq limit).*2.
Proof.
  intros Ht Hps. apply Forall_forall. intros p. unfold candidateMap, augmented.
  destruct (sizeBelow _ _).
  - rewrite fmap_app, elem_of_app. intros [Hp|Hp].
    + apply (Ht tq). by apply primaryCandidates_values.
    + rewrite <-list_fmap_compose in Hp.
      apply list_elem_of_fmap in Hp as (p' & -> & Hp).
      apply firstById_subseteq, list_elem_of_filter in Hp as [_ Hp].
      specialize (Hps eq_refl). rewrite Forall_forall in Hps. by apply Hps.
  - intros Hp. apply (Ht tq). by apply primaryCandidates_values.
Qed.

(** [search] on a query that is not blank. *)
Lemma search_stages lc e query limit :
  trim query <> [] ->
  trieNamed e ->
  (sizeBelow (length (primaryCandidates e (trim query))) limit = true ->
   Forall named (products e)) ->
  search lc e query (Some limit)
  = Ok (slice0 (ranking lc e (trim query) limit) limit).
Proof.
  intros Hq Ht Hps. unfold search. cbn [default].
  assert (query <> []) as Hne by (by intros ->).
  rewrite bool_decide_eq_false_2 by done.
  destruct (length (trim query)) as [|len] eqn:Hlen.
  { by apply nil_length_inv in Hlen. }
  cbn [orb Nat.eqb]. fold (primaryCandidates e (trim query)).
  unfold JsMap.size.
  pose proof (candidateMap_named e (trim query) limit Ht Hps) as Hnamed.
  unfold ranking. unfold candidateMap in *.
  destruct (sizeBelow _ _).
  - rewrite forEachR_augmentStep by (by apply Hps). cbn [mbind JsResult_bind].
    unfold JsMap.values. fold (augmented e (trim query)).
    change (map snd ?l) with (l.*2).
    by rewrite mapR_scored.
  - cbn [mbind JsResult_bind]. unfold JsMap.values.
    change (map snd ?l) with (l.*2).
    by rewrite mapR_scored.
Qed.

Lemma search_blank lc e query limitArg :
  trim query = [] -> search lc e query limitArg = Ok [].
Proof.
  intros Hq. unfold search. rewrite Hq. simpl. by rewrite orb_true_r.
Qed.

End SearchStages.


(** ** Sorting *)

Section Sorting.
Context {A : Type} (cmp : A -> A -> Z).

Lemma insertBy_Permutation x l : insertBy cmp x l ≡ₚ x :: l.
Proof.
  induction l as [|y l IH]; simpl; [done|].
  destruct (cmp x y <=? 0)%Z; [done|]. rewrite IH. apply Permutation_swap.
Qed.

Lemma arraySort_Permutation l : arraySort cmp l ≡ₚ l.
Proof.
  induction l as [|x l IH]; simpl; [done|].
  by rewrite insertBy_Permutation, IH.
Qed.

Hypothesis cmp_total : forall x y, (0 < cmp x y -> cmp y x <= 0)%Z.
Hypothesis cmp_trans : forall x y z, (cmp x y <= 0 -> cmp y z <= 0 -> cmp x z <= 0)%Z.

Lemma insertBy_sorted x l :
  StronglySorted (fun a b => cmp a b <= 0)%Z l ->
  StronglySorted (fun a b => cmp a b <= 0)%Z (insertBy cmp x l).
Proof.
  induction 1 as [|y l Hl IH Hy]; simpl.
  - by repeat constructor.
  - destruct (cmp x y <=? 0)%Z eqn:E.
    + apply Z.leb_le in E. constructor; [by constructor|].
      constructor; [done|]. eapply Forall_impl; [exact Hy|].
      intros z Hz. by apply (cmp_trans x y z).
    + apply Z.leb_gt in E. constructor; [done|].
      rewrite insertBy_Permutation. constructor; [|done]. by apply cmp_total.
Qed.

Lemma arraySort_sorted l : StronglySorted (fun a b => cmp a b <= 0)%Z (arraySort cmp l).
Proof.
  induction l as [|x l IH]; simpl; [constructor|]. by apply insertBy_sorted.
Qed.

(** Stability: the elements that the comparator does not separate from
    [z] keep their order. *)
Hypothesis cmp_tied : forall x y z, (0 < cmp x y -> cmp z x = 0 -> cmp z y <> 0)%Z.

Lemma insertBy_filter_tied z x l :
  filter (fun y => cmp z y = 0%Z) (insertBy cmp x l)
  = filter (fun y => cmp z y = 0%Z) (x :: l).
Proof.
  induction l as [|y l IH]; simpl; [done|].
  destruct (cmp x y <=? 0)%Z eqn:E; [done|]. apply Z.leb_gt in E.
  rewrite (filter_cons _ y), IH, !filter_cons.
  destruct (decide (cmp z y = 0%Z)) as [Hy|Hy]; [|done].
  destruct (decide (cmp z x = 0%Z)) as [Hx|Hx]; [|done].
  by destruct (cmp_tied x y z).
Qed.

Lemma arraySort_stable z l :
  filter (fun y => cmp z y = 0%Z) (arraySort cmp l)
  = filter (fun y => cmp z y = 0%Z) l.
Proof.
  induction l as [|x l IH]; simpl; [done|].
  by rewrite insertBy_filter_tied, !filter_cons, IH.
Qed.

End Sorting.

Lemma StronglySorted_take {A} (R : A -> A -> Prop) n l :
  StronglySorted R l -> StronglySorted R (take n l).
Proof.
  intros H. revert n. induction H as [|x l Hl IH Hx]; intros [|n]; simpl;
    try constructor; [apply IH|by apply Forall_take].
Qed.

Lemma StronglySorted_impl {A} (R R' : A -> A -> Prop) l :
  (forall a b, R a b -> R' a b) -> StronglySorted R l -> StronglySorted R' l.
Proof.
  intros HR. induction 1 as [|x l Hl IH Hx]; constructor; [done|].
  eapply Forall_impl; [exact Hx|]. intros y. apply HR.
Qed.

Section Ranking.
Variable lc : jstring -> jstring -> Z.
Hypothesis lc_consistent : consistentComparator lc.

Lemma compareResults_ranksBefore a b :
  (compareResults lc a b <= 0)%Z <-> ranksBefore lc a b.
Proof.
  unfold compareResults, ranksBefore.
  destruct (searchScore b =? searchScore a)%Z eqn:E; simpl.
  - apply Z.eqb_eq in E. split; [intros ?; right; by split|].
    intros [?|[_ ?]]; [lia|done].
  - apply Z.eqb_neq in E. split; [intros ?; left; lia|].
    intros [?|[? _]]; lia.
Qed.

Lemma lc_zero a b : lc a b = 0%Z -> lc b a = 0%Z.
Proof.
  destruct lc_consistent as [Hanti _]. intros H.
  pose proof (Hanti a b). pose proof (Hanti b a). lia.
Qed.

Lemma compareResults_total x y :
  (0 < compareResults lc x y -> compareResults lc y x <= 0)%Z.
Proof.
  destruct lc_consistent as [Hanti _]. unfold compareResults.
  destruct (searchScore y =? searchScore x)%Z eqn:E; simpl.
  - apply Z.eqb_eq in E. rewrite E, Z.eqb_refl. simpl. intros H.
    apply Hanti in H. lia.
  - apply Z.eqb_neq in E. rewrite (proj2 (Z.eqb_neq _ _)) by congruence. simpl. lia.
Qed.

Lemma compareResults_trans x y z :
  (compareResults lc x y <= 0 -> compareResults lc y z <= 0 ->
   compareResults lc x z <= 0)%Z.
Proof.
  destruct lc_consistent as [_ Htrans].
  rewrite !compareResults_ranksBefore. unfold ranksBefore.
  intros [?|[? ?]] [?|[? ?]]; [left; lia|left; lia|left; lia|right].
  split; [congruence|]. eapply Htrans; eauto.
Qed.

Lemma compareResults_zero x y :
  compareResults lc x y = 0%Z <->
  searchScore x = searchScore y
  /\ lc (orEmpty (name (product x))) (orEmpty (name (product y))) = 0%Z.
Proof.
  unfold compareResults.
  destruct (searchScore y =? searchScore x)%Z eqn:E; simpl.
  - apply Z.eqb_eq in E. split; [by intros ?|by intros [_ ?]].
  - apply Z.eqb_neq in E. split; [lia|intros [? _]; congruence].
Qed.

Lemma compareResults_tied x y z :
  (0 < compareResults lc x y -> compareResults lc z x = 0 ->
   compareResults lc z y <> 0)%Z.
Proof.
  destruct lc_consistent as [Hanti Htrans].
  intros Hxy [Hs Hzx]%compareResults_zero [Hs' Hzy]%compareResults_zero.
  revert Hxy. unfold compareResults.
  rewrite (proj2 (Z.eqb_eq _ _)) by congruence. simpl. intros Hxy.
  apply lc_zero in Hzx.
  pose proof (Htrans _ _ _ (Z.eq_le_incl _ _ Hzx) (Z.eq_le_incl _ _ Hzy)). lia.
Qed.

End Ranking.

(** ** The host collations of the examples are consistent *)

Section RootCompare.

Lemma lexCompare_antisym a b : lexCompare b a = CompOpp (lexCompare a b).
Proof.
  revert b. induction a as [|x a IH]; intros [|y b]; simpl; try done.
  rewrite (Nat.compare_antisym x y). destruct (x ?= y); simpl; [apply IH|done|done].
Qed.

Lemma lexCompare_trans a b c :
  lexCompare a b <> Gt -> lexCompare b c <> Gt -> lexCompare a c <> Gt.
Proof.
  revert b c. induction a as [|x a IH]; intros [|y b] [|z c]; simpl; try done.
  destruct (Nat.compare_spec x y), (Nat.compare_spec y z); try done; subst.
  - rewrite Nat.compare_refl. apply IH.
  - intros _ _. by rewrite (proj2 (Nat.compare_lt_iff _ _)).
  - intros _ _. by rewrite (proj2 (Nat.compare_lt_iff _ _)).
  - intros _ _. by rewrite (proj2 (Nat.compare_lt_iff _ _)) by lia.
Qed.

Lemma compareBy_consistent key : consistentComparator (compareBy key).
Proof.
  split.
  - intros a b. unfold compareBy.
    rewrite (lexCompare_antisym (key a) (key b)).
    destruct (lexCompare _ _); simpl; lia.
  - intros a b c. unfold compareBy.
    pose proof (lexCompare_trans (key a) (key b) (key c)) as Ht.
    destruct (lexCompare (key a) (key b)), (lexCompare (key b) (key c)),
      (lexCompare (key a) (key c)); try lia;
      intros _ _; exfalso; by apply Ht.
Qed.

Lemma rootCompare_consistent : consistentComparator rootCompare.
Proof. apply compareBy_consistent. Qed.

Lemma codeUnitCompare_consistent : consistentComparator codeUnitCompare.
Proof. apply compareBy_consistent. Qed.

Lemma caseInsensitiveCompare_consistent : consistentComparator caseInsensitiveCompare.
Proof. apply compareBy_consistent. Qed.

End RootCompare.

(** ** Engines built by [buildIndex] *)

Section Indexed.

Lemma indexed_trie ps e0 :
  trie (indexed ps e0) = insertAll (namedPrefix ps ≫= productOps).
Proof. unfold indexed. by destruct (buildIndex_spec ps e0) as [index ->]. Qed.

Lemma indexed_products ps e0 : products (indexed ps e0) = ps.
Proof. unfold indexed. by destruct (buildIndex_spec ps e0) as [index ->]. Qed.

Lemma buildIndex_result ps e0 :
  (buildIndex ps e0).2 = if bool_decide (Forall named ps) then Ok tt else Throw TypeError.
Proof. by destruct (buildIndex_spec ps e0) as [index ->]. Qed.

Lemma productOps_product p w q : (w, q) ∈ productOps p -> q = p /\ named p.
Proof.
  unfold productOps, named. destruct (name p) as [nm|]; [|by intros ?%elem_of_nil].
  intros H. split; [|by eexists].
  repeat (apply elem_of_app in H as [H|H]).
  - apply list_elem_of_fmap in H as (? & ? & _). by simplify_eq.
  - apply list_elem_of_singleton in H. by simplify_eq.
  - destruct (truthy (category p)); [|by apply elem_of_nil in H].
    apply list_elem_of_singleton in H. by simplify_eq.
  - destruct (truthy (sku p)); [|by apply elem_of_nil in H].
    apply list_elem_of_singleton in H. by simplify_eq.
Qed.

Lemma indexed_trieNamed ps e0 : trieNamed (indexed ps e0).
Proof.
  intros prefix q. rewrite indexed_trie.
  intros [w Hw]%TrieFacts.search_insertAll_inv.
  apply list_elem_of_bind in Hw as (p & Hw & _).
  by apply productOps_product in Hw as [-> ?].
Qed.

Lemma search_insertAll_root ops : Trie.search (insertAll ops) [] = [].
Proof.
  unfold insertAll. induction ops as [|[w p] ops IH] using rev_ind; [done|].
  rewrite foldl_snoc. simpl. rewrite TrieFacts.search_insert.
  rewrite bool_decide_eq_false_2; [done|]. by intros [? _].
Qed.

Lemma slice0_nat {A} (l : list A) n : slice0 l (Int (Z.of_nat n)) = take n l.
Proof.
  unfold slice0, sliceEnd.
  destruct (Z.ltb_spec (Z.of_nat n) 0); [lia|].
  destruct (decide (n <= length l)).
  - f_equal. lia.
  - rewrite !take_ge by lia. done.
Qed.

Lemma slice0_negative {A} (l : list A) k :
  slice0 l (Int (- Z.of_nat (S k))) = take (length l - S k) l.
Proof.
  unfold slice0, sliceEnd.
  destruct (Z.ltb_spec (- Z.of_nat (S k)) 0); [|lia]. f_equal. lia.
Qed.

(** No augmentation: the candidates are those of the trie. *)
Lemma search_primary lc ps e0 query limit :
  sizeBelow (length (primaryCandidates (indexed ps e0) (trim query))) limit = false ->
  search lc (indexed ps e0) query (Some limit)
  = Ok (slice0 (arraySort (compareResults lc)
                  (scored (trim query)
                     (primaryCandidates (indexed ps e0) (trim query)).*2)) limit).
Proof.
  intros Hsize. destruct (decide (trim query = [])) as [Hq|Hq].
  - rewrite search_blank by done. rewrite Hq.
    unfold primaryCandidates. rewrite indexed_trie, search_insertAll_root.
    by destruct limit as [z| | |]; unfold slice0; simpl; rewrite ?take_nil.
  - rewrite search_stages; [|done|apply indexed_trieNamed|congruence].
    unfold ranking, candidateMap. by rewrite Hsize.
Qed.

Lemma firstById_NoDup (P : Product -> Prop) `{forall p, Decision (P p)} l :
  NoDup (id <$> l) ->
  forall seen p, p ∈ firstById seen (filter P l) <-> p ∈ l /\ P p /\ id p ∉ seen.
Proof.
  induction l as [|q l IH]; intros Hnd seen p.
  - rewrite filter_nil. simpl. split; [by intros ?%elem_of_nil|by intros [?%elem_of_nil _]].
  - rewrite fmap_cons in Hnd. apply NoDup_cons in Hnd as [Hq Hnd].
    assert (p ∈ l -> id p <> id q) as Hfresh.
    { intros Hp Heq. apply Hq. rewrite <-Heq. by apply list_elem_of_fmap_2. }
    rewrite filter_cons, elem_of_cons. destruct (decide (P q)) as [HPq|HPq].
    + cbn [firstById]. destruct (decide (id q ∈ seen)) as [Hs|Hs].
      * rewrite (IH Hnd). split.
        -- intros (Hp & HP & Hid). split; [by right|by split].
        -- intros ([->|Hp] & HP & Hid); [done|by split].
      * rewrite elem_of_cons, (IH Hnd), not_elem_of_app, list_elem_of_singleton.
        split.
        -- intros [->|(Hp & HP & Hid & _)].
           ++ split; [by left|by split].
           ++ split; [by right|by split].
        -- intros ([->|Hp] & HP & Hid); [by left|right].
           split; [done|]. split; [done|]. split; [done|]. by apply Hfresh.
    + rewrite (IH Hnd). split.
      * intros (Hp & HP & Hid). split; [by right|by split].
      * intros ([->|Hp] & HP & Hid); [done|by split].
Qed.

End Indexed.

(** ** Tokens, pieces and lower case *)

Section Pieces.

Lemma tokensOf_wordsOf s : wordsOf s (tokensOf s).
Proof.
  induction s as [|c s IH]; [by constructor|].
  cbn [tokensOf]. destruct (isSpace c) eqn:Hc; [by apply wordsOf_space|].
  cbv zeta. destruct s as [|c' s'].
  - apply (words_run [] [c] [] []); try done; by repeat constructor.
  - destruct (isSpace c') eqn:Hc'.
    + apply (words_run [] [c] (c' :: s')); try done; by repeat constructor.
    + remember (tokensOf (c' :: s')) as r eqn:Hr. clear Hr.
      remember (c' :: s') as u eqn:Hu.
      destruct IH as [ws Hws|ws t rest ts Hws Ht Hns Hrest Hts].
      * subst. apply Forall_cons in Hws as [Hs _]. congruence.
      * destruct ws as [|w ws].
        -- apply (words_run [] (c :: t) rest ts); try done. by constructor.
        -- simpl in Hu. injection Hu as -> _.
           apply Forall_cons in Hws as [Hs _]. congruence.
Qed.

Lemma splitWs_pieces l :
  exists ts, wordsOf l ts /\ splitWs l = leadPiece l ++ ts ++ trailPiece l.
Proof.
  unfold splitWs. destruct l as [|c l].
  - exists []. split; [by constructor|done].
  - simpl. destruct (isSpace c) eqn:Hc.
    + destruct (proj1 (splitGo_pieces l)) as (ts & Hts & ->). exists ts. split.
      * by apply wordsOf_space.
      * by rewrite trailPiece_space.
    + destruct (proj2 (splitGo_pieces l) [c]) as (ts & Hts & ->);
        [done|by repeat constructor|].
      by exists ts.
Qed.

Lemma splitWs_piecesOf s : splitWs s = piecesOf s.
Proof.
  destruct (splitWs_pieces s) as (ts & Hts & ->). unfold piecesOf.
  by rewrite (wordsOf_unique s ts (tokensOf s) Hts (tokensOf_wordsOf s)).
Qed.

Lemma lowerOf_lowerChar c l : lowerOf c l <-> l = lowerChar c.
Proof.
  unfold lowerOf, upperCase, lowerChar, code. cbv zeta.
  pose proof (nat_ascii_bounded c) as Hc.
  destruct (_ || _) eqn:E.
  - apply orb_true_iff in E.
    rewrite !andb_true_iff, negb_true_iff, !Nat.leb_le, Nat.eqb_neq in E.
    split.
    + intros [[_ Hl]|[Hn _]]; [|lia]. by rewrite <-Hl, ascii_nat_embedding.
    + intros ->. left. split; [lia|]. apply nat_ascii_embedding. lia.
  - apply orb_false_iff in E.
    rewrite !andb_false_iff, negb_false_iff, !Nat.leb_gt, Nat.eqb_eq in E.
    split.
    + intros [[Hu _]|[_ Hl]]; [lia|done].
    + intros ->. right. split; [lia|done].
Qed.

Lemma lowercased_toLowerCase s l : lowercased s l <-> l = toLowerCase s.
Proof.
  unfold lowercased, toLowerCase. split.
  - induction 1 as [|c l' s' l Hc _ IH]; [done|].
    simpl. apply lowerOf_lowerChar in Hc. by subst.
  - intros ->. induction s as [|c s IH]; constructor; [|done].
    by apply lowerOf_lowerChar.
Qed.

Lemma admissible_admitted ql p : admissible ql p <-> admitted ql p.
Proof.
  unfold admissible, admitted, admittedOver. destruct (name p); [|done].
  by rewrite splitWs_piecesOf.
Qed.

Lemma sizeBelow_belowLimit count limit :
  sizeBelow count limit = true <-> belowLimit count limit.
Proof.
  destruct limit as [z| | |]; simpl; [apply Z.ltb_lt|done..].
Qed.

End Pieces.


(** * Scenarios *)

Example scenario_prefix_match :
  search rootCompare (indexed [headphones] newSearchEngine) (lit "wireless")
         (Some (Int 10))
  = Ok [mkScoredResult headphones 115%Z].
Proof. by vm_compute. Qed.

Example scenario_tie_by_name :
  search rootCompare (indexed [smartWatch; smartPhone] newSearchEngine) (lit "smart")
         (Some (Int 10))
  = Ok [mkScoredResult smartPhone 115%Z; mkScoredResult smartWatch 115%Z].
Proof. by vm_compute. Qed.

Example scenario_limit :
  let catalog :=
    (fun i => mkProduct (Some (Z.of_nat i)) (Some (lit "apple")) None None) <$> seq 0 20 in
  (results ← search rootCompare (indexed catalog newSearchEngine) (lit "a")
                    (Some (Int 5));
   Ok (length results))
  = Ok 5.
Proof. by vm_compute. Qed.

Example scenario_unknown_prefix :
  Trie.search (trie (indexed [headphones] newSearchEngine)) (lit "zebra") = [].
Proof. by vm_compute. Qed.

(** * The claims *)

(** C1, as amended.  For a product with a name, [calculateScore] returns a
    number that is not negative and is the sum of: 100 if the lowercased
    name equals the lowercased query, 50 if it starts with it, 30 if it
    contains it, for every pair of a piece of the lowercased query and a
    piece of the lowercased name 20 if they are equal and otherwise 10 if
    the piece of the name starts with the piece of the query, 15 if the
    lowercased category contains the lowercased query, and [(3 - d) * 5]
    when [d <= 2], where [d] is the least Levenshtein distance between the
    lowercased query and a piece of the lowercased name.  The pieces of a
    string are its whitespace-tokens (its maximal runs of characters that
    are not whitespace), after an empty piece when the string is empty or
    starts with whitespace, and before an empty piece when it ends with
    whitespace. *)
Theorem calculateScore_is_sum (product : Product) (query nm q n c : jstring) :
  name product = Some nm ->
  lowercased query q ->
  lowercased nm n ->
  lowercased (orEmpty (category product)) c ->
  wordsOf q (tokensOf q)
  /\ wordsOf n (tokensOf n)
  /\ exists d : nat,
       isMinimumOf d (levenshteinDistance q <$> piecesOf n)
       /\ calculateScore product query
          = Ok (scoreSum q n c (piecesOf q) (piecesOf n) (fuzzyBonus d))
       /\ (0 <= scoreSum q n c (piecesOf q) (piecesOf n) (fuzzyBonus d))%Z.
Proof.
  intros Hname ->%lowercased_toLowerCase ->%lowercased_toLowerCase
    ->%lowercased_toLowerCase.
  split; [apply tokensOf_wordsOf|]. split; [apply tokensOf_wordsOf|].
  destruct (calculateScore_scoreSum product query nm Hname) as (d & Hd & Hscore).
  rewrite (splitWs_piecesOf (toLowerCase nm)) in Hd, Hscore.
  rewrite (splitWs_piecesOf (toLowerCase query)) in Hscore.
  exists d. split; [by apply mathMin_Some_minimum|]. split; [exact Hscore|].
  unfold scoreSum, weight, fuzzyBonus.
  assert (0 <= sumZ (qWord ← piecesOf (toLowerCase query);
                     nWord ← piecesOf (toLowerCase nm); [pairBonus qWord nWord]))%Z.
  { apply sumZ_nonneg, Forall_forall. intros z Hz.
    apply list_elem_of_bind in Hz as (qw & Hz & _).
    apply list_elem_of_bind in Hz as (nw & Hz & _).
    apply list_elem_of_singleton in Hz as ->. apply pairBonus_nonneg. }
  repeat case_decide; lia.
Qed.

Lemma calculateScore_is_sum_witness :
  calculateScore headphones (lit "WIRELESS") = Ok 115%Z.
Proof.
  destruct (calculateScore_is_sum headphones (lit "WIRELESS")
              (lit "Wireless Headphones Pro") (lit "wireless")
              (lit "wireless headphones pro") (lit "electronics"))
    as (_ & _ & d & [_ Hmin] & Hscore & _).
  - reflexivity.
  - apply lowercased_toLowerCase. reflexivity.
  - apply lowercased_toLowerCase. reflexivity.
  - apply lowercased_toLowerCase. reflexivity.
  - assert (d = 0) as -> by (specialize (Hmin 0); apply Nat.le_0_r, Hmin; by left).
    rewrite Hscore. vm_compute. reflexivity.
Defined.

(** The name "Phone " has the token "phone" and an empty piece after it:
    the empty piece is two edits from the query "xy", the token five.  The
    query that is empty has no token and one empty piece, which every word
    of the name "ab cd" starts with. *)
Lemma calculateScore_tokens_counterexample :
  calculateScore phoneSpace (lit "xy") = Ok 5%Z
  /\ claimedScore phoneSpace (lit "xy") = 0%Z
  /\ calculateScore twoWords [] = Ok 120%Z
  /\ claimedScore twoWords [] = 100%Z.
Proof. by vm_compute. Qed.

(** C2, as amended.  On an indexed catalog, for a query that is not blank
    and a limit [n >= 0], [search] returns the first [n] elements of the
    scored candidates sorted by descending score, ties being in ascending
    order of the names under the host's [localeCompare]; the sort is stable
    (elements that the comparator does not separate keep the order of the
    candidates), and every element carries the score computed for it. *)
Theorem search_ranked (lc : jstring -> jstring -> Z) (ps : list Product)
    (e0 : SearchEngine) (query : jstring) (n : nat) :
  consistentComparator lc ->
  Forall named ps ->
  trim query <> [] ->
  let e := indexed ps e0 in
  let tq := trim query in
  let candidates := (candidateMap e tq (Int (Z.of_nat n))).*2 in
  exists sorted : list ScoredResult,
    search lc e query (Some (Int (Z.of_nat n))) = Ok (take n sorted)
    /\ sorted ≡ₚ scored tq candidates
    /\ StronglySorted (ranksBefore lc) sorted
    /\ (forall r, filter (fun r' => compareResults lc r r' = 0%Z) sorted
                  = filter (fun r' => compareResults lc r r' = 0%Z) (scored tq candidates))
    /\ length (take n sorted) <= n
    /\ Forall (fun r => calculateScore (product r) tq = Ok (searchScore r)) sorted.
Proof.
  intros Hlc Hps Hq e tq candidates.
  exists (arraySort (compareResults lc) (scored tq candidates)).
  split; [|split; [|split; [|split; [|split]]]].
  - unfold e. rewrite search_stages;
      [|done|apply indexed_trieNamed|by rewrite indexed_products].
    by rewrite slice0_nat.
  - apply arraySort_Permutation.
  - eapply StronglySorted_impl; [|apply arraySort_sorted].
    + intros a b. apply compareResults_ranksBefore.
    + by apply compareResults_total.
    + by apply compareResults_trans.
  - intros r. apply arraySort_stable. by apply compareResults_tied.
  - rewrite length_take. lia.
  - rewrite arraySort_Permutation. unfold scored. apply Forall_fmap, Forall_forall.
    intros p Hp. simpl. apply calculateScore_named.
    assert (Forall named candidates) as Hnamed.
    { apply candidateMap_named; [apply indexed_trieNamed|].
      intros _. unfold e. by rewrite indexed_products. }
    rewrite Forall_forall in Hnamed. by apply Hnamed.
Qed.

Lemma search_ranked_witness :
  exists sorted,
    search rootCompare (indexed [smartWatch; smartPhone] newSearchEngine)
           (lit "smart") (Some (Int 10)) = Ok (take 10 sorted)
    /\ StronglySorted (ranksBefore rootCompare) sorted.
Proof.
  destruct (search_ranked rootCompare [smartWatch; smartPhone] newSearchEngine
              (lit "smart") 10 rootCompare_consistent)
    as (sorted & H & _ & Hs & _).
  - repeat (constructor; [by eexists|]). constructor.
  - by vm_compute.
  - exists sorted. split; [exact H|exact Hs].
Defined.

(** The order of C2 as the claim words it (ties by a case-insensitive
    comparison, candidates that tie staying in their order) is not the order
    of the code, neither on a host that sorts "a" before "A" nor on a host
    that compares code units.  The four products have the same score. *)
Lemma search_tie_order_counterexample :
  let catalog := [letterProduct 1 "A"; letterProduct 2 "a";
                  letterProduct 3 "b"; letterProduct 4 "B"] in
  let e := indexed catalog newSearchEngine in
  let claimed :=
    take 10 (arraySort (compareResults caseInsensitiveCompare)
               (scored (lit "x") (candidateMap e (lit "x") (Int 10)).*2)) in
  claimed = (fun p => mkScoredResult p 25%Z) <$> catalog
  /\ search rootCompare e (lit "x") (Some (Int 10))
     = Ok ((fun p => mkScoredResult p 25%Z) <$>
           [letterProduct 2 "a"; letterProduct 1 "A";
            letterProduct 3 "b"; letterProduct 4 "B"])
  /\ search codeUnitCompare e (lit "x") (Some (Int 10))
     = Ok ((fun p => mkScoredResult p 25%Z) <$>
           [letterProduct 1 "A"; letterProduct 4 "B";
            letterProduct 2 "a"; letterProduct 3 "b"])
  /\ search rootCompare e (lit "x") (Some (Int 10)) <> Ok claimed
  /\ search codeUnitCompare e (lit "x") (Some (Int 10)) <> Ok claimed.
Proof.
  split; [by vm_compute|]. split; [by vm_compute|]. split; [by vm_compute|].
  split; vm_compute; discriminate.
Qed.

(** C3.  After any sequence of [insert] calls on a new trie, [search] on a
    non-empty prefix (after lowercasing) of an inserted word returns a list
    that holds a product with the identifier of the inserted product, and
    the inserted product itself when identifiers identify products; no two
    products of the list have the same identifier. *)
Theorem trie_search_finds_inserted
    (ops : list (jstring * Product)) (word : jstring) (product : Product) (p : jstring) :
  (word, product) ∈ ops ->
  p <> [] ->
  toLowerCase p `prefix_of` toLowerCase word ->
  (exists q, q ∈ Trie.search (insertAll ops) p /\ id q = id product)
  /\ ((forall w q, (w, q) ∈ ops -> id q = id product -> q = product) ->
      product ∈ Trie.search (insertAll ops) p)
  /\ NoDup (id <$> Trie.search (insertAll ops) p).
Proof.
  intros Hin Hne Hpre. split; [|split]; [| |apply TrieFacts.search_insertAll_NoDup].
  - unfold insertAll. induction ops as [|[w' product'] ops IH] using rev_ind.
    { by apply elem_of_nil in Hin. }
    rewrite foldl_snoc. simpl.
    apply elem_of_app in Hin as [Hin|Hin%list_elem_of_singleton].
    + destruct (IH Hin) as (q & Hq & Hid). exists q. split; [|done].
      by apply TrieFacts.search_insert_incl.
    + simplify_eq. rewrite TrieFacts.search_insert, bool_decide_eq_true_2.
      * apply TrieFacts.pushProduct_has_id.
      * split; [|done]. by rewrite TrieFacts.toLowerCase_nil.
  - unfold insertAll. induction ops as [|[w' product'] ops IH] using rev_ind.
    { by apply elem_of_nil in Hin. }
    intros Huniq. rewrite foldl_snoc. simpl.
    apply elem_of_app in Hin as [Hin|Hin%list_elem_of_singleton].
    + apply TrieFacts.search_insert_incl, IH; [done|].
      intros w q Hq. apply (Huniq w). apply elem_of_app. by left.
    + simplify_eq. rewrite TrieFacts.search_insert, bool_decide_eq_true_2.
      * apply TrieFacts.pushProduct_has. intros q [w Hq]%TrieFacts.search_insertAll_inv.
        apply (Huniq w). apply elem_of_app. by left.
      * split; [|done]. by rewrite TrieFacts.toLowerCase_nil.
Qed.

Lemma trie_search_finds_inserted_witness :
  exists q,
    q ∈ Trie.search (insertAll [(lit "Smart", smartWatch); (lit "Phone", smartPhone)])
                    (lit "SM")
    /\ id q = id smartWatch.
Proof.
  destruct (trie_search_finds_inserted
              [(lit "Smart", smartWatch); (lit "Phone", smartPhone)]
              (lit "Smart") smartWatch (lit "SM")) as [H _].
  - by left.
  - done.
  - by exists (lit "art").
  - exact H.
Defined.

(** C4.  [levenshteinDistance a b] is the edit distance of [a] and [b]: some
    sequence of that many single-character insertions, deletions and
    substitutions turns [a] into [b], and no shorter one does.  The distance
    to the empty string is the length, and the distances of the examples are
    as stated. *)
Theorem levenshteinDistance_is_edit_distance :
  (forall a b : jstring, isEditDistance a b (levenshteinDistance a b))
  /\ (forall x : jstring, levenshteinDistance x [] = length x)
  /\ levenshteinDistance [] [] = 0
  /\ levenshteinDistance (lit "kitten") (lit "sitting") = 3
  /\ levenshteinDistance [] (lit "abc") = 3
  /\ levenshteinDistance (lit "abc") (lit "abc") = 0.
Proof.
  split; [apply levenshteinDistance_correct|].
  split; [|by repeat split].
  intros x. rewrite levenshteinDistance_levR, reverse_nil, levR_nil_r.
  apply length_reverse.
Qed.

(** C5, as amended.  On an indexed catalog and for a query that is not
    blank: when the number of the candidates that the trie gives (one for
    each identifier) is strictly below the limit, the candidates of [search]
    are these, followed by the products of the snapshot, in its order, that
    pass the test and whose identifier is not yet the identifier of a
    candidate; when it is not below the limit they are those of the trie
    alone.  The test admits a product when (a) a piece of its lowercased
    name (a whitespace-token, or the empty piece of a name that is empty or
    starts or ends with whitespace) is within [max(1, floor(length / 3))]
    edits of the lowercased query, or (b) its lowercased name or category
    contains the lowercased query.  When the identifiers of the snapshot are
    distinct, a product that the trie did not give is admitted exactly when
    it passes the test. *)
Theorem search_augmentation (lc : jstring -> jstring -> Z) (ps : list Product)
    (e0 : SearchEngine) (query : jstring) (limit : JsNumber) :
  Forall named ps ->
  trim query <> [] ->
  let e := indexed ps e0 in
  let tq := trim query in
  let primary := primaryCandidates e tq in
  let extra := firstById primary.*1 (filter (admitted (toLowerCase tq)) ps) in
  let ranked candidates :=
    Ok (slice0 (arraySort (compareResults lc) (scored tq candidates)) limit) in
  (belowLimit (length primary) limit ->
   search lc e query (Some limit) = ranked (primary.*2 ++ extra))
  /\ (~ belowLimit (length primary) limit ->
      search lc e query (Some limit) = ranked primary.*2)
  /\ (NoDup (id <$> ps) ->
      forall p, p ∈ ps -> id p ∉ primary.*1 ->
                (p ∈ extra <-> admitted (toLowerCase tq) p)).
Proof.
  intros Hps Hq e tq primary extra ranked.
  assert (extra = firstById primary.*1 (filter (admissible (toLowerCase tq)) ps)) as Hextra.
  { unfold extra. f_equal. apply list_filter_iff. intros p.
    symmetry. apply admissible_admitted. }
  assert (search lc e query (Some limit)
          = ranked (if sizeBelow (length primary) limit
                    then primary.*2 ++ extra else primary.*2)) as Hsearch.
  { unfold e. rewrite search_stages;
      [|done|apply indexed_trieNamed|by rewrite indexed_products].
    unfold ranked, ranking, candidateMap, augmented. fold e tq primary.
    do 4 f_equal. destruct (sizeBelow _ _); [|done].
    rewrite fmap_app, <-list_fmap_compose. unfold e at 1.
    rewrite indexed_products, Hextra. f_equal. apply list_fmap_id. }
  split; [|split].
  - intros Hbelow%sizeBelow_belowLimit. by rewrite Hsearch, Hbelow.
  - intros Hnot. rewrite Hsearch.
    destruct (sizeBelow _ _) eqn:Hsize; [|done].
    by apply sizeBelow_belowLimit in Hsize.
  - intros Hnd p Hp Hid. rewrite Hextra, <-admissible_admitted.
    rewrite (firstById_NoDup _ _ Hnd). split; [by intros (_ & ? & _)|by intros ?].
Qed.

(** The query "ab" finds [byCode] in the trie, by its code, and [byContent]
    by the test only.  With limit 1 the one candidate of the trie reaches
    the limit: no augmentation, although [byContent] would rank first.  With
    limit 2 it is admitted.  The misspelt "cofee" is one edit from a token of
    [coffeeMaker]. *)
Lemma search_augmentation_witness :
  search rootCompare (indexed [byCode; byContent] newSearchEngine) (lit "ab")
         (Some (Int 1))
  = Ok [mkScoredResult byCode 0%Z]
  /\ search rootCompare (indexed [byCode; byContent] newSearchEngine) (lit "ab")
            (Some (Int 2))
     = Ok [mkScoredResult byContent 40%Z; mkScoredResult byCode 0%Z]
  /\ search rootCompare (indexed [coffeeMaker] newSearchEngine) (lit "cofee")
            (Some (Int 10))
     = Ok [mkScoredResult coffeeMaker 10%Z].
Proof.
  assert (Forall named [byCode; byContent]) as Hps.
  { repeat (constructor; [by eexists|]). constructor. }
  split; [|split].
  - destruct (search_augmentation rootCompare [byCode; byContent] newSearchEngine
                (lit "ab") (Int 1) Hps) as (_ & H & _); [by vm_compute|].
    rewrite H; [by vm_compute|]. vm_compute. discriminate.
  - destruct (search_augmentation rootCompare [byCode; byContent] newSearchEngine
                (lit "ab") (Int 2) Hps) as (H & _ & _); [by vm_compute|].
    rewrite H; [by vm_compute|]. vm_compute. reflexivity.
  - destruct (search_augmentation rootCompare [coffeeMaker] newSearchEngine
                (lit "cofee") (Int 10)) as (H & _ & _).
    + repeat (constructor; [by eexists|]). constructor.
    + by vm_compute.
    + rewrite H; [vm_compute; reflexivity|]. vm_compute. reflexivity.
Defined.

(** The name "Phone " has one token, "phone", five edits from the query "x",
    and it does not contain "x"; but the empty piece after the token is one
    edit from "x", and [search] admits the product. *)
Lemma search_augmentation_tokens_counterexample :
  primaryCandidates (indexed [phoneSpace] newSearchEngine) (lit "x") = []
  /\ search rootCompare (indexed [phoneSpace] newSearchEngine) (lit "x")
            (Some (Int 10))
     = Ok [mkScoredResult phoneSpace 10%Z]
  /\ tokensOf (toLowerCase (lit "Phone ")) = [lit "phone"]
  /\ ~ claimedAdmitted (toLowerCase (lit "x")) phoneSpace.
Proof.
  split; [by vm_compute|]. split; [by vm_compute|]. split; [by vm_compute|].
  apply (bool_decide_unpack _). by vm_compute.
Qed.

(** C6, as amended.  With limit 0, [NaN] or [-Infinity], [search] returns
    the empty array.  A negative integer limit [-k] is not clamped: no
    augmentation runs and [search] returns the ranked candidates of the trie
    without the last [k] of them.  With [+Infinity] it returns every ranked
    candidate.  None of these raises an exception on an indexed catalog in
    which the products have names. *)
Theorem search_limit_edge (lc : jstring -> jstring -> Z) (ps : list Product)
    (e0 : SearchEngine) (query : jstring) :
  let e := indexed ps e0 in
  let tq := trim query in
  let primary := arraySort (compareResults lc) (scored tq (primaryCandidates e tq).*2) in
  search lc e query (Some (Int 0)) = Ok []
  /\ search lc e query (Some NaN) = Ok []
  /\ search lc e query (Some NegInf) = Ok []
  /\ (forall k : nat,
        search lc e query (Some (Int (- Z.of_nat (S k))))
        = Ok (take (length primary - S k) primary))
  /\ (Forall named ps ->
      search lc e query (Some PosInf)
      = Ok (if decide (tq = []) then []
            else arraySort (compareResults lc) (scored tq (augmented e tq).*2))).
Proof.
  intros e tq primary. unfold e.
  split; [|split; [|split; [|split]]].
  - rewrite search_primary by (apply Z.ltb_ge; lia).
    change (Int 0) with (Int (Z.of_nat 0)). by rewrite slice0_nat.
  - by rewrite search_primary.
  - by rewrite search_primary.
  - intros k. rewrite search_primary by (apply Z.ltb_ge; lia).
    by rewrite slice0_negative.
  - intros Hps. case_decide as Hq; [by apply search_blank|].
    rewrite search_stages;
      [|done|apply indexed_trieNamed|by rewrite indexed_products].
    unfold ranking, candidateMap, slice0. simpl. by rewrite firstn_all.
Qed.

Lemma search_limit_edge_witness :
  search rootCompare (indexed [upperA; lowerA] newSearchEngine) (lit "a") (Some PosInf)
  = Ok [mkScoredResult lowerA 215%Z; mkScoredResult upperA 215%Z].
Proof.
  destruct (search_limit_edge rootCompare [upperA; lowerA] newSearchEngine (lit "a"))
    as (_ & _ & _ & _ & H).
  rewrite H.
  - vm_compute. reflexivity.
  - repeat (constructor; [by eexists|]). constructor.
Defined.

(** A negative limit is not clamped to zero: with two candidates and limit
    [-1], [search] returns one result. *)
Lemma search_negative_limit_counterexample :
  search rootCompare (indexed [upperA; lowerA] newSearchEngine) (lit "a")
         (Some (Int (-1)))
  = Ok [mkScoredResult lowerA 215%Z]
  /\ search rootCompare (indexed [upperA; lowerA] newSearchEngine) (lit "a")
            (Some (Int (-1))) <> Ok [].
Proof. split; [by vm_compute|]. vm_compute. discriminate. Qed.

(** C7.  [buildIndex] is idempotent: a second call with the same products
    returns the same result and leaves the same engine, hence the same
    search results; the engine it leaves does not depend on the engine
    before the call, and its snapshot is the list of products. *)
Theorem buildIndex_idempotent (lc : jstring -> jstring -> Z) (ps : list Product)
    (e0 : SearchEngine) (query : jstring) (limitArg : option JsNumber) :
  let once := buildIndex ps e0 in
  let twice := buildIndex ps once.1 in
  twice = once
  /\ search lc twice.1 query limitArg = search lc once.1 query limitArg
  /\ (forall e1 : SearchEngine, buildIndex ps e1 = once)
  /\ products once.1 = ps.
Proof.
  intros once twice.
  assert (forall e1, buildIndex ps e1 = once) as Hfresh.
  { intros e1. apply buildIndex_fresh. }
  assert (twice = once) as Htwice by apply Hfresh.
  split; [exact Htwice|]. split; [by rewrite Htwice|].
  split; [exact Hfresh|]. apply indexed_products.
Qed.

Lemma wordsOf_nonempty s ts : wordsOf s ts -> Forall (fun t => t <> []) ts.
Proof. induction 1; by constructor. Qed.

(** C8, as amended.  The tokens of a string are the pieces of the lowercased
    string between its runs of whitespace: the maximal runs of characters
    that are not whitespace, in order, after an empty token when the string
    is empty or starts with whitespace, and before an empty token when it
    ends with whitespace. *)
Theorem tokens_are_split_pieces (s : jstring) :
  let l := toLowerCase s in
  exists ts, wordsOf l ts /\ splitWs l = leadPiece l ++ ts ++ trailPiece l.
Proof.
  intros l. unfold splitWs. destruct l as [|c l].
  - exists []. split; [by constructor|done].
  - simpl. destruct (isSpace c) eqn:Hc.
    + destruct (proj1 (splitGo_pieces l)) as (ts & Hts & ->). exists ts. split.
      * by apply wordsOf_space.
      * by rewrite trailPiece_space.
    + destruct (proj2 (splitGo_pieces l) [c]) as (ts & Hts & ->);
        [done|by repeat constructor|].
      by exists ts.
Qed.

(** The empty string has one token, the empty string, which is not a run of
    characters. *)
Lemma tokens_empty_counterexample :
  splitWs (toLowerCase []) = [[]]
  /\ splitWs (toLowerCase []) <> []
  /\ ~ wordsOf (toLowerCase []) (splitWs (toLowerCase [])).
Proof.
  split; [done|]. split; [done|]. intros H%wordsOf_nonempty.
  by apply Forall_cons in H as [H _].
Qed.

(** C9, as amended.  [buildIndex] raises a [TypeError] exactly when some
    product has no name; on a catalog in which every product has a name
    (with or without identifier) neither [buildIndex] nor [search] raises an
    exception, whatever the query and the limit. *)
Theorem engine_total (lc : jstring -> jstring -> Z) (ps : list Product)
    (e0 : SearchEngine) (query : jstring) (limitArg : option JsNumber) :
  (buildIndex ps e0).2
  = (if bool_decide (Forall named ps) then Ok tt else Throw TypeError)
  /\ (Forall named ps ->
      exists results, search lc (indexed ps e0) query limitArg = Ok results).
Proof.
  split; [apply buildIndex_result|]. intros Hps.
  destruct (decide (trim query = [])) as [Hq|Hq].
  - exists []. by apply search_blank.
  - assert (forall limit, exists results,
              search lc (indexed ps e0) query (Some limit) = Ok results) as H.
    { intros limit. eexists. apply search_stages;
        [done|apply indexed_trieNamed|by rewrite indexed_products]. }
    destruct limitArg as [limit|]; [apply H|apply (H (Int 10))].
Qed.

Lemma engine_total_witness :
  exists results,
    search rootCompare
           (indexed [mkProduct None (Some (lit "Smart Watch")) None None] newSearchEngine)
           (lit "xyz") None = Ok results.
Proof.
  destruct (engine_total rootCompare
              [mkProduct None (Some (lit "Smart Watch")) None None]
              newSearchEngine (lit "xyz") None) as [_ H].
  apply H. repeat (constructor; [by eexists|]). constructor.
Defined.

(** A product without a name is not skipped: [buildIndex] raises. *)
Lemma buildIndex_nameless_counterexample :
  (buildIndex [nameless] newSearchEngine).2 = Throw TypeError.
Proof. reflexivity. Qed.

(** C10.  [search(query)] is [search(query, 10)], and it returns at most 10
    results. *)
Theorem search_default_limit (lc : jstring -> jstring -> Z) (e : SearchEngine)
    (query : jstring) :
  search lc e query None = search lc e query (Some (Int 10))
  /\ match search lc e query None with
     | Ok results => length results <= 10
     | Throw _ => True
     end.
Proof.
  split; [reflexivity|]. unfold search. cbn [default].
  destruct (_ || _); [simpl; lia|].
  destruct (if sizeBelow _ _ then _ else _) as [results|]; [|done].
  cbn [mbind JsResult_bind]. destruct (mapR _ _) as [scoredResults|]; [|done].
  cbn [mbind JsResult_bind]. unfold slice0. rewrite length_take. simpl. lia.
Qed.


(** * Further properties of the engine *)

(** ** The trie *)

Lemma pushProduct_decide product l :
  Trie.pushProduct product l
  = if decide (id product ∈ id <$> l) then l else l ++ [product].
Proof.
  unfold Trie.pushProduct. destruct (find _ l) as [q|] eqn:E.
  - apply find_some in E as [Hin Hid%bool_decide_eq_true].
    rewrite decide_True; [done|]. rewrite <-Hid.
    apply list_elem_of_fmap_2. by apply list_elem_of_In.
  - rewrite decide_False; [done|].
    intros (q & Hid & Hq)%list_elem_of_fmap. apply list_elem_of_In in Hq.
    apply (find_none _ _ E) in Hq. apply bool_decide_eq_false in Hq. congruence.
Qed.

Lemma firstById_elem_ids seen l i :
  i ∈ id <$> l -> i ∈ seen ++ (id <$> firstById seen l).
Proof.
  revert seen. induction l as [|q l IH]; intros seen; [by intros ?%elem_of_nil|].
  rewrite fmap_cons. cbn [firstById]. intros Hi. case_decide as Hq.
  - apply elem_of_cons in Hi as [->|Hi]; [|by apply IH].
    apply elem_of_app. by left.
  - rewrite fmap_cons. apply elem_of_cons in Hi as [->|Hi].
    + apply elem_of_app. right. by left.
    + specialize (IH (seen ++ [id q]) Hi). rewrite <-(assoc_L (++)) in IH. exact IH.
Qed.

Lemma firstById_ids_subseteq seen l i :
  i ∈ id <$> firstById seen l -> i ∈ id <$> l /\ i ∉ seen.
Proof.
  revert seen. induction l as [|q l IH]; intros seen; [by intros ?%elem_of_nil|].
  cbn [firstById]. case_decide as Hq.
  - intros [? ?]%IH. split; [|done]. rewrite fmap_cons. by right.
  - rewrite !fmap_cons. intros [->|[? Hs]%IH]%elem_of_cons.
    + split; [by left|done].
    + split; [by right|]. intros ?. apply Hs. apply elem_of_app. by left.
Qed.

Lemma firstById_snoc seen l x :
  firstById seen (l ++ [x])
  = firstById seen l
    ++ (if decide (id x ∈ seen ++ (id <$> firstById seen l)) then [] else [x]).
Proof.
  revert seen. induction l as [|y l IH]; intros seen.
  - simpl. rewrite app_nil_r. by case_decide.
  - cbn [app firstById]. case_decide as Hy; [apply IH|].
    rewrite IH, fmap_cons. cbn [app]. f_equal. f_equal.
    rewrite <-(assoc_L (++)). done.
Qed.

(** The list that [search] returns after a sequence of insertions. *)
Lemma search_insertAll_eq ops p :
  Trie.search (insertAll ops) p
  = if decide (p = []) then []
    else firstById []
           (filter (fun op => toLowerCase p `prefix_of` toLowerCase op.1) ops).*2.
Proof.
  case_decide as Hp; [subst; apply search_insertAll_root|].
  unfold insertAll. induction ops as [|[w q] ops IH] using rev_ind.
  - unfold Trie.search. simpl. by rewrite TrieFacts.searchFrom_newTrieNode.
  - rewrite foldl_snoc. cbn [fst snd]. rewrite TrieFacts.search_insert, IH.
    rewrite filter_app, filter_cons, filter_nil. cbn [fst].
    assert (toLowerCase p <> []) as Hlp by (by rewrite TrieFacts.toLowerCase_nil).
    destruct (decide (toLowerCase p `prefix_of` toLowerCase w)) as [Hpre|Hpre].
    + rewrite bool_decide_eq_true_2 by done.
      rewrite fmap_app. change ([(w, q)].*2) with [q].
      rewrite firstById_snoc, pushProduct_decide. cbn [app].
      case_decide; [by rewrite app_nil_r|done].
    + rewrite bool_decide_eq_false_2 by (by intros [_ ?]).
      by rewrite app_nil_r.
Qed.

Lemma firstById_nil seen l : firstById seen l = [] -> Forall (fun q => id q ∈ seen) l.
Proof.
  revert seen. induction l as [|q l IH]; intros seen; [constructor|].
  cbn [firstById]. case_decide; [|done]. intros ?%IH. by constructor.
Qed.

(** X1.  What [search] returns after a sequence of insertions into a new
    trie: for a prefix that is not empty, the products of the words that
    start with the prefix (without regard to case), in the order of their
    first insertion, one for each identifier; nothing for the empty prefix.
    So the result is empty exactly when the prefix is empty or no inserted
    word starts with it. *)
Theorem trie_search_exact (ops : list (jstring * Product)) (prefix : jstring) :
  let matching :=
    filter (fun op => toLowerCase prefix `prefix_of` toLowerCase op.1) ops in
  Trie.search (insertAll ops) prefix
  = (if decide (prefix = []) then [] else firstById [] matching.*2)
  /\ (Trie.search (insertAll ops) prefix = [] <-> prefix = [] \/ matching = []).
Proof.
  intros matching. rewrite search_insertAll_eq. fold matching. split; [done|].
  case_decide as Hp; [by split; [left|]|]. split.
  - intros Hnil. right. apply firstById_nil in Hnil.
    destruct matching as [|op l]; [done|].
    rewrite fmap_cons in Hnil. apply Forall_cons in Hnil as [[]%elem_of_nil _].
  - intros [?| ->]; done.
Qed.

Lemma products_insertFrom w product node :
  Trie.products (Trie.insertFrom w product node) = Trie.products node.
Proof. by destruct w. Qed.

Lemma covered_products w i node l :
  covered w i (Trie.mkTrieNode (Trie.children node) (Trie.isEndOfWord node) l)
  <-> covered w i node.
Proof. by destruct w. Qed.

Lemma insertFrom_covered_id w product : forall node,
  covered w (id product) node -> Trie.insertFrom w product node = node.
Proof.
  induction w as [|c rest IH]; intros [ch e l]; simpl.
  - by intros ->.
  - intros (child & Hc & Hin & Hcov). rewrite Hc. simpl.
    rewrite pushProduct_decide, decide_True by done.
    assert (Trie.mkTrieNode (Trie.children child) (Trie.isEndOfWord child)
              (Trie.products child) = child) as -> by (by destruct child).
    rewrite IH by done. by rewrite insert_id.
Qed.

Lemma insertFrom_covers w product : forall node,
  covered w (id product) (Trie.insertFrom w product node).
Proof.
  induction w as [|c rest IH]; intros node; simpl; [done|].
  eexists. rewrite lookup_insert_eq. split; [done|]. split; [|apply IH].
  rewrite products_insertFrom. simpl. rewrite pushProduct_decide.
  case_decide; [done|]. rewrite fmap_app. apply elem_of_app. right. by left.
Qed.

Lemma insertFrom_keeps_covered w i : forall w' product node,
  covered w i node -> covered w i (Trie.insertFrom w' product node).
Proof.
  induction w as [|c rest IH]; intros [|c' rest'] product node; simpl; try done.
  intros (child & Hc & Hin & Hcov).
  destruct (decide (c' = c)) as [->|Hne].
  - rewrite Hc. simpl. eexists. rewrite lookup_insert_eq. split; [done|]. split.
    + rewrite products_insertFrom. simpl. rewrite pushProduct_decide.
      case_decide; [done|]. rewrite fmap_app. apply elem_of_app. by left.
    + apply IH. by apply covered_products.
  - exists child. by rewrite lookup_insert_ne.
Qed.

Lemma foldl_insertOp_covered w i ops : forall t,
  covered w i (Trie.root t) -> covered w i (Trie.root (foldl insertOp t ops)).
Proof.
  induction ops as [|[w' q] ops IH]; intros t Hcov; [done|].
  cbn [foldl]. apply IH. unfold insertOp, Trie.insert. cbn [Trie.root fst snd].
  by apply insertFrom_keeps_covered.
Qed.

(** X2.  Inserting a word for a product again changes nothing: once a word
    has been inserted for a product, a later [insert] of that word (in any
    case) for a product of the same identifier leaves the trie as it is,
    whatever was inserted in between.  In particular [insert] is
    idempotent. *)
Theorem trie_insert_again (t : Trie.Trie) (ops : list (jstring * Product))
    (word0 word : jstring) (product0 product : Product) :
  toLowerCase word0 = toLowerCase word ->
  id product0 = id product ->
  let t' := foldl insertOp (Trie.insert t word0 product0) ops in
  Trie.insert t' word product = t'.
Proof.
  intros Hword Hid t'.
  assert (covered (toLowerCase word) (id product) (Trie.root t')) as Hcov.
  { apply foldl_insertOp_covered. unfold Trie.insert. cbn [Trie.root].
    rewrite <-Hword, <-Hid. apply insertFrom_covers. }
  unfold Trie.insert. rewrite insertFrom_covered_id by done. by destruct t'.
Qed.

Lemma trie_insert_again_witness :
  Trie.insert (insertAll [(lit "Smart", smartWatch); (lit "Watch", smartWatch)])
              (lit "SMART") smartWatch
  = insertAll [(lit "Smart", smartWatch); (lit "Watch", smartWatch)].
Proof.
  apply (trie_insert_again Trie.newTrie [(lit "Watch", smartWatch)]
           (lit "Smart") (lit "SMART") smartWatch smartWatch); reflexivity.
Defined.

(** ** The Levenshtein distance is a metric *)

Section EditMetric.
Context {A : Type}.
Implicit Types a b c : list A.

Lemma edits_trans n m a b c : edits n a b -> edits m b c -> edits (n + m) a c.
Proof.
  induction 1 as [a|n a b' b H1 H IH]; intros H2; [done|].
  simpl. eapply edits_S; [exact H1|by apply IH].
Qed.

Lemma edit1_sym a b : edit1 a b -> edit1 b a.
Proof. destruct 1; constructor. Qed.

Lemma edits_sym n a b : edits n a b -> edits n b a.
Proof.
  induction 1 as [a|n a b' b H1 H IH]; [constructor|].
  replace (S n) with (n + 1) by lia. eapply edits_trans; [exact IH|].
  eapply edits_S; [by apply edit1_sym|constructor].
Qed.

Lemma edit1_length a b : edit1 a b -> length a <= length b + 1 /\ length b <= length a + 1.
Proof. destruct 1; rewrite !length_app; simpl; lia. Qed.

Lemma edits_length n a b : edits n a b -> length a <= length b + n /\ length b <= length a + n.
Proof.
  induction 1 as [a|n a b' b H1%edit1_length H IH]; lia.
Qed.

Lemma script_max a b : script (Nat.max (length a) (length b)) a b.
Proof.
  revert b. induction a as [|x a IH]; intros b.
  - simpl. induction b; simpl; by constructor.
  - destruct b as [|y b].
    + simpl. constructor. specialize (IH []). simpl in IH.
      by rewrite Nat.max_0_r in IH.
    + simpl. constructor. apply IH.
Qed.

End EditMetric.

(** X3.  The distance that the engine computes is a metric on strings: it is
    zero exactly between equal strings, it is symmetric, and it satisfies
    the triangle inequality. *)
Theorem levenshteinDistance_metric (a b c : jstring) :
  (levenshteinDistance a b = 0 <-> a = b)
  /\ levenshteinDistance a b = levenshteinDistance b a
  /\ levenshteinDistance a c <= levenshteinDistance a b + levenshteinDistance b c.
Proof.
  destruct (levenshteinDistance_correct a b) as [Hab Hab'].
  destruct (levenshteinDistance_correct b a) as [Hba Hba'].
  destruct (levenshteinDistance_correct b c) as [Hbc _].
  destruct (levenshteinDistance_correct a c) as [_ Hac'].
  split; [|split].
  - split.
    + intros H0. rewrite H0 in Hab. by inversion Hab.
    + intros ->. specialize (Hab' 0 (edits_O b)). lia.
  - apply edits_sym in Hab as Hab2. apply edits_sym in Hba as Hba2.
    specialize (Hab' _ Hba2). specialize (Hba' _ Hab2). lia.
  - apply Hac'. by eapply edits_trans.
Qed.

(** X4.  The distance is at least the difference of the two lengths and at
    most the greater length. *)
Theorem levenshteinDistance_bounds (a b : jstring) :
  length a - length b <= levenshteinDistance a b
  /\ length b - length a <= levenshteinDistance a b
  /\ levenshteinDistance a b <= Nat.max (length a) (length b).
Proof.
  destruct (levenshteinDistance_correct a b) as [Hab Hab'].
  apply edits_length in Hab as Hlen.
  split; [lia|]. split; [lia|].
  apply Hab', script_edits, script_max.
Qed.

(** ** The inverted index *)

Lemma addToIndex_addTerm term p e :
  addToIndex term p e
  = (mkSearchEngine (trie e) (products e) (addTerm (id p) (searchIndex e) term), Ok tt).
Proof.
  unfold addToIndex, modify, addTerm. do 2 f_equal.
  apply map_eq. intros t. destruct (decide (t = term)) as [->|Hne].
  - rewrite lookup_insert_eq. case_bool_decide as Hs.
    + rewrite lookup_alter_eq. destruct Hs as [ids ->]. done.
    + rewrite lookup_alter_eq, lookup_insert_eq.
      apply eq_None_not_Some in Hs. rewrite Hs. done.
  - rewrite lookup_insert_ne, lookup_alter_ne by done.
    case_bool_decide; [done|]. by rewrite lookup_insert_ne.
Qed.

Lemma forEach_words_index p (words : list jstring) e :
  searchIndex (forEach (fun word => _ ← trieInsert word p; addToIndex word p) words e).1
  = foldl (addTerm (id p)) (searchIndex e) words.
Proof.
  revert e. induction words as [|w words IH]; intros e; [done|].
  cbn [forEach]. rewrite !run_bind. cbn [trieInsert modify].
  rewrite addToIndex_addTerm. rewrite IH. done.
Qed.

Lemma indexProduct_index p e :
  searchIndex (indexProduct p e).1 = foldl (addTerm (id p)) (searchIndex e) (indexTerms p).
Proof.
  unfold indexProduct, readName, indexTerms. destruct (name p) as [nm|]; [|done].
  rewrite run_bind. rewrite foldl_app, <-forEach_words_index.
  destruct (forEach_words p (splitWs (toLowerCase nm)) e) as [index ->].
  rewrite !run_bind. cbn [trieInsert modify trie products searchIndex fst].
  destruct (truthy (category p)), (truthy (sku p));
    rewrite ?run_bind; cbn [trieInsert modify trie products searchIndex fst];
    rewrite ?addToIndex_addTerm; done.
Qed.

Lemma forEach_indexProduct_index ps e :
  searchIndex (forEach indexProduct ps e).1
  = foldl (fun index p => foldl (addTerm (id p)) index (indexTerms p))
          (searchIndex e) (namedPrefix ps).
Proof.
  revert e. induction ps as [|p ps IH]; intros e; [done|].
  cbn [forEach namedPrefix]. rewrite run_bind.
  destruct (name p) as [nm|] eqn:Hn.
  - destruct (indexProduct_named p nm e Hn) as [index Hrun].
    pose proof (indexProduct_index p e) as Hidx. rewrite Hrun in Hidx |- *.
    rewrite IH. cbn [searchIndex fst foldl] in *. by rewrite Hidx.
  - rewrite indexProduct_unnamed by done. done.
Qed.

Lemma lookup_addTerm i index term t :
  addTerm i index term !! t
  = if decide (t = term) then Some (default ∅ (index !! t) ∪ {[ i ]}) else index !! t.
Proof.
  unfold addTerm. case_decide as Ht; [subst; by rewrite lookup_insert_eq|].
  by rewrite lookup_insert_ne.
Qed.

Lemma foldl_addTerm_elem i terms : forall index t j,
  j ∈ default ∅ (foldl (addTerm i) index terms !! t)
  <-> j ∈ default ∅ (index !! t) \/ (j = i /\ t ∈ terms).
Proof.
  induction terms as [|term terms IH]; intros index t j; cbn [foldl].
  - rewrite elem_of_nil. tauto.
  - rewrite IH, lookup_addTerm, elem_of_cons. case_decide as Ht; simpl.
    + subst. rewrite elem_of_union, elem_of_singleton. tauto.
    + tauto.
Qed.

Lemma foldl_addTerm_Some i terms : forall index t,
  is_Some (foldl (addTerm i) index terms !! t)
  <-> is_Some (index !! t) \/ t ∈ terms.
Proof.
  induction terms as [|term terms IH]; intros index t; cbn [foldl].
  - rewrite elem_of_nil. tauto.
  - rewrite IH, lookup_addTerm, elem_of_cons. case_decide as Ht.
    + subst. split; [auto|]. intros _. left. by eexists.
    + tauto.
Qed.

Lemma foldl_indexTerms_elem l : forall index t j,
  j ∈ default ∅ (foldl (fun index p => foldl (addTerm (id p)) index (indexTerms p))
                       index l !! t)
  <-> j ∈ default ∅ (index !! t) \/ exists p, p ∈ l /\ id p = j /\ t ∈ indexTerms p.
Proof.
  induction l as [|p l IH]; intros index t j; cbn [foldl].
  - split; [auto|]. intros [?|(p & []%elem_of_nil & _)]. done.
  - rewrite IH, foldl_addTerm_elem. split.
    + intros [[?|[-> ?]]|(q & ? & ? & ?)]; [by left|right..].
      * exists p. split; [by left|done].
      * exists q. split; [by right|done].
    + intros [?|(q & [->|?]%elem_of_cons & ? & ?)]; [by left; left|by left; right|right].
      by exists q.
Qed.

Lemma foldl_indexTerms_Some l : forall index t,
  is_Some (foldl (fun index p => foldl (addTerm (id p)) index (indexTerms p))
                 index l !! t)
  <-> is_Some (index !! t) \/ exists p, p ∈ l /\ t ∈ indexTerms p.
Proof.
  induction l as [|p l IH]; intros index t; cbn [foldl].
  - split; [auto|]. intros [?|(p & []%elem_of_nil & _)]. done.
  - rewrite IH, foldl_addTerm_Some. split.
    + intros [[?|?]|(q & ? & ?)]; [by left|right..].
      * exists p. split; [by left|done].
      * exists q. split; [by right|done].
    + intros [?|(q & [->|?]%elem_of_cons & ?)]; [by left; left|by left; right|right].
      by exists q.
Qed.

Lemma indexed_searchIndex ps e0 :
  searchIndex (indexed ps e0)
  = foldl (fun index p => foldl (addTerm (id p)) index (indexTerms p)) ∅ (namedPrefix ps).
Proof.
  unfold indexed, buildIndex. rewrite !run_bind. cbn [modify].
  apply (forEach_indexProduct_index ps (mkSearchEngine Trie.newTrie ps ∅)).
Qed.

(** X5.  The inverted index that [buildIndex] leaves: a term is a key exactly
    when it is a token of the lowercased name, or the lowercased category, of
    a product that was indexed (those before the first one without a name),
    and its entry is the set of the identifiers of these products; whatever
    the index held before is gone. *)
Theorem buildIndex_searchIndex (ps : list Product) (e0 : SearchEngine) (term : jstring) :
  (is_Some (searchIndex (indexed ps e0) !! term)
   <-> exists p, p ∈ namedPrefix ps /\ term ∈ indexTerms p)
  /\ forall i,
       i ∈ default ∅ (searchIndex (indexed ps e0) !! term)
       <-> exists p, p ∈ namedPrefix ps /\ id p = i /\ term ∈ indexTerms p.
Proof.
  rewrite indexed_searchIndex. split.
  - rewrite foldl_indexTerms_Some, lookup_empty. split; [|auto].
    intros [[? ?]|?]; done.
  - intros i. rewrite foldl_indexTerms_elem, lookup_empty. cbn [default].
    rewrite elem_of_empty. tauto.
Qed.

(** ** Queries up to case and outer whitespace *)

Lemma lowerChar_idemp c : lowerChar (lowerChar c) = lowerChar c.
Proof. by destruct c as [[] [] [] [] [] [] [] []]; vm_compute. Qed.

Lemma toLowerCase_idemp s : toLowerCase (toLowerCase s) = toLowerCase s.
Proof.
  unfold toLowerCase. rewrite map_map. apply map_ext. intros c. apply lowerChar_idemp.
Qed.

Lemma isSpace_lowerChar c : isSpace (lowerChar c) = isSpace c.
Proof. by destruct c as [[] [] [] [] [] [] [] []]; vm_compute. Qed.

Lemma trimStart_toLowerCase s : trimStart (toLowerCase s) = toLowerCase (trimStart s).
Proof.
  induction s as [|c s IH]; [done|]. simpl. rewrite isSpace_lowerChar.
  by destruct (isSpace c).
Qed.

Lemma toLowerCase_reverse s : toLowerCase (reverse s) = reverse (toLowerCase s).
Proof.
  unfold toLowerCase. induction s as [|c s IH]; [done|].
  rewrite reverse_cons, map_app, IH. simpl. by rewrite reverse_cons.
Qed.

Lemma trim_toLowerCase s : trim (toLowerCase s) = toLowerCase (trim s).
Proof.
  unfold trim.
  by rewrite trimStart_toLowerCase, <-toLowerCase_reverse, trimStart_toLowerCase,
    <-toLowerCase_reverse.
Qed.

Lemma length_toLowerCase s : length (toLowerCase s) = length s.
Proof. apply length_map. Qed.

Lemma trimStart_head s : headNotSpace (trimStart s).
Proof.
  induction s as [|c s IH]; [done|]. simpl. by destruct (isSpace c) eqn:E.
Qed.

Lemma trimStart_id s : headNotSpace s -> trimStart s = s.
Proof. destruct s as [|c s]; [done|]. simpl. by intros ->. Qed.

Lemma trimStart_suffix s : exists sp, s = sp ++ trimStart s.
Proof.
  induction s as [|c s [sp IH]]; [by exists []|]. simpl.
  destruct (isSpace c); [|by exists []]. exists (c :: sp). simpl. by f_equal.
Qed.

Lemma trim_idemp s : trim (trim s) = trim s.
Proof.
  unfold trim. set (u := trimStart s). set (w := trimStart (reverse u)).
  assert (headNotSpace w) as Hw by apply trimStart_head.
  assert (headNotSpace (reverse w)) as Hrw.
  { destruct (trimStart_suffix (reverse u)) as [sp Hsp]. fold w in Hsp.
    apply (f_equal reverse) in Hsp. rewrite reverse_involutive, reverse_app in Hsp.
    pose proof (trimStart_head s) as Hu. fold u in Hu. rewrite Hsp in Hu.
    destruct (reverse w); [done|]. exact Hu. }
  rewrite (trimStart_id (reverse w)) by done.
  rewrite reverse_involutive. by rewrite (trimStart_id w).
Qed.

Lemma mapR_ext {A B} (f g : A -> JsResult B) l :
  (forall x, f x = g x) -> mapR f l = mapR g l.
Proof. intros Hfg. induction l as [|x l IH]; [done|]. simpl. by rewrite Hfg, IH. Qed.

Lemma calculateScore_toLowerCase p q :
  calculateScore p (toLowerCase q) = calculateScore p q.
Proof. unfold calculateScore. by rewrite toLowerCase_idemp. Qed.

Lemma search_toLowerCase lc e query limitArg :
  search lc e (toLowerCase query) limitArg = search lc e query limitArg.
Proof.
  unfold search. rewrite trim_toLowerCase, length_toLowerCase.
  assert (bool_decide (toLowerCase query = []) = bool_decide (query = [])) as ->.
  { apply bool_decide_ext. apply TrieFacts.toLowerCase_nil. }
  destruct (_ || _); [done|].
  unfold Trie.search. rewrite !toLowerCase_idemp.
  destruct (if sizeBelow _ _ then _ else _) as [results|]; [|done].
  cbn [mbind JsResult_bind]. f_equal. apply mapR_ext. intros p.
  by rewrite calculateScore_toLowerCase.
Qed.

Lemma search_trim lc e query limitArg :
  search lc e (trim query) limitArg = search lc e query limitArg.
Proof.
  unfold search. rewrite trim_idemp.
  assert (bool_decide (trim query = []) || (length (trim query) =? 0)
          = bool_decide (query = []) || (length (trim query) =? 0)) as ->; [|done].
  destruct (trim query) eqn:E; simpl; [by rewrite !orb_true_r|].
  rewrite !orb_false_r. rewrite bool_decide_eq_false_2; [done|].
  intros ->. done.
Qed.

(** X6.  [search] looks at the query only after trimming and lowercasing it:
    two queries that are equal then give the same results. *)
Theorem search_query_normalised (lc : jstring -> jstring -> Z) (e : SearchEngine)
    (query query' : jstring) (limitArg : option JsNumber) :
  toLowerCase (trim query) = toLowerCase (trim query') ->
  search lc e query limitArg = search lc e query' limitArg.
Proof.
  intros Heq.
  rewrite <-(search_trim lc e query), <-(search_trim lc e query').
  rewrite <-(search_toLowerCase lc e (trim query)),
    <-(search_toLowerCase lc e (trim query')).
  by rewrite Heq.
Qed.

(** Two queries that differ in case and in the whitespace around them. *)
Lemma search_query_normalised_witness :
  search rootCompare (indexed [smartWatch; smartPhone] newSearchEngine)
         (lit "  SMART ") None
  = search rootCompare (indexed [smartWatch; smartPhone] newSearchEngine)
           (lit "smart") None.
Proof.
  apply (search_query_normalised rootCompare
           (indexed [smartWatch; smartPhone] newSearchEngine)
           (lit "  SMART ") (lit "smart") None).
  reflexivity.
Defined.

(** ** The results of [search] on an indexed catalog *)

Lemma foldl_set_fresh l : forall m : list (option Z * Product),
  NoDup (m.*1 ++ (id <$> l)) ->
  foldl (fun results product => JsMap.set results (id product) product) m l
  = m ++ (keyed <$> l).
Proof.
  induction l as [|p l IH]; intros m Hnd; simpl; [by rewrite app_nil_r|].
  rewrite fmap_cons in Hnd.
  assert (id p ∉ m.*1) as Hp.
  { apply NoDup_app in Hnd as (_ & Hnd & _). intros Hin. apply (Hnd _ Hin). by left. }
  rewrite JsMap_set_absent by done. rewrite IH.
  - by rewrite <-(assoc_L (++)).
  - rewrite fmap_app, <-(assoc_L (++)). done.
Qed.

Lemma primaryCandidates_indexed ps e0 tq :
  primaryCandidates (indexed ps e0) tq = keyed <$> Trie.search (trie (indexed ps e0)) tq.
Proof.
  unfold primaryCandidates. rewrite foldl_set_fresh; [done|].
  simpl. rewrite indexed_trie. apply TrieFacts.search_insertAll_NoDup.
Qed.

Lemma keyed_fst l : (keyed <$> l).*1 = id <$> l.
Proof. rewrite <-list_fmap_compose. done. Qed.

Lemma keyed_snd l : (keyed <$> l).*2 = l.
Proof. rewrite <-list_fmap_compose. apply list_fmap_id. Qed.

Lemma namedPrefix_named ps : Forall named ps -> namedPrefix ps = ps.
Proof.
  induction 1 as [|p ps [nm Hp] Hps IH]; [done|]. simpl. by rewrite Hp, IH.
Qed.

Lemma firstById_NoDup_ids seen l :
  NoDup seen -> NoDup (seen ++ (id <$> firstById seen l)).
Proof.
  revert seen. induction l as [|q l IH]; intros seen Hnd; simpl.
  - by rewrite app_nil_r.
  - case_decide as Hq; [by apply IH|].
    rewrite fmap_cons.
    specialize (IH (seen ++ [id q])). rewrite <-(assoc_L (++)) in IH. apply IH.
    apply NoDup_app. split; [done|]. split; [|apply NoDup_singleton].
    intros i Hi ->%list_elem_of_singleton. done.
Qed.

Lemma firstById_app seen l k :
  firstById seen (l ++ k)
  = firstById seen l ++ firstById (seen ++ (id <$> firstById seen l)) k.
Proof.
  revert seen. induction l as [|y l IH]; intros seen.
  - simpl. by rewrite app_nil_r.
  - cbn [app firstById]. case_decide as Hy; [apply IH|].
    rewrite IH, fmap_cons. cbn [app]. by rewrite <-(assoc_L (++)).
Qed.

Lemma firstById_same seen p l :
  Forall (fun q => q = p) l ->
  firstById seen l = if decide (l <> [] /\ id p ∉ seen) then [p] else [].
Proof.
  intros H. revert seen. induction H as [|q l -> Hl IH]; intros seen.
  - cbn [firstById]. by destruct (decide _) as [[? _]|_].
  - cbn [firstById]. destruct (decide (id p ∈ seen)) as [Hin|Hin].
    + rewrite IH. by do 2 destruct (decide (_ /\ _)) as [[_ ?]|_].
    + rewrite IH. destruct (decide (l <> [] /\ _)) as [[_ H1]|_].
      * exfalso. apply H1. apply elem_of_app. right. by left.
      * destruct (decide (_ /\ _)) as [_|H2]; [done|]. exfalso. by apply H2.
Qed.

Lemma productOps_snd p : Forall (fun q => q = p) (productOps p).*2.
Proof.
  apply Forall_fmap, Forall_forall. intros [w q] Hq. simpl.
  by apply productOps_product in Hq as [-> _].
Qed.

Lemma firstById_productOps seen tq ps :
  firstById seen
    (filter (fun op => toLowerCase tq `prefix_of` toLowerCase op.1) (ps ≫= productOps)).*2
  = firstById seen (filter (prefixMatch tq) ps).
Proof.
  revert seen. induction ps as [|p ps IH]; intros seen; [done|].
  rewrite bind_cons, filter_app, fmap_app, firstById_app, IH, filter_cons.
  set (ops := filter _ (productOps p)).
  assert (Forall (fun q => q = p) ops.*2) as Hsame.
  { apply Forall_fmap, Forall_forall. intros [w q] [_ Hq]%list_elem_of_filter. simpl.
    by apply productOps_product in Hq as [-> _]. }
  assert (ops.*2 <> [] <-> prefixMatch tq p) as Hne.
  { unfold prefixMatch. rewrite Exists_exists. split.
    - destruct ops as [|op ops'] eqn:E; [done|]. intros _.
      assert (op ∈ filter (fun op => toLowerCase tq `prefix_of` toLowerCase op.1)
                          (productOps p)) as Hop.
      { fold ops. rewrite E. by left. }
      apply list_elem_of_filter in Hop as [? ?]. by exists op.
    - intros (op & Hin & Hpre) Hnil. apply fmap_nil_inv in Hnil.
      assert (op ∈ ops) as Hop by (by apply list_elem_of_filter).
      rewrite Hnil in Hop. by apply elem_of_nil in Hop. }
  rewrite (firstById_same seen p _ Hsame).
  destruct (decide (prefixMatch tq p)) as [Hm|Hm].
  - cbn [firstById]. destruct (decide (id p ∈ seen)) as [Hin|Hin].
    + rewrite decide_False by (by intros [_ ?]). simpl. by rewrite app_nil_r.
    + rewrite decide_True by (by split; [apply Hne|]). done.
  - rewrite decide_False by (intros [?%Hne _]; done). simpl. by rewrite app_nil_r.
Qed.

(** The products that the trie of an indexed catalog gives for a query. *)
Lemma search_indexed_eq ps e0 tq :
  Forall named ps ->
  Trie.search (trie (indexed ps e0)) tq
  = if decide (tq = []) then []
    else firstById [] (filter (prefixMatch tq) ps).
Proof.
  intros Hps. rewrite indexed_trie, search_insertAll_eq, namedPrefix_named by done.
  case_decide; [done|]. apply firstById_productOps.
Qed.

Lemma candidateMap_indexed ps e0 tq limit :
  Forall named ps -> tq <> [] ->
  (candidateMap (indexed ps e0) tq limit).*2
  = if sizeBelow (length (prefixCandidates tq ps)) limit
    then prefixCandidates tq ps ++ fuzzyCandidates tq ps
    else prefixCandidates tq ps.
Proof.
  intros Hps Hq. unfold candidateMap, augmented.
  rewrite primaryCandidates_indexed, search_indexed_eq, decide_False by done.
  fold (prefixCandidates tq ps). rewrite length_fmap, indexed_products.
  destruct (sizeBelow _ _); [|apply keyed_snd].
  rewrite fmap_app, keyed_fst, !keyed_snd. done.
Qed.

Lemma candidates_NoDup tq ps :
  NoDup (id <$> (prefixCandidates tq ps ++ fuzzyCandidates tq ps)).
Proof.
  rewrite fmap_app. apply firstById_NoDup_ids.
  apply (firstById_NoDup_ids [] (filter (prefixMatch tq) ps)). constructor.
Qed.

Lemma candidates_elem tq ps p :
  p ∈ prefixCandidates tq ps ++ fuzzyCandidates tq ps ->
  p ∈ ps /\ (prefixMatch tq p \/ admissible (toLowerCase tq) p).
Proof.
  intros [Hp|Hp]%elem_of_app;
    apply firstById_subseteq, list_elem_of_filter in Hp as [? ?]; auto.
Qed.

Lemma candidates_ids tq ps p :
  p ∈ ps -> prefixMatch tq p \/ admissible (toLowerCase tq) p ->
  id p ∈ id <$> (prefixCandidates tq ps ++ fuzzyCandidates tq ps).
Proof.
  intros Hp [Hm|Hm]; rewrite fmap_app.
  - apply elem_of_app. left.
    apply (firstById_elem_ids [] (filter (prefixMatch tq) ps)).
    apply list_elem_of_fmap_2. by apply list_elem_of_filter.
  - apply firstById_elem_ids. apply list_elem_of_fmap_2. by apply list_elem_of_filter.
Qed.

Lemma scored_ids tq l : (fun r => id (product r)) <$> scored tq l = id <$> l.
Proof. unfold scored. rewrite <-list_fmap_compose. done. Qed.

Lemma scored_products tq l : product <$> scored tq l = l.
Proof. unfold scored. rewrite <-list_fmap_compose. apply list_fmap_id. Qed.

Lemma NoDup_fmap_take {A B} (f : A -> B) k (l : list A) :
  NoDup (f <$> l) -> NoDup (f <$> take k l).
Proof.
  rewrite <-(take_drop k l) at 1. rewrite fmap_app. by intros [? _]%NoDup_app.
Qed.

(** The results of [search] on an indexed catalog, for a query that is not
    blank: a prefix of the ranked candidates. *)
Lemma search_indexed lc ps e0 query limit :
  Forall named ps -> trim query <> [] ->
  exists k ranked,
    search lc (indexed ps e0) query (Some limit) = Ok (take k ranked)
    /\ k = sliceEnd (length ranked) limit
    /\ ranked ≡ₚ scored (trim query)
                  (if sizeBelow (length (prefixCandidates (trim query) ps)) limit
                   then prefixCandidates (trim query) ps ++ fuzzyCandidates (trim query) ps
                   else prefixCandidates (trim query) ps).
Proof.
  intros Hps Hq.
  rewrite search_stages; [|done|apply indexed_trieNamed|by rewrite indexed_products].
  eexists _, _. split; [reflexivity|]. split; [reflexivity|].
  unfold ranking. rewrite arraySort_Permutation, candidateMap_indexed by done. done.
Qed.

(** X7.  The results of [search] on an indexed catalog hold no identifier
    twice, and each is a product of the catalog that matches the query: the
    query is a prefix of a token of its name, of its name, category or code,
    or the product passes the test of the augmentation pass. *)
Theorem search_results_sound (lc : jstring -> jstring -> Z) (ps : list Product)
    (e0 : SearchEngine) (query : jstring) (limitArg : option JsNumber) :
  Forall named ps ->
  exists results,
    search lc (indexed ps e0) query limitArg = Ok results
    /\ NoDup ((fun r => id (product r)) <$> results)
    /\ Forall (fun r =>
                 product r ∈ ps
                 /\ (prefixMatch (trim query) (product r)
                     \/ admissible (toLowerCase (trim query)) (product r)))
              results.
Proof.
  intros Hps. destruct (decide (trim query = [])) as [Hq|Hq].
  { exists []. split; [by apply search_blank|]. split; constructor. }
  set (limit := default (Int 10) limitArg).
  assert (search lc (indexed ps e0) query limitArg
          = search lc (indexed ps e0) query (Some limit)) as -> by (by destruct limitArg).
  destruct (search_indexed lc ps e0 query limit Hps Hq) as (k & ranked & -> & _ & Hperm).
  exists (take k ranked).
  assert (NoDup ((fun r => id (product r)) <$> ranked)
          /\ Forall (fun r => product r ∈ prefixCandidates (trim query) ps
                                        ++ fuzzyCandidates (trim query) ps) ranked)
    as [Hnd Hall].
  { rewrite Hperm. rewrite scored_ids.
    pose proof (candidates_NoDup (trim query) ps) as Hnd.
    destruct (sizeBelow _ _).
    - split; [done|]. apply Forall_forall. intros r Hr.
      apply (list_elem_of_fmap_2 product) in Hr. by rewrite scored_products in Hr.
    - rewrite fmap_app in Hnd. apply NoDup_app in Hnd as [Hnd _]. split; [done|].
      apply Forall_forall. intros r Hr.
      apply (list_elem_of_fmap_2 product) in Hr. rewrite scored_products in Hr.
      apply elem_of_app. by left. }
  split; [done|]. split; [by apply NoDup_fmap_take|].
  apply Forall_take. eapply Forall_impl; [exact Hall|].
  intros r Hr. by apply candidates_elem.
Qed.

Lemma search_results_sound_witness :
  exists results,
    search rootCompare (indexed [smartWatch; smartPhone] newSearchEngine)
           (lit "smrt") None = Ok results
    /\ NoDup ((fun r => id (product r)) <$> results).
Proof.
  destruct (search_results_sound rootCompare [smartWatch; smartPhone] newSearchEngine
              (lit "smrt") None) as (results & H & Hnd & _).
  - repeat (constructor; [by eexists|]). constructor.
  - exists results. split; [exact H|exact Hnd].
Defined.

(** X8.  When at most [n] products of the catalog match the query (by prefix
    or by the test of the augmentation pass), [search] with limit [n] misses
    none of them: the identifiers of its results are exactly the identifiers
    of the matching products. *)
Theorem search_results_complete (lc : jstring -> jstring -> Z) (ps : list Product)
    (e0 : SearchEngine) (query : jstring) (n : nat) :
  Forall named ps ->
  trim query <> [] ->
  length (filter (fun p => prefixMatch (trim query) p
                           \/ admissible (toLowerCase (trim query)) p) ps) <= n ->
  exists results,
    search lc (indexed ps e0) query (Some (Int (Z.of_nat n))) = Ok results
    /\ forall i,
         i ∈ (fun r => id (product r)) <$> results
         <-> exists p, p ∈ ps /\ id p = i
                       /\ (prefixMatch (trim query) p
                           \/ admissible (toLowerCase (trim query)) p).
Proof.
  intros Hps Hq Hn. set (tq := trim query) in *.
  destruct (search_indexed lc ps e0 query (Int (Z.of_nat n)) Hps Hq)
    as (k & ranked & -> & Hk & Hperm).
  fold tq in Hperm.
  set (all := prefixCandidates tq ps ++ fuzzyCandidates tq ps) in *.
  assert (length all <= n) as Hall.
  { etrans; [|exact Hn]. rewrite <-(length_fmap id all).
    rewrite <-(length_fmap id (filter _ ps)). apply submseteq_length.
    apply NoDup_submseteq; [apply candidates_NoDup|].
    intros i (p & -> & Hp)%list_elem_of_fmap. apply candidates_elem in Hp as [? ?].
    apply list_elem_of_fmap_2. by apply list_elem_of_filter. }
  assert (ranked ≡ₚ scored tq all) as Hperm'.
  { rewrite Hperm. destruct (sizeBelow _ _) eqn:Hsize; [done|].
    apply Z.ltb_ge in Hsize. unfold all in Hall |- *. rewrite length_app in Hall.
    destruct (fuzzyCandidates tq ps); [by rewrite app_nil_r|]. simpl in Hall. lia. }
  exists (take k ranked). split; [done|]. intros i.
  assert (take k ranked = ranked) as ->.
  { apply take_ge. rewrite Hk. unfold sliceEnd.
    assert (length ranked <= n).
    { rewrite Hperm'. unfold scored. by rewrite length_fmap. }
    destruct (Z.ltb_spec (Z.of_nat n) 0); lia. }
  rewrite Hperm', scored_ids. split.
  - intros (p & -> & Hp)%list_elem_of_fmap. apply candidates_elem in Hp as [? ?].
    by exists p.
  - intros (p & Hp & <- & Hm). by apply candidates_ids.
Qed.

Lemma search_results_complete_witness :
  exists results,
    search rootCompare (indexed [smartWatch; smartPhone] newSearchEngine)
           (lit "smart") (Some (Int 2)) = Ok results
    /\ (Some 2%Z ∈ (fun r => id (product r)) <$> results).
Proof.
  destruct (search_results_complete rootCompare [smartWatch; smartPhone] newSearchEngine
              (lit "smart") 2) as (results & H & Hiff).
  - repeat (constructor; [by eexists|]). constructor.
  - by vm_compute.
  - vm_compute. lia.
  - exists results. split; [exact H|]. apply Hiff. exists smartPhone.
    split; [right; by left|]. split; [done|]. left. apply (bool_decide_unpack _). by vm_compute.
Defined.

Lemma firstById_distinct l : forall seen,
  NoDup (seen ++ (id <$> l)) -> firstById seen l = l.
Proof.
  induction l as [|p l IH]; intros seen Hnd; cbn [firstById]; [done|].
  rewrite fmap_cons in Hnd.
  destruct (decide _) as [Hin|_].
  - apply NoDup_app in Hnd as (_ & Hd & _). destruct (Hd _ Hin). by left.
  - f_equal. apply IH. rewrite <-(assoc_L (++)). done.
Qed.

Lemma NoDup_fmap_filter {A B} (f : A -> B) (P : A -> Prop) `{!forall x, Decision (P x)}
    (l : list A) :
  NoDup (f <$> l) -> NoDup (f <$> filter P l).
Proof.
  induction l as [|x l IH]; [done|]. rewrite fmap_cons, NoDup_cons. intros [Hx Hnd].
  rewrite filter_cons. destruct (decide (P x)); [|by apply IH].
  rewrite fmap_cons. apply NoDup_cons. split; [|by apply IH].
  intros (y & Hy & [_ Hin]%list_elem_of_filter)%list_elem_of_fmap.
  apply Hx. rewrite Hy. by apply list_elem_of_fmap_2.
Qed.

(** X9.  On a catalog with distinct identifiers in which at least [n]
    products match the query by prefix, [search] with limit [n] returns
    exactly [n] results and every one of them is a prefix match: the
    augmentation pass contributes nothing. *)
Theorem search_prefix_fills (lc : jstring -> jstring -> Z) (ps : list Product)
    (e0 : SearchEngine) (query : jstring) (n : nat) :
  Forall named ps ->
  NoDup (id <$> ps) ->
  trim query <> [] ->
  n <= length (filter (prefixMatch (trim query)) ps) ->
  exists results,
    search lc (indexed ps e0) query (Some (Int (Z.of_nat n))) = Ok results
    /\ length results = n
    /\ Forall (fun r => product r ∈ ps /\ prefixMatch (trim query) (product r)) results.
Proof.
  intros Hps Hnd Hq Hn. set (tq := trim query) in *.
  destruct (search_indexed lc ps e0 query (Int (Z.of_nat n)) Hps Hq)
    as (k & ranked & -> & Hk & Hperm).
  fold tq in Hperm.
  assert (prefixCandidates tq ps = filter (prefixMatch tq) ps) as Hpc.
  { apply firstById_distinct. by apply NoDup_fmap_filter. }
  rewrite Hpc in Hperm.
  assert (sizeBelow (length (filter (prefixMatch tq) ps)) (Int (Z.of_nat n)) = false)
    as Hsize by (apply Z.ltb_ge; lia).
  rewrite Hsize in Hperm.
  assert (length ranked = length (filter (prefixMatch tq) ps)) as Hlen.
  { rewrite Hperm. unfold scored. by rewrite length_fmap. }
  assert (k = n) as ->.
  { rewrite Hk. unfold sliceEnd. destruct (Z.ltb_spec (Z.of_nat n) 0); lia. }
  exists (take n ranked). split; [done|]. split; [rewrite length_take; lia|].
  apply Forall_take. apply Forall_forall. intros r Hr.
  rewrite Hperm in Hr. apply (list_elem_of_fmap_2 product) in Hr.
  rewrite scored_products in Hr. by apply list_elem_of_filter in Hr as [? ?].
Qed.

Lemma search_prefix_fills_witness :
  exists results,
    search rootCompare (indexed [smartWatch; smartPhone] newSearchEngine)
           (lit "smart") (Some (Int 1)) = Ok results
    /\ length results = 1.
Proof.
  destruct (search_prefix_fills rootCompare [smartWatch; smartPhone] newSearchEngine
              (lit "smart") 1) as (results & H & Hlen & _).
  - repeat (constructor; [by eexists|]). constructor.
  - apply (bool_decide_unpack _). by vm_compute.
  - by vm_compute.
  - vm_compute. lia.
  - exists results. split; [exact H|exact Hlen].
Defined.


(** * Properties of the rest of the shop *)

(** ** Delivery rates *)

Lemma find_Some_elem {A} (f : A -> bool) l x :
  find f l = Some x -> x ∈ l /\ f x = true.
Proof.
  induction l as [|y l IH]; simpl; [done|].
  destruct (f y) eqn:E.
  - intros [= ->]. split; [by left|done].
  - intros [? ?]%IH. split; [by right|done].
Qed.

Lemma find_None_Forall {A} (f : A -> bool) l :
  find f l = None <-> Forall (fun x => f x = false) l.
Proof.
  induction l as [|y l IH]; simpl; [by split; [constructor|]|].
  rewrite Forall_cons. destruct (f y); [|by rewrite IH; tauto].
  split; [done|]. by intros [? _].
Qed.

Lemma find_Some_first {A} (f : A -> bool) l x :
  find f l = Some x ->
  exists before after,
    l = before ++ x :: after /\ Forall (fun y => f y = false) before /\ f x = true.
Proof.
  induction l as [|y l IH]; simpl; [done|].
  destruct (f y) eqn:E.
  - intros [= ->]. by exists [], l.
  - intros (before & after & -> & ? & ?)%IH. exists (y :: before), after.
    split; [done|]. split; [by constructor|done].
Qed.

Lemma rates_in_range :
  Forall (fun item => (100 <= rate item <= 290)%Z /\ location item <> []
                      /\ district item <> [])
         NEPAL_DELIVERY_RATES.
Proof.
  apply Forall_forall. intros item Hin.
  assert (forallb (fun item => (100 <=? rate item)%Z && (rate item <=? 290)%Z
                               && negb (eqb (location item) [])
                               && negb (eqb (district item) []))
                  NEPAL_DELIVERY_RATES = true) as Hall by (vm_compute; reflexivity).
  rewrite forallb_forall in Hall. apply list_elem_of_In, Hall in Hin.
  rewrite !andb_true_iff, !negb_true_iff in Hin.
  destruct Hin as [[[?%Z.leb_le ?%Z.leb_le] ?%bool_decide_eq_false] ?%bool_decide_eq_false].
  done.
Qed.

(** X10.  The delivery charge: nothing for the empty selection and for it
    alone; otherwise the rate of the first entry of the table with that
    location name, and 150 when the table has none; in every case between
    100 and 290 for a location that is not empty. *)
Theorem calculateShipping_rate (loc : jstring) :
  (calculateShipping loc = 0%Z <-> loc = [])
  /\ (loc <> [] ->
      (100 <= calculateShipping loc <= 290)%Z
      /\ ((exists before item after,
             NEPAL_DELIVERY_RATES = before ++ item :: after
             /\ Forall (fun earlier => location earlier <> loc) before
             /\ location item = loc
             /\ calculateShipping loc = rate item)
          \/ (Forall (fun item => location item <> loc) NEPAL_DELIVERY_RATES
              /\ calculateShipping loc = 150%Z))).
Proof.
  assert (loc <> [] ->
      (100 <= calculateShipping loc <= 290)%Z
      /\ ((exists before item after,
             NEPAL_DELIVERY_RATES = before ++ item :: after
             /\ Forall (fun earlier => location earlier <> loc) before
             /\ location item = loc
             /\ calculateShipping loc = rate item)
          \/ (Forall (fun item => location item <> loc) NEPAL_DELIVERY_RATES
              /\ calculateShipping loc = 150%Z))) as Hne.
  { intros Hloc. unfold calculateShipping. rewrite bool_decide_eq_false_2 by done.
    cbv zeta. destruct (find _ _) as [entry|] eqn:Hfind.
    - pose proof Hfind as [Hin _]%find_Some_elem.
      apply find_Some_first in Hfind
        as (before & after & Htable & Hbefore & Heq%bool_decide_eq_true).
      pose proof rates_in_range as Hr. rewrite Forall_forall in Hr.
      destruct (Hr _ Hin) as [? _]. split; [done|]. left.
      exists before, entry, after. split; [done|]. split; [|done].
      eapply Forall_impl; [exact Hbefore|]. by intros item ?%bool_decide_eq_false.
    - split; [lia|]. right. split; [|done].
      apply find_None_Forall in Hfind. eapply Forall_impl; [exact Hfind|].
      by intros item ?%bool_decide_eq_false. }
  split; [|exact Hne]. split.
  - intros H0. destruct (decide (loc = [])) as [|Hloc]; [done|].
    destruct (Hne Hloc) as [? _]. lia.
  - by intros ->.
Qed.

Lemma calculateShipping_rate_witness :
  (100 <= calculateShipping (lit "Godawari") <= 290)%Z.
Proof.
  destruct (calculateShipping_rate (lit "Godawari")) as [_ H].
  destruct H as [H _]; [done|exact H].
Defined.

(** X11.  The rate that the location list of a district shows for a location
    is the rate that is charged for it, except for four locations whose name
    is listed under an earlier district at another rate: for these the
    charge is the rate of the other district. *)
Theorem calculateShipping_listed (d loc : jstring) (r : Z) :
  (loc, r) ∈ getLocationsForDistrict d ->
  (calculateShipping loc = r <-> (d, loc) ∉ shadowedLocations).
Proof.
  intros (item & [= -> ->] & [<- Hin]%list_elem_of_filter)%list_elem_of_fmap.
  assert (forallb (fun item =>
            Bool.eqb (calculateShipping (location item) =? rate item)%Z
                     (negb (bool_decide ((district item, location item)
                                         ∈ shadowedLocations))))
          NEPAL_DELIVERY_RATES = true) as Hall by (vm_compute; reflexivity).
  rewrite forallb_forall in Hall. apply list_elem_of_In, Hall in Hin.
  apply Bool.eqb_prop in Hin. rewrite <-Z.eqb_eq, Hin, negb_true_iff.
  by rewrite bool_decide_eq_false.
Qed.

Lemma calculateShipping_listed_witness :
  calculateShipping (lit "Kamalbazar") = 290%Z.
Proof.
  apply (calculateShipping_listed (lit "Achham") (lit "Kamalbazar") 290).
  - apply (bool_decide_unpack _). vm_compute. exact I.
  - apply (bool_decide_unpack _). vm_compute. exact I.
Defined.

Lemma JsSet_add_elem s x y : y ∈ JsSet.add s x <-> y ∈ s \/ y = x.
Proof.
  unfold JsSet.add. case_bool_decide as Hx.
  - split; [auto|]. by intros [?| ->].
  - rewrite elem_of_app, list_elem_of_singleton. done.
Qed.

Lemma JsSet_add_NoDup s x : NoDup s -> NoDup (JsSet.add s x).
Proof.
  intros Hs. unfold JsSet.add. case_bool_decide as Hx; [done|].
  apply NoDup_app. split; [done|]. split; [|apply NoDup_singleton].
  by intros y Hy ->%list_elem_of_singleton.
Qed.

Lemma foldl_add_elem l : forall s y,
  y ∈ foldl JsSet.add s l <-> y ∈ s \/ y ∈ l.
Proof.
  induction l as [|x l IH]; intros s y; cbn [foldl].
  - rewrite elem_of_nil. tauto.
  - rewrite IH, JsSet_add_elem, elem_of_cons. tauto.
Qed.

Lemma foldl_add_NoDup l : forall s, NoDup s -> NoDup (foldl JsSet.add s l).
Proof.
  induction l as [|x l IH]; intros s Hs; cbn [foldl]; [done|].
  by apply IH, JsSet_add_NoDup.
Qed.

Lemma JsSet_from_elem l y : y ∈ JsSet.from l <-> y ∈ l.
Proof. unfold JsSet.from. rewrite foldl_add_elem, elem_of_nil. tauto. Qed.

Lemma JsSet_from_NoDup l : NoDup (JsSet.from l).
Proof. apply foldl_add_NoDup. constructor. Qed.

Lemma lexCompare_Eq a b : lexCompare a b = Eq -> a = b.
Proof.
  revert b. induction a as [|x a IH]; intros [|y b]; simpl; try done.
  destruct (Nat.compare_spec x y); try done. intros ?%IH. by subst.
Qed.

Lemma code_inj c c' : code c = code c' -> c = c'.
Proof.
  unfold code. intros H. by rewrite <-(ascii_nat_embedding c), H, ascii_nat_embedding.
Qed.

Lemma codeUnitCompare_zero a b : codeUnitCompare a b = 0%Z -> a = b.
Proof.
  unfold codeUnitCompare, compareBy.
  destruct (lexCompare _ _) eqn:E; try done. intros _.
  apply lexCompare_Eq in E. revert b E.
  induction a as [|x a IH]; intros [|y b]; try done.
  rewrite !fmap_cons. intros [= ?%code_inj ?%IH]. by subst.
Qed.

Lemma codeUnitCompare_strict l :
  NoDup l ->
  StronglySorted (fun a b => (codeUnitCompare a b <= 0)%Z) l ->
  StronglySorted (fun a b => (codeUnitCompare a b < 0)%Z) l.
Proof.
  intros Hnd Hsorted. induction Hsorted as [|d l Hl IH Hd]; [constructor|].
  apply NoDup_cons in Hnd as [Hnotin Hnd]. constructor; [by apply IH|].
  apply Forall_forall. intros d' Hin. rewrite Forall_forall in Hd.
  specialize (Hd _ Hin).
  destruct (decide (codeUnitCompare d d' = 0%Z)) as [Hz%codeUnitCompare_zero|]; [|lia].
  by subst.
Qed.

Lemma getLocationsForDistrict_elem d loc r :
  (loc, r) ∈ getLocationsForDistrict d <-> mkDeliveryRate d loc r ∈ NEPAL_DELIVERY_RATES.
Proof.
  unfold getLocationsForDistrict. rewrite list_elem_of_fmap. split.
  - intros ([d' loc' r'] & [= -> ->] & [Hd Hin]%list_elem_of_filter). simpl in Hd. by subst.
  - intros Hin. exists (mkDeliveryRate d loc r). split; [done|].
    by apply list_elem_of_filter.
Qed.

(** X12.  The district list and the location lists cover the table and
    nothing else: the districts come in strictly ascending order of their
    code units (so none twice), a district is in the list exactly when it has
    a location, and every entry of the table is a location of its district,
    with its rate. *)
Theorem getNepalDistricts_spec :
  StronglySorted (fun a b => (codeUnitCompare a b < 0)%Z) getNepalDistricts
  /\ (forall d, d ∈ getNepalDistricts <-> getLocationsForDistrict d <> [])
  /\ (forall item, item ∈ NEPAL_DELIVERY_RATES ->
        district item ∈ getNepalDistricts
        /\ (location item, rate item) ∈ getLocationsForDistrict (district item)).
Proof.
  assert (forall d, d ∈ getNepalDistricts
                    <-> exists item, item ∈ NEPAL_DELIVERY_RATES /\ district item = d)
    as Hdistrict.
  { intros d. unfold getNepalDistricts. cbv zeta.
    rewrite arraySort_Permutation, JsSet_from_elem.
    change (map district NEPAL_DELIVERY_RATES) with (district <$> NEPAL_DELIVERY_RATES).
    rewrite list_elem_of_fmap. split; intros (item & ? & ?); by exists item. }
  split; [|split].
  - destruct codeUnitCompare_consistent as [Hanti Htrans].
    assert (NoDup getNepalDistricts) as Hnd.
    { unfold getNepalDistricts. cbv zeta. rewrite arraySort_Permutation.
      apply JsSet_from_NoDup. }
    assert (StronglySorted (fun a b => (codeUnitCompare a b <= 0)%Z) getNepalDistricts)
      as Hsorted.
    { apply arraySort_sorted; [|exact Htrans].
      intros x y Hxy. apply Hanti in Hxy. lia. }
    by apply codeUnitCompare_strict.
  - intros d. rewrite Hdistrict. split.
    + intros ([d' loc r] & Hin & <-) Hnil.
      apply getLocationsForDistrict_elem in Hin. simpl in Hnil. rewrite Hnil in Hin.
      by apply elem_of_nil in Hin.
    + destruct (getLocationsForDistrict d) as [|[loc r] l] eqn:E; [done|]. intros _.
      exists (mkDeliveryRate d loc r). split; [|done].
      apply getLocationsForDistrict_elem. rewrite E. by left.
  - intros [d loc r] Hin. split.
    + apply Hdistrict. by eexists.
    + by apply getLocationsForDistrict_elem.
Qed.

(** ** Patterns *)

Section RegexFacts.

Lemma matches_seq_inv r s w :
  matches (Seq r s) w <-> exists u v, w = u ++ v /\ matches r u /\ matches s v.
Proof.
  split.
  - inversion 1; subst. by eexists _, _.
  - intros (u & v & -> & ? & ?). by constructor.
Qed.

Lemma nullable_matches r : nullable r = true <-> matches r [].
Proof.
  induction r as [| |f|r IHr s IHs|r IHr s IHs|r IHr]; simpl.
  - split; [done|]. inversion 1.
  - split; [constructor|done].
  - split; [done|]. inversion 1.
  - rewrite andb_true_iff, IHr, IHs. split.
    + intros [? ?]. by apply (matches_seq r s [] []).
    + intros (u & v & Heq & ? & ?)%matches_seq_inv.
      symmetry in Heq. apply app_eq_nil in Heq as [-> ->]. done.
  - rewrite orb_true_iff, IHr, IHs. split.
    + intros [?|?]; [by apply matches_alt_l|by apply matches_alt_r].
    + inversion 1; subst; auto.
  - split; [constructor|done].
Qed.

Lemma matches_star_cons r c w :
  matches (Star r) (c :: w) ->
  exists u v, w = u ++ v /\ matches r (c :: u) /\ matches (Star r) v.
Proof.
  intros H. remember (Star r) as sr eqn:Hsr. remember (c :: w) as cw eqn:Hcw.
  revert w Hcw.
  induction H as [|f a Hf|r1 s1 u v Hu _ Hv _|r1 s1 u Hu _|r1 s1 u Hu _|r1
                  |r1 u v Hu _ Hv IHv]; intros w Hcw; try discriminate.
  injection Hsr as ->. destruct u as [|a u].
  - simpl in Hcw. by apply IHv.
  - injection Hcw as -> <-. by exists u, v.
Qed.

Lemma deriv_matches r : forall c w, matches (deriv c r) w <-> matches r (c :: w).
Proof.
  induction r as [| |f|r IHr s IHs|r IHr s IHs|r IHr]; intros c w; simpl.
  - split; inversion 1.
  - split; inversion 1.
  - destruct (f c) eqn:Hf.
    + split.
      * inversion 1; subst. by constructor.
      * inversion 1; subst. constructor.
    + split; [inversion 1|]. inversion 1; subst. congruence.
  - assert (matches (Seq (deriv c r) s) w
            <-> exists u v, w = u ++ v /\ matches r (c :: u) /\ matches s v) as Hseq.
    { split.
      - intros (u & v & -> & Hu & Hv)%matches_seq_inv.
        exists u, v. by rewrite <-IHr.
      - intros (u & v & -> & Hu & Hv). constructor; [by apply IHr|done]. }
    assert (matches (Seq r s) (c :: w)
            <-> (exists u v, w = u ++ v /\ matches r (c :: u) /\ matches s v)
                \/ (matches r [] /\ matches s (c :: w))) as Hcons.
    { split.
      - intros (u & v & Heq & Hu & Hv)%matches_seq_inv.
        destruct u as [|a u]; simpl in Heq; [right; by subst|].
        injection Heq as <- ->. left. by exists u, v.
      - intros [(u & v & -> & Hu & Hv)|[Hu Hv]].
        + by apply (matches_seq r s (c :: u) v).
        + by apply (matches_seq r s [] (c :: w)). }
    rewrite Hcons, <-Hseq, <-nullable_matches, <-IHs.
    destruct (nullable r).
    + split.
      * inversion 1; subst; [by left|by right].
      * intros [?|[_ ?]]; [by apply matches_alt_l|by apply matches_alt_r].
    + split; [by left|]. by intros [?|[? _]].
  - split.
    + inversion 1; subst; [apply matches_alt_l; by apply IHr|apply matches_alt_r; by apply IHs].
    + inversion 1; subst; [apply matches_alt_l; by apply IHr|apply matches_alt_r; by apply IHs].
  - split.
    + intros (u & v & -> & Hu & Hv)%matches_seq_inv.
      apply (matches_star_app r (c :: u) v); [by apply IHr|done].
    + intros (u & v & -> & Hu & Hv)%matches_star_cons.
      constructor; [by apply IHr|done].
Qed.

Lemma regexTest_matches r w : regexTest r w = true <-> matches r w.
Proof.
  revert r. induction w as [|c w IH]; intros r; simpl.
  - apply nullable_matches.
  - by rewrite IH, deriv_matches.
Qed.

Lemma matches_star_class f w :
  matches (Star (Chars f)) w <-> Forall (fun c => f c = true) w.
Proof.
  split.
  - intros H. remember (Star (Chars f)) as sr eqn:Hsr.
    induction H as [|g a Hg|r1 s1 u v Hu _ Hv _|r1 s1 u Hu _|r1 s1 u Hu _|r1
                    |r1 u v Hu _ Hv IHv]; try discriminate; [constructor|].
    injection Hsr as ->. apply Forall_app. split; [|by apply IHv].
    inversion Hu; subst. by repeat constructor.
  - induction 1 as [|c w Hc Hw IH]; [constructor|].
    apply (matches_star_app (Chars f) [c] w); [by constructor|done].
Qed.

Lemma matches_plus_class f w :
  matches (Plus (Chars f)) w <-> w <> [] /\ Forall (fun c => f c = true) w.
Proof.
  unfold Plus. split.
  - intros (u & v & -> & Hu & Hv)%matches_seq_inv.
    inversion Hu; subst. apply matches_star_class in Hv. split; [done|].
    by constructor.
  - intros [Hne Hall]. destruct Hall as [|c w Hc Hw]; [done|].
    apply (matches_seq _ _ [c] w); [by constructor|by apply matches_star_class].
Qed.

Lemma matches_char a w :
  matches (Chars (fun c => bool_decide (c = a))) w <-> w = [a].
Proof.
  split.
  - inversion 1 as [|f c Hc| | | | |]; subst. by apply bool_decide_eq_true in Hc as ->.
  - intros ->. constructor. by apply bool_decide_eq_true.
Qed.

End RegexFacts.

Lemma notSpaceOrAt_spec c : notSpaceOrAt c = true <-> addressChar c.
Proof.
  unfold notSpaceOrAt, addressChar.
  rewrite andb_true_iff, !negb_true_iff, bool_decide_eq_false. done.
Qed.

(** X13.  [isValidEmail] accepts exactly the strings [local@domain.tld] whose
    three parts are non-empty and hold neither whitespace nor an at sign
    (dots are allowed in each part). *)
Theorem isValidEmail_spec (email : jstring) :
  isValidEmail email = true
  <-> exists loc domain tld,
        email = loc ++ "@"%char :: domain ++ "."%char :: tld
        /\ loc <> [] /\ domain <> [] /\ tld <> []
        /\ Forall addressChar loc /\ Forall addressChar domain /\ Forall addressChar tld.
Proof.
  unfold isValidEmail, emailPattern. rewrite regexTest_matches.
  assert (forall w, matches (Plus (Chars notSpaceOrAt)) w
                    <-> w <> [] /\ Forall addressChar w) as Hplus.
  { intros w. rewrite matches_plus_class. split; intros [? Hall]; (split; [done|]);
      (eapply Forall_impl; [exact Hall|]); intros c; by rewrite notSpaceOrAt_spec. }
  split.
  - intros (loc & w1 & -> & Hloc & H1)%matches_seq_inv.
    apply matches_seq_inv in H1 as (a & w2 & -> & ->%matches_char & H2).
    apply matches_seq_inv in H2 as (domain & w3 & -> & Hdomain & H3).
    apply matches_seq_inv in H3 as (d & tld & -> & ->%matches_char & Htld).
    apply Hplus in Hloc as [? ?], Hdomain as [? ?], Htld as [? ?].
    by exists loc, domain, tld.
  - intros (loc & domain & tld & -> & ? & ? & ? & ? & ? & ?).
    constructor; [by apply Hplus|].
    apply (matches_seq _ _ ["@"%char]); [by apply matches_char|].
    constructor; [by apply Hplus|].
    apply (matches_seq _ _ ["."%char]); [by apply matches_char|].
    by apply Hplus.
Qed.

(** X14.  [escapeRegex] gives a pattern made of literal characters only, which
    spells the string it was given; so it loses nothing of the string, and
    its result is at most twice as long. *)
Theorem escapeRegex_literal (str : jstring) :
  literalOf (escapeRegex str) = Some str
  /\ length str <= length (escapeRegex str) <= 2 * length str.
Proof.
  induction str as [|c str [IH Hlen]]; [by split; [|simpl; lia]|].
  unfold escapeRegex in *. rewrite bind_cons.
  destruct (syntaxChar c) eqn:Hc.
  - split; [|rewrite length_app; simpl; lia].
    change ([backslash; c] ++ ?l) with (backslash :: c :: l).
    cbn [literalOf]. rewrite bool_decide_eq_true_2 by done. by rewrite Hc, IH.
  - split; [|rewrite length_app; simpl; lia].
    change ([c] ++ ?l) with (c :: l). cbn [literalOf].
    rewrite bool_decide_eq_false_2.
    + by rewrite Hc, IH.
    + intros ->. by vm_compute in Hc.
Qed.

(** ** The cart *)

Module CartFacts.
Import Cart.
Section Methods.
Context {Price Image : Type}.
Implicit Types (app : @App Price Image) (c : list (@CartItem Price Image)).
Implicit Types (item : @CartItem Price Image).

Lemma findIndex_Some {A} (f : A -> bool) (l : list A) i :
  findIndex f l = Some i ->
  exists x, l !! i = Some x /\ f x = true /\ Forall (fun y => f y = false) (take i l).
Proof.
  revert i. induction l as [|y l IH]; intros i; simpl; [done|].
  destruct (f y) eqn:E.
  - intros [= <-]. exists y. by repeat split.
  - destruct (findIndex f l) as [j|]; [|done]. intros [= <-].
    destruct (IH j eq_refl) as (x & ? & ? & ?). exists x. simpl.
    split; [done|]. split; [done|]. by constructor.
Qed.

Lemma findIndex_None {A} (f : A -> bool) (l : list A) :
  findIndex f l = None -> Forall (fun y => f y = false) l.
Proof.
  induction l as [|y l IH]; simpl; [constructor|].
  destruct (f y) eqn:E; [done|].
  destruct (findIndex f l); [done|]. intros _. constructor; auto.
Qed.

Lemma quantityOf_app i c c' :
  quantityOf i (c ++ c') = (quantityOf i c + quantityOf i c')%Z.
Proof.
  induction c as [|item c IH]; simpl; [done|]. rewrite IH. case_decide; lia.
Qed.

Lemma quantityOf_absent i c :
  Forall (fun item => bool_decide (id item = i) = false) c -> quantityOf i c = 0%Z.
Proof.
  induction 1 as [|item c Hitem%bool_decide_eq_false _ IH]; simpl; [done|].
  by rewrite decide_False.
Qed.

Lemma quantityOf_filter i j c :
  quantityOf i (filter (fun item => id item <> j) c)
  = if decide (i = j) then 0%Z else quantityOf i c.
Proof.
  induction c as [|item c IH]; simpl; [by case_decide|].
  rewrite filter_cons. destruct (decide (id item <> j)) as [Hne|Heq%dec_stable]; simpl.
  - rewrite IH. repeat case_decide; congruence || lia.
  - rewrite IH. repeat case_decide; congruence || lia.
Qed.

(** What changing the quantity of the item at index [n] does to the
    quantities. *)
Lemma quantityOf_alter i c n item q :
  c !! n = Some item ->
  quantityOf i (alter (setQuantity q) n c)
  = (quantityOf i c + if decide (id item = i) then q - quantity item else 0)%Z.
Proof.
  unfold quantityOf.
  revert n. induction c as [|x c IH]; intros [|n]; simpl; try done.
  - intros [= ->]. case_decide; lia.
  - intros H. specialize (IH n H). unfold alter in IH. rewrite IH.
    repeat case_decide; lia.
Qed.

Lemma count_foldl c z :
  foldl (fun sum item => (sum + quantity item)%Z) z c
  = (z + foldr (fun item sum => (quantity item + sum)%Z) 0%Z c)%Z.
Proof.
  revert z. induction c as [|item c IH]; intros z; simpl; [lia|]. rewrite IH. lia.
Qed.

Lemma count_app c c' :
  foldr (fun item sum => (quantity item + sum)%Z) 0%Z (c ++ c')
  = (foldr (fun item sum => (quantity item + sum)%Z) 0%Z c
     + foldr (fun item sum => (quantity item + sum)%Z) 0%Z c')%Z.
Proof. induction c as [|item c IH]; simpl; [done|]. rewrite IH. lia. Qed.

Lemma count_alter c n item q :
  c !! n = Some item ->
  foldr (fun item sum => (quantity item + sum)%Z) 0%Z (alter (setQuantity q) n c)
  = (foldr (fun item sum => (quantity item + sum)%Z) 0%Z c + q - quantity item)%Z.
Proof.
  revert n. induction c as [|x c IH]; intros [|n]; simpl; try done.
  - intros [= ->]. lia.
  - intros H. specialize (IH n H). unfold alter in IH. rewrite IH. lia.
Qed.

Lemma alter_increment c n item :
  c !! n = Some item ->
  alter (fun item => setQuantity (quantity item + 1) item) n c
  = alter (setQuantity (quantity item + 1)) n c.
Proof.
  revert n. induction c as [|x c IH]; intros [|n]; simpl; try done.
  - by intros [= ->].
  - intros H. f_equal. by apply (IH n).
Qed.

Lemma find_known (productId : option Z)
    (ps : list (Catalog.CatalogProduct Price Image)) :
  match find (fun p => bool_decide (Catalog.id p = productId)) ps with
  | Some product => Catalog.id product = productId /\ productId ∈ (Catalog.id <$> ps)
  | None => productId ∉ (Catalog.id <$> ps)
  end.
Proof.
  destruct (find _ ps) as [product|] eqn:Hfind.
  - apply find_Some_elem in Hfind as [Hin Hid%bool_decide_eq_true].
    split; [done|]. rewrite <-Hid. by apply list_elem_of_fmap_2.
  - apply find_None_Forall in Hfind. rewrite Forall_forall in Hfind.
    intros (p & -> & Hin)%list_elem_of_fmap. apply Hfind in Hin.
    by apply bool_decide_eq_false in Hin.
Qed.

(** The cart that [addToCart] leaves. *)
Lemma addToCart_cart productId app :
  productId ∈ (Catalog.id <$> products app) ->
  (exists n item,
      cart app !! n = Some item /\ id item = productId
      /\ cart (addToCart productId app)
         = alter (setQuantity (quantity item + 1)) n (cart app))
  \/ (exists product,
        Catalog.id product = productId
        /\ quantityOf productId (cart app) = 0%Z
        /\ (productId ∉ id <$> cart app)
        /\ cart (addToCart productId app) = cart app ++ [itemOf product 1]).
Proof.
  intros Hknown. unfold addToCart.
  pose proof (find_known productId (products app)) as Hfind.
  destruct (find _ _) as [product|]; [|done]. destruct Hfind as [Hid _].
  cbv zeta. destruct (findIndex _ (cart app)) as [n|] eqn:Hidx.
  - left. apply findIndex_Some in Hidx as (item & Hn & Hitem%bool_decide_eq_true & _).
    exists n, item. split; [done|]. split; [done|]. simpl. by apply alter_increment.
  - right. apply findIndex_None in Hidx. exists product. split; [done|].
    split; [by apply quantityOf_absent|]. split; [|done].
    intros (item & Heq & Hin)%list_elem_of_fmap. rewrite Forall_forall in Hidx.
    apply Hidx, bool_decide_eq_false in Hin. done.
Qed.

Lemma addToCart_unknown productId app :
  productId ∉ (Catalog.id <$> products app) -> addToCart productId app = app.
Proof.
  intros Hunknown. unfold addToCart.
  pose proof (find_known productId (products app)) as Hfind.
  destruct (find _ _) as [product|]; [|done]. by destruct Hfind.
Qed.

(** X15.  [addToCart] of a product of the catalog raises the quantity that
    the cart holds of it by one, and with it the number on the cart badge,
    and changes no other quantity; for an identifier that the catalog does
    not have it changes nothing at all. *)
Theorem addToCart_quantity (productId : option Z) (app : @App Price Image) :
  (productId ∈ (Catalog.id <$> products app) ->
   (forall i, quantityOf i (cart (addToCart productId app))
              = (quantityOf i (cart app) + if decide (i = productId) then 1 else 0)%Z)
   /\ cartItemCount (addToCart productId app) = (cartItemCount app + 1)%Z)
  /\ (productId ∉ (Catalog.id <$> products app) -> addToCart productId app = app).
Proof.
  split; [|apply addToCart_unknown].
  intros Hknown. unfold cartItemCount. rewrite !count_foldl.
  destruct (addToCart_cart productId app Hknown)
    as [(n & item & Hn & Hid & ->)|(product & Hid & _ & _ & ->)].
  - split.
    + intros i. rewrite (quantityOf_alter i _ n item) by done.
      rewrite Hid. repeat case_decide; congruence || lia.
    + rewrite (count_alter _ n item) by done. lia.
  - split.
    + intros i. rewrite quantityOf_app. simpl. rewrite Hid.
      repeat case_decide; congruence || lia.
    + rewrite count_app. simpl. lia.
Qed.

(** X16.  [removeFromCart] leaves nothing of the product in the cart and
    changes no other quantity, and it undoes [addToCart]: removing a product
    after adding it gives the cart that removing it at once gives. *)
Theorem removeFromCart_quantity (productId : option Z) (app : @App Price Image) :
  (forall i, quantityOf i (cart (removeFromCart productId app))
             = if decide (i = productId) then 0%Z else quantityOf i (cart app))
  /\ (productId ∉ id <$> cart (removeFromCart productId app))
  /\ cart (removeFromCart productId (addToCart productId app))
     = cart (removeFromCart productId app).
Proof.
  split; [|split].
  - intros i. apply quantityOf_filter.
  - simpl. intros (item & Heq & [Hne _]%list_elem_of_filter)%list_elem_of_fmap. done.
  - destruct (decide (productId ∈ (Catalog.id <$> products app))) as [Hknown|Hunknown];
      [|by rewrite addToCart_unknown].
    simpl.
    destruct (addToCart_cart productId app Hknown)
      as [(n & item & Hn & Hid & ->)|(product & Hid & _ & _ & ->)].
    + clear Hknown. revert n Hn. induction (cart app) as [|x c IH]; intros [|n]; simpl; try done.
      * intros [= ->]. rewrite !filter_cons. simpl.
        rewrite !decide_False; [done|by intros []..].
      * intros Hn. rewrite !filter_cons. specialize (IH n Hn). unfold alter in IH.
        by rewrite IH.
    + rewrite filter_app, filter_cons, filter_nil. simpl.
      rewrite decide_False by (by intros []). by rewrite app_nil_r.
Qed.

Lemma fmap_id_alter q n c : id <$> alter (setQuantity q) n c = id <$> c.
Proof.
  revert n. induction c as [|x c IH]; intros [|n]; simpl; try done.
  f_equal. apply (IH n).
Qed.

Lemma Forall_alter_quantity q n c :
  (0 < q)%Z ->
  Forall (fun item => (0 < quantity item)%Z) c ->
  Forall (fun item => (0 < quantity item)%Z) (alter (setQuantity q) n c).
Proof.
  intros Hq Hc. revert n. induction Hc as [|x c Hx Hc IH]; intros [|n]; simpl.
  - constructor.
  - constructor.
  - by constructor.
  - constructor; [done|]. apply (IH n).
Qed.

(** X17.  A cart with one item for each of its products, each in a positive
    quantity, stays so under [addToCart], [buyNow], [removeFromCart] and
    [updateCartQuantity]. *)
Theorem cart_wellFormed (productId : option Z) (newQuantity : Z) (app : @App Price Image) :
  wellFormed (cart app) ->
  wellFormed (cart (addToCart productId app))
  /\ wellFormed (cart (buyNow productId app))
  /\ wellFormed (cart (removeFromCart productId app))
  /\ wellFormed (cart (updateCartQuantity productId newQuantity app)).
Proof.
  intros [Hnd Hpos].
  assert (wellFormed (cart (removeFromCart productId app))) as Hremove.
  { simpl. split.
    - clear Hpos. induction (cart app) as [|x c IH]; [done|].
      rewrite fmap_cons in Hnd. apply NoDup_cons in Hnd as [Hx Hnd].
      rewrite filter_cons. destruct (decide _); [|by apply IH].
      rewrite fmap_cons. apply NoDup_cons. split; [|by apply IH].
      intros (y & Hy & [_ Hin]%list_elem_of_filter)%list_elem_of_fmap.
      apply Hx. rewrite Hy. by apply list_elem_of_fmap_2.
    - rewrite Forall_forall in Hpos. apply Forall_forall.
      intros y [_ Hy]%list_elem_of_filter. by apply Hpos. }
  split; [|split; [|split]].
  - destruct (decide (productId ∈ Catalog.id <$> products app)) as [Hknown|Hunknown];
      [|by rewrite addToCart_unknown].
    destruct (addToCart_cart productId app Hknown)
      as [(n & item & Hn & Hid & ->)|(product & Hid & _ & Hnew & ->)].
    + split; [by rewrite fmap_id_alter|]. apply Forall_alter_quantity; [|done].
      rewrite Forall_forall in Hpos. apply list_elem_of_lookup_2, Hpos in Hn. lia.
    + split.
      * rewrite fmap_app. apply NoDup_app. split; [done|]. simpl. rewrite Hid.
        split; [|apply NoDup_singleton]. by intros i Hi ->%list_elem_of_singleton.
      * apply Forall_app. split; [done|]. by repeat constructor.
  - unfold buyNow. destruct (find _ _) as [product|]; [|done]. simpl. split.
    + apply NoDup_singleton.
    + by repeat constructor.
  - exact Hremove.
  - unfold updateCartQuantity. destruct (Z.leb_spec newQuantity 0); [exact Hremove|].
    destruct (findIndex _ _) as [n|]; [|done]. simpl.
    split; [by rewrite fmap_id_alter|by apply Forall_alter_quantity].
Qed.

(** X18.  Whatever one of the four cart methods does to the application, it
    leaves the cart in [localStorage] equal to the cart in memory, unless it
    does nothing at all (an unknown product, or a quantity for a product
    that is not in the cart). *)
Theorem cart_stored (productId : option Z) (newQuantity : Z) (app : @App Price Image) :
  Forall (fun app' => app' = app \/ storedCart app' = Some (cart app'))
         [ addToCart productId app; buyNow productId app;
           removeFromCart productId app;
           updateCartQuantity productId newQuantity app ].
Proof.
  rewrite !Forall_cons. split_and!; [| | | |constructor].
  - unfold addToCart. destruct (find _ _); [by right|by left].
  - unfold buyNow. destruct (find _ _); [by right|by left].
  - by right.
  - unfold updateCartQuantity. destruct (_ <=? _)%Z; [by right|].
    destruct (findIndex _ _); [by right|by left].
Qed.

(** X19.  [updateCartQuantity] with a positive quantity, on a cart that has
    the product once: the cart then holds that quantity of the product and
    what it held of every other; with a quantity that is not positive the
    product is removed. *)
Theorem updateCartQuantity_quantity (productId : option Z) (newQuantity : Z)
    (app : @App Price Image) (i : option Z) :
  NoDup (id <$> cart app) ->
  productId ∈ id <$> cart app ->
  quantityOf i (cart (updateCartQuantity productId newQuantity app))
  = if decide (i = productId) then Z.max newQuantity 0 else quantityOf i (cart app).
Proof.
  intros Hnd Hin. unfold updateCartQuantity.
  destruct (Z.leb_spec newQuantity 0) as [Hq|Hq].
  { rewrite Z.max_r by done. simpl. apply quantityOf_filter. }
  rewrite Z.max_l by lia.
  destruct (findIndex _ _) as [n|] eqn:Hidx.
  - apply findIndex_Some in Hidx as (item & Hn & Hitem%bool_decide_eq_true & _).
    simpl. rewrite (quantityOf_alter i _ n item) by done.
    destruct (decide (i = productId)) as [->|Hi];
      [|rewrite decide_False by congruence; lia].
    rewrite decide_True by done.
    assert (quantityOf productId (cart app) = quantity item) as ->; [|lia].
    clear Hin. revert n Hn. unfold quantityOf.
    induction (cart app) as [|x c IH]; intros [|n]; simpl; try done.
    + intros [= ->]. rewrite decide_True by done.
      rewrite fmap_cons in Hnd. apply NoDup_cons in Hnd as [Hx _].
      fold (quantityOf productId c). rewrite quantityOf_absent; [lia|].
      apply Forall_forall. intros y Hy. apply bool_decide_eq_false. intros Heq.
      apply Hx. rewrite Hitem, <-Heq. by apply list_elem_of_fmap_2.
    + intros Hn. rewrite fmap_cons in Hnd. apply NoDup_cons in Hnd as [Hx Hnd].
      rewrite decide_False; [by apply (IH Hnd n)|].
      intros Heq. apply Hx. rewrite Heq, <-Hitem.
      apply list_elem_of_fmap_2. by apply list_elem_of_lookup_2 in Hn.
  - apply findIndex_None in Hidx. rewrite Forall_forall in Hidx.
    apply list_elem_of_fmap in Hin as (item & -> & Hin).
    apply Hidx, bool_decide_eq_false in Hin. done.
Qed.

End Methods.

Lemma addToCart_quantity_witness :
  cartItemCount (addToCart (Some 7%Z) shop) = (cartItemCount shop + 1)%Z.
Proof.
  destruct (addToCart_quantity (Some 7%Z) shop) as [H _].
  destruct H as [_ H]; [|exact H].
  apply (bool_decide_unpack _). vm_compute. exact I.
Defined.

Lemma cart_wellFormed_witness :
  wellFormed (cart (updateCartQuantity (Some 7%Z) 5 shop)).
Proof.
  destruct (cart_wellFormed (Some 7%Z) 5 shop) as (_ & _ & _ & H); [|exact H].
  split.
  - apply (bool_decide_unpack _). vm_compute. exact I.
  - repeat constructor.
Defined.

Lemma updateCartQuantity_quantity_witness :
  quantityOf (Some 7%Z) (cart (updateCartQuantity (Some 7%Z) 5 shop)) = 5%Z.
Proof.
  apply (updateCartQuantity_quantity (Some 7%Z) 5 shop (Some 7%Z)).
  - apply (bool_decide_unpack _). vm_compute. exact I.
  - apply (bool_decide_unpack _). vm_compute. exact I.
Defined.

End CartFacts.
